(** * Verification of charm_k8s_loadbalancer

    A shallow embedding of [src/charm_k8s_loadbalancer.py]: the configuration
    parsers ([parse_selector], [parse_annotations], [parse_fixed_ip],
    [_validate_port]), the construction of the desired [Service] object and
    the create-or-replace / delete protocol against the cluster API; and of
    [src/charm.py], the charm that calls them from its hooks.

    Conventions.
    - A Python [str] is a [string]; the character [ascii] numbered [n] stands
      for the code point U+00[n], so the model covers the strings over
      U+0000..U+00FF.
    - A [dict[str, str]] is a [gmap string string].
    - A function that may raise returns [Exn + A]; [inl e] is "raises [e]".
    - The standard library functions [json.loads] and [ipaddress.ip_address],
      and the behaviour of the cluster behind the lightkube client, are
      collaborators: they are taken as class parameters, with one reference
      instance each to run the code on concrete inputs.
    - Constructing the lightkube [Client] is taken to succeed, and the calls
      of [logger.info] are left out: they change neither the result nor the
      cluster. *)

From Stdlib Require Import ZArith Lia Ascii String List.
From stdpp Require Import base option list gmap strings.

Open Scope Z_scope.

(** ** Python strings *)

Module Py.

(** [str.isspace] on one character, for the code points below U+0100: the
    characters of bidirectional type WS, B or S, and those of category Zs. *)
Definition isspace (c : ascii) : bool :=
  let n := N_of_ascii c in
  ((9 <=? n) && (n <=? 13) || (28 <=? n) && (n <=? 32)
   || (n =? 133) || (n =? 160))%N.

Definition is_char (c : ascii) : ascii → bool := Ascii.eqb c.

(** [not s]: the empty string is the only falsy one. *)
Definition is_empty (s : string) : bool :=
  match s with
  | EmptyString => true
  | String _ _ => false
  end.

Fixpoint lstrip_by (p : ascii → bool) (s : string) : string :=
  match s with
  | EmptyString => EmptyString
  | String c t => if p c then lstrip_by p t else s
  end.

Fixpoint rstrip_by (p : ascii → bool) (s : string) : string :=
  match s with
  | EmptyString => EmptyString
  | String c t =>
      match rstrip_by p t with
      | EmptyString => if p c then EmptyString else String c EmptyString
      | t' => String c t'
      end
  end.

(** [s.strip()] *)
Definition strip (s : string) : string :=
  rstrip_by isspace (lstrip_by isspace s).

(** [s.rstrip(",")], for a one-character argument. *)
Definition rstrip_char (c : ascii) (s : string) : string :=
  rstrip_by (is_char c) s.

(** [c in s], for a one-character [c]. *)
Fixpoint contains (c : ascii) (s : string) : bool :=
  match s with
  | EmptyString => false
  | String d t => Ascii.eqb c d || contains c t
  end.

(** [s.startswith(c)], for a one-character [c]. *)
Definition startswith (c : ascii) (s : string) : bool :=
  match s with
  | String d _ => Ascii.eqb c d
  | EmptyString => false
  end.

(** [s.split(sep)], for a one-character [sep]: never the empty list. *)
Fixpoint split (sep : ascii) (s : string) : list string :=
  match s with
  | EmptyString => [EmptyString]
  | String c t =>
      if Ascii.eqb sep c then EmptyString :: split sep t
      else match split sep t with
           | h :: r => String c h :: r
           | [] => [String c EmptyString]
           end
  end.

(** [s.split(sep, 1)]: one element when [sep] does not occur, else the text
    before the first [sep] and the text after it. *)
Fixpoint split1 (sep : ascii) (s : string) : list string :=
  match s with
  | EmptyString => [EmptyString]
  | String c t =>
      if Ascii.eqb sep c then [EmptyString; t]
      else match split1 sep t with
           | h :: r => String c h :: r
           | [] => [String c EmptyString]
           end
  end.

(** [sep.join(l)] *)
Fixpoint join (sep : string) (l : list string) : string :=
  match l with
  | [] => EmptyString
  | [s] => s
  | s :: r => s +:+ sep +:+ join sep r
  end.

Definition hex_digit (n : N) : ascii :=
  ascii_of_N (if (n <? 10)%N then 48 + n else 87 + n).

(** [str.isprintable] on one character, below U+0100. *)
Definition isprintable (c : ascii) : bool :=
  let n := N_of_ascii c in
  ((32 <=? n) && (n <? 127) || (161 <=? n) && negb (n =? 173))%N.

(** One character of [repr(s)] with the quote character [q]. *)
Definition repr_char (q c : ascii) : string :=
  if Ascii.eqb c q || Ascii.eqb c "\"%char then String "\"%char (String c EmptyString)
  else if Ascii.eqb c "009"%char then "\t"
  else if Ascii.eqb c "010"%char then "\n"
  else if Ascii.eqb c "013"%char then "\r"
  else if isprintable c then String c EmptyString
  else
    let n := N_of_ascii c in
    String "\"%char (String "x"%char
      (String (hex_digit (n / 16)) (String (hex_digit (n mod 16)) EmptyString))).

Fixpoint repr_body (q : ascii) (s : string) : string :=
  match s with
  | EmptyString => EmptyString
  | String c t => repr_char q c +:+ repr_body q t
  end.

(** [repr(s)], the [!r] conversion of an f-string: single quotes, unless the
    text has a single quote and no double quote. *)
Definition repr (s : string) : string :=
  let q := if contains "'"%char s && negb (contains "034"%char s)
           then "034"%char else "'"%char in
  String q (repr_body q s) +:+ String q EmptyString.

End Py.


(** ** Regular expressions

    The two patterns of the module use character classes, concatenation,
    [?] and [*] only, between [^] and [$].  A pattern is matched by
    derivatives: for such patterns the backtracking search of [re] finds a
    match exactly when one exists. *)

Module Re.

Inductive re : Type :=
| Void : re
| Eps : re
| Class : (ascii → bool) → re
| Cat : re → re → re
| Alt : re → re → re
| Star : re → re.

(** [r?] *)
Definition Opt (r : re) : re := Alt r Eps.

Fixpoint nullable (r : re) : bool :=
  match r with
  | Void => false
  | Eps => true
  | Class _ => false
  | Cat r1 r2 => nullable r1 && nullable r2
  | Alt r1 r2 => nullable r1 || nullable r2
  | Star _ => true
  end.

Fixpoint deriv (c : ascii) (r : re) : re :=
  match r with
  | Void => Void
  | Eps => Void
  | Class p => if p c then Eps else Void
  | Cat r1 r2 =>
      if nullable r1 then Alt (Cat (deriv c r1) r2) (deriv c r2)
      else Cat (deriv c r1) r2
  | Alt r1 r2 => Alt (deriv c r1) (deriv c r2)
  | Star r1 => Cat (deriv c r1) (Star r1)
  end.

(** The whole of [s] is a word of [r]. *)
Fixpoint fullmatch (r : re) (s : string) : bool :=
  match s with
  | EmptyString => nullable r
  | String c t => fullmatch (deriv c r) t
  end.

(** [s] without its last character, when that is a line feed. *)
Fixpoint chop_newline (s : string) : option string :=
  match s with
  | EmptyString => None
  | String c EmptyString =>
      if Ascii.eqb c "010"%char then Some EmptyString else None
  | String c t => String c <$> chop_newline t
  end.

(** [re.compile("^r$").match(s)] is not [None].  Without [re.MULTILINE],
    [$] matches at the end of the string and also just before a line feed
    that ends the string. *)
Definition match_ (r : re) (s : string) : bool :=
  fullmatch r s ||
  match chop_newline s with
  | Some t => fullmatch r t
  | None => false
  end.

Definition in_range (lo hi c : ascii) : bool :=
  (N_of_ascii lo <=? N_of_ascii c)%N && (N_of_ascii c <=? N_of_ascii hi)%N.

End Re.


Import Py.

(** ** Exceptions and collaborators *)

(** [lightkube.models.meta_v1.Status], the payload of an [ApiError]. *)
Record Status : Type := { code : option Z; message : string }.

(** The exceptions of the model: [ConfigError] of this module, [ApiError]
    of lightkube, [json.JSONDecodeError] with its text, and any other
    exception. *)
Inductive Exn : Type :=
| ConfigError (msg : string)
| ApiError (status : Status)
| JSONDecodeError (msg : string)
| OtherError (msg : string).

Definition raise {A : Type} (e : Exn) : Exn + A := inl e.

#[export] Instance exn_ret : MRet (sum Exn) := λ A a, inr a.
#[export] Instance exn_bind : MBind (sum Exn) := λ A B f m,
  match m with
  | inl e => inl e
  | inr a => f a
  end.

#[local] Set Warnings "-register-all".

(** What [json.loads] returns. *)
Inductive json : Type :=
| JNull : json
| JBool : bool → json
| JNumber : string → json
| JStr : string → json
| JList : list json → json
| JDict : gmap string json → json.

(** [json.loads(s)]: the decoded value, or the exception raised, which is
    [JSONDecodeError (str e)] for a [json.JSONDecodeError] [e]. *)
Class JsonDecoder : Type := { json_loads : string → Exn + json }.

(** [str(ipaddress.ip_address(text))], or [None] when [ip_address] raises
    [ValueError].  The textual form of an address is never empty. *)
Class IpAddress : Type := {
  ip_address : string → option string;
  ip_address_nonempty : ∀ text ip, ip_address text = Some ip → ip ≠ EmptyString
}.

(** ** Configuration parsing *)

Definition _validate_port (name : string) (value : Z) : Exn + Z :=
  if negb ((1 <=? value) && (value <=? 65535)) then
    raise (ConfigError (name +:+ " must be between 1 and 65535"))
  else inr value.

Definition is_str (v : json) : bool :=
  match v with
  | JStr _ => true
  | _ => false
  end.

Definition as_str (v : json) : option string :=
  match v with
  | JStr s => Some s
  | _ => None
  end.

(** The body of the [for part in selector.split(",")] loop of
    [parse_selector], with the [result] dict threaded through. *)
Fixpoint parse_selector_loop (parts : list string) (result : gmap string string)
  : Exn + gmap string string :=
  match parts with
  | [] => inr result
  | part :: parts =>
      let part := strip part in
      if is_empty part then parse_selector_loop parts result
      else if negb (contains "=" part) then
        raise (ConfigError
          "selector must be in 'key=value' format (comma-separated) or JSON object")
      else
        match split1 "=" part with
        | [key; value] =>
            let key := strip key in
            let value := strip value in
            if is_empty key || is_empty value then
              raise (ConfigError "selector contains an empty key or value")
            else parse_selector_loop parts (<[key := value]> result)
        | _ => raise (OtherError "ValueError: not enough values to unpack")
        end
  end.

Definition parse_selector `{JsonDecoder} (raw : option string)
  : Exn + gmap string string :=
  match raw with
  | None => raise (ConfigError "selector must be set")
  | Some raw =>
      let selector := strip raw in
      if is_empty selector then raise (ConfigError "selector must not be empty")
      else if startswith "{" selector then
        match json_loads selector with
        | inl (JSONDecodeError e) =>
            raise (ConfigError ("selector JSON is invalid: " +:+ e))
        | inl e => raise e
        | inr (JDict parsed) =>
            if negb (forallb (λ kv, is_str kv.2) (map_to_list parsed)) then
              raise (ConfigError "selector JSON must be an object of string:string")
            else if decide (parsed = ∅) then
              raise (ConfigError "selector must not be empty")
            else inr (omap as_str parsed)
        | inr _ =>
            raise (ConfigError "selector JSON must be an object of string:string")
        end
      else
        result ← parse_selector_loop (split "," selector) ∅;
        if decide (result = ∅) then
          raise (ConfigError "selector must not be empty")
        else inr result
  end.

Definition lower_alnum (c : ascii) : bool :=
  Re.in_range "a" "z" c || Re.in_range "0" "9" c.

Definition alnum (c : ascii) : bool :=
  Re.in_range "A" "Z" c || Re.in_range "a" "z" c || Re.in_range "0" "9" c.

(** [[a-z0-9]([-a-z0-9]*[a-z0-9])?] *)
Definition dns1123_label : Re.re :=
  Re.Cat (Re.Class lower_alnum)
    (Re.Opt (Re.Cat (Re.Star (Re.Class (λ c, is_char "-" c || lower_alnum c)))
                    (Re.Class lower_alnum))).

(** [^[a-z0-9]([-a-z0-9]*[a-z0-9])?(\.[a-z0-9]([-a-z0-9]*[a-z0-9])?)*$] *)
Definition _DNS1123_SUBDOMAIN_PATTERN : Re.re :=
  Re.Cat dns1123_label
    (Re.Star (Re.Cat (Re.Class (is_char ".")) dns1123_label)).

Definition name_char (c : ascii) : bool :=
  is_char "-" c || alnum c || is_char "_" c || is_char "." c.

(** [^[A-Za-z0-9]([-A-Za-z0-9_.]*[A-Za-z0-9])?$] *)
Definition _QUALIFIED_NAME_PATTERN : Re.re :=
  Re.Cat (Re.Class alnum)
    (Re.Opt (Re.Cat (Re.Star (Re.Class name_char)) (Re.Class alnum))).

(** The last test of [_is_valid_annotation_key], on the [name] part. *)
Definition valid_name_part (name : string) : bool :=
  if is_empty name || (63 <? String.length name)%nat
     || negb (Re.match_ _QUALIFIED_NAME_PATTERN name)
  then false else true.

Definition _is_valid_annotation_key (key : string) : bool :=
  if is_empty key || (253 <? String.length key)%nat then false
  else
    let parts := split "/" key in
    if (2 <? length parts)%nat then false
    else if (length parts =? 2)%nat then
      match parts with
      | [prefix; name] =>
          if is_empty prefix || negb (Re.match_ _DNS1123_SUBDOMAIN_PATTERN prefix)
          then false
          else valid_name_part name
      | _ => false
      end
    else
      match parts with
      | name :: _ => valid_name_part name
      | [] => false
      end.

(** The body of the [for pair in ...] loop of [parse_annotations]. *)
Fixpoint parse_annotations_loop (pairs : list string) (result : gmap string string)
  : Exn + gmap string string :=
  match pairs with
  | [] => inr result
  | pair_ :: pairs =>
      if negb (contains "=" pair_) then
        raise (ConfigError
          "loadbalancer-annotations must be in 'key=value' format (comma-separated)")
      else
        match split1 "=" pair_ with
        | [key; value] =>
            let key := strip key in
            let value := strip value in
            if negb (_is_valid_annotation_key key) then
              raise (ConfigError ("invalid annotation key: " +:+ repr key))
            else parse_annotations_loop pairs (<[key := value]> result)
        | _ => raise (OtherError "ValueError: not enough values to unpack")
        end
  end.

Definition parse_annotations (raw : option string) : Exn + gmap string string :=
  match raw with
  | None => inr ∅
  | Some raw =>
      let text := rstrip_char "," (strip raw) in
      if is_empty text then inr ∅
      else
        parse_annotations_loop
          (strip <$> filter (λ p, negb (is_empty (strip p))) (split "," text))
          ∅
  end.

Definition parse_fixed_ip `{IpAddress} (raw : option string)
  : Exn + option string :=
  match raw with
  | None => inr None
  | Some raw =>
      let text := strip raw in
      if is_empty text then inr None
      else
        match ip_address text with
        | Some ip => inr (Some ip)
        | None => raise (ConfigError "fixed-ip must be a valid IPv4 or IPv6 address")
        end
  end.

(** ** The desired Service object *)

Module ServiceConfig.
Record t : Type := mk {
  name : string;
  namespace : string;
  selector : gmap string string;
  target_port : Z;
  lb_port : Z;
  annotations : gmap string string;
  fixed_ip : option string
}.
End ServiceConfig.

Module ObjectMeta.
Record t : Type := mk {
  name : string;
  namespace : string;
  labels : gmap string string;
  annotations : option (gmap string string)
}.
End ObjectMeta.

Module ServicePort.
Record t : Type := mk {
  port : Z;
  targetPort : Z;
  protocol : string;
  name : string
}.
End ServicePort.

Module ServiceSpec.
Record t : Type := mk {
  type : string;
  loadBalancerIP : option string;
  selector : gmap string string;
  ports : list ServicePort.t
}.
End ServiceSpec.

Module Service.
Record t : Type := mk {
  metadata : ObjectMeta.t;
  spec : ServiceSpec.t
}.
End Service.

(** ** The API client *)

(** [Client(namespace=..., field_manager=...)] *)
Record Client : Type := { client_namespace : string; field_manager : string }.

(** The calls the module makes on a client: [client.create(svc)],
    [client.replace(svc)] and [client.delete(Service, name=, namespace=)]. *)
Inductive Request : Type :=
| Create (obj : Service.t)
| Replace (obj : Service.t)
| Delete (name namespace : string).

(** The lightkube package over a cluster whose state has type [Σ]:
    whether the package can be imported, and what a request does to the
    cluster; [None] is a normal return, [Some e] the exception raised. *)
Class Lightkube (Σ : Type) : Type := {
  lightkube_installed : bool;
  request : Client → Request → Σ → option Exn * Σ
}.

(** The cluster together with the record of the requests sent so far. *)
Record World (Σ : Type) : Type := {
  cluster : Σ;
  calls : list (Client * Request)
}.
Arguments cluster {Σ} _.
Arguments calls {Σ} _.

(** Code that talks to the cluster: a state and exception monad. *)
Definition Api (Σ A : Type) : Type := World Σ → (Exn + A) * World Σ.

#[export] Instance api_ret {Σ} : MRet (Api Σ) := λ A a w, (inr a, w).
#[export] Instance api_bind {Σ} : MBind (Api Σ) := λ A B f m w,
  match m w with
  | (inl e, w') => (inl e, w')
  | (inr a, w') => f a w'
  end.

Definition lift {Σ A} (r : Exn + A) : Api Σ A := λ w, (r, w).

Definition call `{Lightkube Σ} (c : Client) (r : Request) : Api Σ unit := λ w,
  let '(res, σ) := request c r (cluster w) in
  (match res with
   | Some e => inl e
   | None => inr tt
   end,
   {| cluster := σ; calls := calls w ++ [(c, r)] |}).

(** [try: body  except ApiError as e: handler(e.status)] *)
Definition try_except_ApiError {Σ A} (body : Api Σ A) (handler : Status → Api Σ A)
  : Api Σ A := λ w,
  match body w with
  | (inl (ApiError st), w') => handler st w'
  | res => res
  end.

Definition missing_lightkube : Exn :=
  ConfigError
    "missing runtime dependency 'lightkube' (repack the charm after updating uv.lock)".

Definition _build_service `{Lightkube Σ} (cfg : ServiceConfig.t) : Exn + Service.t :=
  if negb lightkube_installed then raise missing_lightkube
  else
    inr (Service.mk
      (ObjectMeta.mk
         (ServiceConfig.name cfg)
         (ServiceConfig.namespace cfg)
         {[ "app.kubernetes.io/name" := ServiceConfig.name cfg ]}
         (if decide (ServiceConfig.annotations cfg = ∅) then None
          else Some (ServiceConfig.annotations cfg)))
      (ServiceSpec.mk
         "LoadBalancer"
         (match ServiceConfig.fixed_ip cfg with
          | Some ip => if is_empty ip then None else Some ip
          | None => None
          end)
         (ServiceConfig.selector cfg)
         [ServicePort.mk (ServiceConfig.lb_port cfg)
                         (ServiceConfig.target_port cfg) "TCP" "lb"])).

Definition ensure_loadbalancer_service `{Lightkube Σ, IpAddress}
    (app_name namespace : string) (selector : gmap string string)
    (target_port lb_port : Z) (annotations : option (gmap string string))
    (fixed_ip : option string) : Api Σ unit :=
  if is_empty app_name then lift (raise (ConfigError "app_name must not be empty"))
  else if is_empty namespace then
    lift (raise (ConfigError "namespace must not be empty"))
  else if decide (selector = ∅) then
    lift (raise (ConfigError "selector must not be empty"))
  else
    target_port ← lift (_validate_port "target-port" target_port);
    lb_port ← lift (_validate_port "lb-port" lb_port);
    fixed_ip ← lift (parse_fixed_ip fixed_ip);
    let cfg :=
      ServiceConfig.mk (app_name +:+ "-lb") namespace selector target_port lb_port
        (default ∅ annotations) fixed_ip in
    svc ← lift (_build_service (Σ := Σ) cfg);
    if negb (lightkube_installed (Σ := Σ)) then lift (raise missing_lightkube)
    else
      let client := {| client_namespace := namespace; field_manager := app_name |} in
      try_except_ApiError (call client (Create svc))
        (λ st,
           if negb (bool_decide (code st = Some 409)) then lift (raise (ApiError st))
           else call client (Replace svc)).

Definition delete_loadbalancer_service `{Lightkube Σ}
    (app_name namespace : string) : Api Σ unit :=
  if negb (lightkube_installed (Σ := Σ)) then lift (raise missing_lightkube)
  else
    let name := app_name +:+ "-lb" in
    let client := {| client_namespace := namespace; field_manager := app_name |} in
    try_except_ApiError (call client (Delete name namespace))
      (λ st,
         if bool_decide (code st = Some 404) then mret tt
         else lift (raise (ApiError st))).

(** ** Reference collaborators *)

Module RefJson.

(** A decoder for the JSON documents whose strings stay below U+0100,
    following the steps of CPython's [json.decoder] ([JSONObject],
    [JSONArray], [scanstring], [NUMBER_RE]).  It departs from CPython in
    three documented ways: an escape [\uXXXX] above U+00FF denotes a
    character outside the alphabet of the model and ends the decoding with an
    exception that is not a [JSONDecodeError]; the text of a
    [JSONDecodeError] carries no position; and a [RecursionError] is raised
    when the fuel runs out, not at the depth where CPython gives up. *)

Definition dq : ascii := "034"%char.

Definition is_ws (c : ascii) : bool :=
  is_char " " c || is_char "009" c || is_char "010" c || is_char "013" c.

Definition skip_ws : string → string := lstrip_by is_ws.

Definition is_digit (c : ascii) : bool := Re.in_range "0" "9" c.

Definition hex_value (c : ascii) : option N :=
  let n := N_of_ascii c in
  if Re.in_range "0" "9" c then Some (n - 48)%N
  else if Re.in_range "a" "f" c then Some (n - 87)%N
  else if Re.in_range "A" "F" c then Some (n - 55)%N
  else None.

Definition escape (c : ascii) : option ascii :=
  if is_char dq c then Some dq
  else if is_char "\" c then Some "\"%char
  else if is_char "/" c then Some "/"%char
  else if is_char "b" c then Some "008"%char
  else if is_char "f" c then Some "012"%char
  else if is_char "n" c then Some "010"%char
  else if is_char "r" c then Some "013"%char
  else if is_char "t" c then Some "009"%char
  else None.

(** [scanstring], from the character after the opening quote: the decoded
    text and the rest of the document. *)
Fixpoint scanstring (s : string) : Exn + (string * string) :=
  match s with
  | EmptyString => inl (JSONDecodeError "Unterminated string starting at")
  | String c t =>
      if is_char dq c then inr (EmptyString, t)
      else if is_char "\" c then
        match t with
        | EmptyString => inl (JSONDecodeError "Unterminated string starting at")
        | String e t1 =>
            if is_char "u" e then
              match t1 with
              | String h1 (String h2 (String h3 (String h4 t2))) =>
                  match hex_value h1, hex_value h2, hex_value h3, hex_value h4 with
                  | Some a, Some b, Some c, Some d =>
                      let n := (((a * 16 + b) * 16 + c) * 16 + d)%N in
                      if (n <? 256)%N then
                        match scanstring t2 with
                        | inr (text, rest) => inr (String (ascii_of_N n) text, rest)
                        | inl err => inl err
                        end
                      else inl (OtherError "escape above U+00FF")
                  | _, _, _, _ => inl (JSONDecodeError "Invalid \uXXXX escape")
                  end
              | _ => inl (JSONDecodeError "Invalid \uXXXX escape")
              end
            else
              match escape e with
              | Some x =>
                  match scanstring t1 with
                  | inr (text, rest) => inr (String x text, rest)
                  | inl err => inl err
                  end
              | None => inl (JSONDecodeError "Invalid \escape")
              end
        end
      else if (N_of_ascii c <? 32)%N then inl (JSONDecodeError "Invalid control character at")
      else
        match scanstring t with
        | inr (text, rest) => inr (String c text, rest)
        | inl err => inl err
        end
  end.

(** The longest prefix of digits, and the rest. *)
Fixpoint digits (s : string) : string * string :=
  match s with
  | String c t =>
      if is_digit c then let '(d, r) := digits t in (String c d, r)
      else (EmptyString, s)
  | EmptyString => (EmptyString, EmptyString)
  end.

(** The integer group of [NUMBER_RE] at the start of [s]: an optional
    minus sign, then [0] or a digit from 1 to 9 followed by digits. *)
Definition integer_part (s : string) : option (string * string) :=
  let '(sign, s1) :=
    match s with
    | String c t => if is_char "-" c then ("-", t) else (EmptyString, s)
    | EmptyString => (EmptyString, s)
    end in
  match s1 with
  | String c t =>
      if is_char "0" c then Some (sign +:+ "0", t)
      else if is_digit c then
        let '(d, r) := digits t in Some (sign +:+ String c d, r)
      else None
  | EmptyString => None
  end.

(** The optional fraction group of [NUMBER_RE]: a dot and one digit or
    more. *)
Definition frac_part (s : string) : string * string :=
  match s with
  | String c t =>
      if is_char "." c then
        match digits t with
        | (EmptyString, _) => (EmptyString, s)
        | (d, r) => (String c d, r)
        end
      else (EmptyString, s)
  | EmptyString => (EmptyString, s)
  end.

(** The optional exponent group of [NUMBER_RE]: [e] or [E], an optional
    sign, and one digit or more. *)
Definition exp_part (s : string) : string * string :=
  match s with
  | String c t =>
      if is_char "e" c || is_char "E" c then
        let '(sign, t1) :=
          match t with
          | String g u =>
              if is_char "-" g || is_char "+" g then (String g EmptyString, u)
              else (EmptyString, t)
          | EmptyString => (EmptyString, t)
          end in
        match digits t1 with
        | (EmptyString, _) => (EmptyString, s)
        | (d, r) => (String c (sign +:+ d), r)
        end
      else (EmptyString, s)
  | EmptyString => (EmptyString, s)
  end.

(** [NUMBER_RE.match] at the start of [s]. *)
Definition number (s : string) : option (string * string) :=
  match integer_part s with
  | Some (i, r) =>
      let '(f, r1) := frac_part r in
      let '(e, r2) := exp_part r1 in
      Some (i +:+ f +:+ e, r2)
  | None => None
  end.

(** [s[idx:idx+len(w)] == w]: the rest after the word [w], if [s] starts
    with it. *)
Fixpoint after (w s : string) : option string :=
  match w, s with
  | EmptyString, _ => Some s
  | String a w', String b s' => if Ascii.eqb a b then after w' s' else None
  | String _ _, EmptyString => None
  end.

Definition literal (s : string) : option (json * string) :=
  match after "null" s, after "true" s, after "false" s with
  | Some r, _, _ => Some (JNull, r)
  | _, Some r, _ => Some (JBool true, r)
  | _, _, Some r => Some (JBool false, r)
  | _, _, _ =>
      match number s with
      | Some (text, r) => Some (JNumber text, r)
      | None =>
          match after "NaN" s, after "Infinity" s, after "-Infinity" s with
          | Some r, _, _ => Some (JNumber "NaN", r)
          | _, Some r, _ => Some (JNumber "Infinity", r)
          | _, _, Some r => Some (JNumber "-Infinity", r)
          | _, _, _ => None
          end
      end
  end.

(** [scan_once], and the loops of [JSONObject] and [JSONArray] after the
    opening bracket and the white space that follows it.  Every call
    consumes one unit of [fuel]. *)
Fixpoint scan_once (fuel : nat) (s : string) : Exn + (json * string) :=
  match fuel with
  | O => inl (OtherError "RecursionError")
  | S fuel =>
      match s with
      | EmptyString => inl (JSONDecodeError "Expecting value")
      | String c t =>
          if is_char dq c then
            match scanstring t with
            | inr (text, rest) => inr (JStr text, rest)
            | inl err => inl err
            end
          else if is_char "{" c then
            match skip_ws t with
            | String d u =>
                if is_char "}" d then inr (JDict ∅, u)
                else members fuel (skip_ws t) ∅
            | EmptyString => members fuel EmptyString ∅
            end
          else if is_char "[" c then
            match skip_ws t with
            | String d u =>
                if is_char "]" d then inr (JList [], u)
                else items fuel (skip_ws t) []
            | EmptyString => items fuel EmptyString []
            end
          else
            match literal s with
            | Some res => inr res
            | None => inl (JSONDecodeError "Expecting value")
            end
      end
  end
with members (fuel : nat) (s : string) (pairs : gmap string json)
  : Exn + (json * string) :=
  match fuel with
  | O => inl (OtherError "RecursionError")
  | S fuel =>
      match s with
      | String c t =>
          if negb (is_char dq c) then
            inl (JSONDecodeError "Expecting property name enclosed in double quotes")
          else
            match scanstring t with
            | inl err => inl err
            | inr (key, rest) =>
                match skip_ws rest with
                | String d u =>
                    if negb (is_char ":" d) then inl (JSONDecodeError "Expecting ':' delimiter")
                    else
                      match scan_once fuel (skip_ws u) with
                      | inl err => inl err
                      | inr (value, rest) =>
                          let pairs := <[key := value]> pairs in
                          match skip_ws rest with
                          | String e v =>
                              if is_char "}" e then inr (JDict pairs, v)
                              else if is_char "," e then
                                members fuel (skip_ws v) pairs
                              else inl (JSONDecodeError "Expecting ',' delimiter")
                          | EmptyString => inl (JSONDecodeError "Expecting ',' delimiter")
                          end
                      end
                | EmptyString => inl (JSONDecodeError "Expecting ':' delimiter")
                end
            end
      | EmptyString => inl (JSONDecodeError "Expecting property name enclosed in double quotes")
      end
  end
with items (fuel : nat) (s : string) (values : list json)
  : Exn + (json * string) :=
  match fuel with
  | O => inl (OtherError "RecursionError")
  | S fuel =>
      match scan_once fuel s with
      | inl err => inl err
      | inr (value, rest) =>
          let values := values ++ [value] in
          match skip_ws rest with
          | String e v =>
              if is_char "]" e then inr (JList values, v)
              else if is_char "," e then items fuel (skip_ws v) values
              else inl (JSONDecodeError "Expecting ',' delimiter")
          | EmptyString => inl (JSONDecodeError "Expecting ',' delimiter")
          end
      end
  end.

(** [JSONDecoder.decode]: one value between optional white space. *)
Definition loads (s : string) : Exn + json :=
  match scan_once (2 * String.length s + 2) (skip_ws s) with
  | inl err => inl err
  | inr (value, rest) =>
      if is_empty (skip_ws rest) then inr value else inl (JSONDecodeError "Extra data")
  end.

(** Writes a document with ['] for the double quote. *)
Fixpoint q (s : string) : string :=
  match s with
  | EmptyString => EmptyString
  | String c t => String (if is_char "'" c then dq else c) (q t)
  end.

End RefJson.

#[export] Instance reference_json : JsonDecoder := {| json_loads := RefJson.loads |}.


Module RefIp.

(** One octet of a dotted quad: one to three decimal digits, no leading
    zero, at most 255. *)
Definition octet (s : string) : bool :=
  match s with
  | String a EmptyString => RefJson.is_digit a
  | String a (String b EmptyString) =>
      Re.in_range "1" "9" a && RefJson.is_digit b
  | String a (String b (String c EmptyString)) =>
      Re.in_range "1" "9" a && RefJson.is_digit b && RefJson.is_digit c
      && ((N_of_ascii a - 48) * 100 + (N_of_ascii b - 48) * 10
          + (N_of_ascii c - 48) <=? 255)%N
  | _ => false
  end.

(** [ip_address] restricted to IPv4 literals, which are printed back as
    they are written; IPv6 literals are not recognised by this instance. *)
Definition ipv4 (text : string) : option string :=
  match split "." text with
  | [a; b; c; d] =>
      if octet a && octet b && octet c && octet d then Some text else None
  | _ => None
  end.

End RefIp.

#[export, refine] Instance reference_ipv4 : IpAddress :=
  {| ip_address := RefIp.ipv4 |}.
Proof.
  intros text ip Hip ->. unfold RefIp.ipv4 in Hip.
  destruct (split "." text) as [|a [|b [|c [|d [|]]]]] eqn:E; try discriminate.
  destruct (_ && _); [|discriminate].
  injection Hip as ->. discriminate.
Defined.

(** An object as the cluster keeps it: the object and the field manager of
    the client that wrote it. *)
Record Stored : Type := { obj : Service.t; manager : string }.

(** Modelled from the spec: the cluster behind the API client.  Section 6 of
    the specification gives the contract of the collaborator
    ([Create -> OK | AlreadyExists | OtherError], [Replace -> OK | OtherError],
    [Delete -> OK | NotFound | OtherError]) and section 3 keys the Service
    object by (namespace, name).  [faults] is the schedule of failures other
    than the two recognised ones: before a request is served, the head of the
    schedule is consumed, and [Some e] makes the request fail with [e] and
    leave the objects as they are. *)
Record Cluster : Type := {
  objects : gmap (string * string) Stored;
  faults : list (option Exn)
}.

Definition key_of (svc : Service.t) : string * string :=
  (ObjectMeta.namespace (Service.metadata svc),
   ObjectMeta.name (Service.metadata svc)).

Definition api_error (c : Z) (reason : string) : Exn :=
  ApiError {| code := Some c; message := reason |}.

Definition serve (c : Client) (r : Request) (objs : gmap (string * string) Stored)
  : option Exn * gmap (string * string) Stored :=
  match r with
  | Create svc =>
      match objs !! key_of svc with
      | Some _ => (Some (api_error 409 "AlreadyExists"), objs)
      | None =>
          (None, <[key_of svc := {| obj := svc; manager := field_manager c |}]> objs)
      end
  | Replace svc =>
      match objs !! key_of svc with
      | Some _ =>
          (None, <[key_of svc := {| obj := svc; manager := field_manager c |}]> objs)
      | None => (Some (api_error 404 "NotFound"), objs)
      end
  | Delete name namespace =>
      match objs !! (namespace, name) with
      | Some _ => (None, delete (namespace, name) objs)
      | None => (Some (api_error 404 "NotFound"), objs)
      end
  end.

Definition cluster_request (c : Client) (r : Request) (σ : Cluster)
  : option Exn * Cluster :=
  match faults σ with
  | Some e :: rest => (Some e, {| objects := objects σ; faults := rest |})
  | rest =>
      let '(res, objs) := serve c r (objects σ) in
      (res, {| objects := objs; faults := tail rest |})
  end.

#[export] Instance reference_cluster : Lightkube Cluster :=
  {| lightkube_installed := true; request := cluster_request |}.

(** ** The life of the application, as its caller drives it *)

(** The arguments of one call of [ensure_loadbalancer_service]. *)
Module Args.
Record t : Type := mk {
  app_name : string;
  namespace : string;
  selector : gmap string string;
  target_port : Z;
  lb_port : Z;
  annotations : option (gmap string string);
  fixed_ip : option string
}.
End Args.

Definition reconcile `{Lightkube Σ, IpAddress} (a : Args.t) : Api Σ unit :=
  ensure_loadbalancer_service (Args.app_name a) (Args.namespace a)
    (Args.selector a) (Args.target_port a) (Args.lb_port a)
    (Args.annotations a) (Args.fixed_ip a).

(** The two entry points, as the caller invokes them. *)
Inductive Op : Type :=
| Reconcile (a : Args.t)
| Remove (app_name namespace : string).

Definition run_op `{Lightkube Σ, IpAddress} (op : Op) : Api Σ unit :=
  match op with
  | Reconcile a => reconcile a
  | Remove app_name namespace => delete_loadbalancer_service app_name namespace
  end.

(** What the caller saw: the entry point called and how it ended. *)
Record Event : Type := { ev_op : Op; ev_result : Exn + unit }.

(** Runs [ops] in order; the history has the latest event first. *)
Fixpoint run_ops `{Lightkube Σ, IpAddress} (ops : list Op)
    (w : World Σ) (history : list Event) : World Σ * list Event :=
  match ops with
  | [] => (w, history)
  | op :: ops =>
      let '(res, w') := run_op op w in
      run_ops ops w' ({| ev_op := op; ev_result := res |} :: history)
  end.

(** The validated configuration of a call: the checks that
    [ensure_loadbalancer_service] makes before it builds the object. *)
Definition validated_config `{IpAddress} (a : Args.t) : Exn + ServiceConfig.t :=
  if is_empty (Args.app_name a) then
    raise (ConfigError "app_name must not be empty")
  else if is_empty (Args.namespace a) then
    raise (ConfigError "namespace must not be empty")
  else if decide (Args.selector a = ∅) then
    raise (ConfigError "selector must not be empty")
  else
    target_port ← _validate_port "target-port" (Args.target_port a);
    lb_port ← _validate_port "lb-port" (Args.lb_port a);
    fixed_ip ← parse_fixed_ip (Args.fixed_ip a);
    mret (ServiceConfig.mk (Args.app_name a +:+ "-lb") (Args.namespace a)
            (Args.selector a) target_port lb_port
            (default ∅ (Args.annotations a)) fixed_ip).

(** The Service object a call asks for. *)
Definition desired `{Lightkube Σ, IpAddress} (a : Args.t) : Exn + Service.t :=
  cfg ← validated_config a; _build_service (Σ := Σ) cfg.

Definition client_of (a : Args.t) : Client :=
  {| client_namespace := Args.namespace a; field_manager := Args.app_name a |}.

(** The object of the most recent successful [Reconcile] of the application
    [app_name] in [namespace], in a history with the latest event first. *)
Fixpoint last_reconciled `{Lightkube Σ, IpAddress} (namespace app_name : string)
    (history : list Event) : option Service.t :=
  match history with
  | [] => None
  | ev :: history =>
      match ev_op ev, ev_result ev with
      | Reconcile a, inr _ =>
          if decide (Args.namespace a = namespace ∧ Args.app_name a = app_name)
          then match desired (Σ := Σ) a with
               | inr svc => Some svc
               | inl _ => None
               end
          else last_reconciled (Σ := Σ) namespace app_name history
      | _, _ => last_reconciled (Σ := Σ) namespace app_name history
      end
  end.

(** The objects in [namespace] that the client of [app_name] wrote. *)
Definition owned (σ : Cluster) (namespace app_name : string)
  : gmap (string * string) Stored :=
  filter (λ kv, kv.1.1 = namespace ∧ manager kv.2 = app_name) (objects σ).

(** An empty cluster with a schedule of failures, and no request sent. *)
Definition initial (schedule : list (option Exn)) : World Cluster :=
  {| cluster := {| objects := ∅; faults := schedule |}; calls := [] |}.

(** ** Vocabulary of the statements *)

Fixpoint all_chars (p : ascii → bool) (s : string) : bool :=
  match s with
  | EmptyString => true
  | String c t => p c && all_chars p t
  end.

Definition first_char (s : string) : option ascii :=
  match s with
  | EmptyString => None
  | String c _ => Some c
  end.

Fixpoint last_char (s : string) : option ascii :=
  match s with
  | EmptyString => None
  | String c EmptyString => Some c
  | String _ t => last_char t
  end.

Definition holds (p : ascii → bool) (c : option ascii) : bool :=
  match c with
  | Some c => p c
  | None => false
  end.

(** Only white space, possibly nothing. *)
Definition blank (s : string) : bool := all_chars isspace s.

(** No white space at the start and none at the end. *)
Definition trimmed (s : string) : bool :=
  negb (holds isspace (first_char s)) && negb (holds isspace (last_char s)).

Fixpoint count_char (c : ascii) (s : string) : nat :=
  match s with
  | EmptyString => O
  | String d t => ((if Ascii.eqb c d then 1 else 0) + count_char c t)%nat
  end.

(** A selector in [key=value] CSV form is a list of segments joined by
    commas; a segment is blank, or a key and a value around an equals sign,
    each with white space around it. *)
Inductive Segment : Type :=
| Blank (ws : string)
| Pair (l1 key l2 r1 value r2 : string).

Definition render (seg : Segment) : string :=
  match seg with
  | Blank ws => ws
  | Pair l1 key l2 r1 value r2 =>
      l1 +:+ key +:+ l2 +:+ "=" +:+ r1 +:+ value +:+ r2
  end.

Definition wf_segment (seg : Segment) : bool :=
  match seg with
  | Blank ws => blank ws
  | Pair l1 key l2 r1 value r2 =>
      blank l1 && blank l2 && blank r1 && blank r2
      && negb (is_empty key) && trimmed key
      && negb (contains "=" key) && negb (contains "," key)
      && negb (is_empty value) && trimmed value && negb (contains "," value)
  end.

Definition pair_of (seg : Segment) : option (string * string) :=
  match seg with
  | Blank _ => None
  | Pair _ key _ _ value _ => Some (key, value)
  end.

Definition csv (segs : list Segment) : string := join "," (render <$> segs).

(** The shape [parse_selector] asks of a trimmed, non-empty segment: an
    equals sign, and around the first one a key and a value that are not
    blank. *)
Definition selector_segment_ok (part : string) : Prop :=
  ∃ key value, part = key +:+ String "=" value ∧ contains "=" key = false
    ∧ strip key ≠ EmptyString ∧ strip value ≠ EmptyString.

(** The qualified-name grammar, in the words of section 6 of the
    specification. *)

(** A DNS-1123 label: lowercase alphanumerics and [-], starting and ending
    with an alphanumeric. *)
Definition spec_dns1123_label (l : string) : bool :=
  holds lower_alnum (first_char l) && holds lower_alnum (last_char l)
  && all_chars (λ c, is_char "-" c || lower_alnum c) l.

(** A DNS-1123 subdomain: labels separated by dots. *)
Definition spec_dns1123_subdomain (p : string) : bool :=
  forallb spec_dns1123_label (split "." p).

(** The name part: 1 to 63 characters of [-A-Za-z0-9_.], starting and ending
    with an alphanumeric. *)
Definition spec_name (n : string) : bool :=
  (1 <=? String.length n)%nat && (String.length n <=? 63)%nat
  && holds alnum (first_char n) && holds alnum (last_char n)
  && all_chars name_char n.

(** A key: at most 253 characters, a name, or a prefix and a name around
    the only slash. *)
Definition spec_qualified_name (key : string) : bool :=
  (String.length key <=? 253)%nat &&
  match split "/" key with
  | [name] => spec_name name
  | [prefix; name] => spec_dns1123_subdomain prefix && spec_name name
  | _ => false
  end.

(** The words of a regular expression. *)
Inductive lang : Re.re → string → Prop :=
| lang_eps : lang Re.Eps EmptyString
| lang_class p c : p c = true → lang (Re.Class p) (String c EmptyString)
| lang_cat r1 r2 s1 s2 :
    lang r1 s1 → lang r2 s2 → lang (Re.Cat r1 r2) (s1 +:+ s2)
| lang_alt_l r1 r2 s : lang r1 s → lang (Re.Alt r1 r2) s
| lang_alt_r r1 r2 s : lang r2 s → lang (Re.Alt r1 r2) s
| lang_star_nil r : lang (Re.Star r) EmptyString
| lang_star_cons r s1 s2 :
    lang r s1 → lang (Re.Star r) s2 → lang (Re.Star r) (s1 +:+ s2).

(** A configuration as [ensure_loadbalancer_service] builds it: the fixed IP
    is unset or a non-empty text. *)
Definition validated (cfg : ServiceConfig.t) : Prop :=
  ServiceConfig.fixed_ip cfg ≠ Some EmptyString.

(** The two messages of the CSV branch of [parse_selector]. *)
Definition selector_format_error : Exn :=
  ConfigError "selector must be in 'key=value' format (comma-separated) or JSON object".
Definition selector_pair_error : Exn :=
  ConfigError "selector contains an empty key or value".

(** The line feed. *)
Definition LF : ascii := "010"%char.

Definition annotation_format_error : Exn :=
  ConfigError "loadbalancer-annotations must be in 'key=value' format (comma-separated)".





(** What [ensure_loadbalancer_service] does once the object is built. *)
Definition create_or_replace `{Lightkube Σ} (c : Client) (svc : Service.t) : Api Σ unit :=
  try_except_ApiError (call c (Create svc))
    (λ st,
       if negb (bool_decide (code st = Some 409)) then lift (raise (ApiError st))
       else call c (Replace svc)).

(** Every object of the reference cluster is named after the field manager
    that wrote it, and is the object of that application's most recent
    successful [Reconcile]. *)
Definition consistent `{IpAddress} (w : World Cluster) (history : list Event) : Prop :=
  ∀ ns name st, objects (cluster w) !! (ns, name) = Some st →
    name = manager st +:+ "-lb"
    ∧ last_reconciled (Σ := Cluster) ns (manager st) history = Some (obj st).

(** A call, the configuration it validates to and the object it asks
    for, to run the model on. *)
Definition sample_args : Args.t :=
  Args.mk "myapp" "ns1" {[ "app" := "myapp" ]} 8080 80 None None.

Definition sample_service : Service.t :=
  Service.mk
    (ObjectMeta.mk "myapp-lb" "ns1" {[ "app.kubernetes.io/name" := "myapp-lb" ]} None)
    (ServiceSpec.mk "LoadBalancer" None {[ "app" := "myapp" ]}
       [ServicePort.mk 80 8080 "TCP" "lb"]).


Definition sample_config : ServiceConfig.t :=
  ServiceConfig.mk "myapp-lb" "ns1" {[ "app" := "myapp" ]} 8080 80 ∅ None.

(** ** The charm

    [src/charm.py]: the class [CharmK8SLoadbalancerCharm] observes four
    events of the operator framework and reconciles or deletes the Service.

    - The options are typed as the unit tests set them: [selector],
      [loadbalancer-annotations] and [fixed-ip] hold a [str], [target-port]
      and [lb-port] an [int]; on these [str(...)] and [int(...)] return
      their argument.  An option that is unset and has no default is absent
      from [self.config].
    - [self.unit.is_leader()] and the assignments to [self.unit.status] are
      taken to succeed; the statuses assigned are recorded in order. *)

(** The statuses of [ops.model] that the charm assigns. *)
Inductive UnitStatus : Type :=
| ActiveStatus (text : string)
| BlockedStatus (text : string)
| MaintenanceStatus (text : string)
| WaitingStatus (text : string).

(** [self.config] *)
Module Config.
Record t : Type := mk {
  selector : option string;
  target_port : option Z;
  lb_port : option Z;
  loadbalancer_annotations : option string;
  fixed_ip : option string
}.
End Config.

(** What a handler reads of the unit it runs on: [self.unit.is_leader()],
    [self.config], [self.app.name] and [self.model.name]. *)
Module Unit.
Record t : Type := mk {
  is_leader : bool;
  config : Config.t;
  app_name : string;
  model_name : string
}.
End Unit.

(** What a handler changes: the cluster, with the record of the requests,
    and the statuses assigned to the unit so far, the latest last. *)
Record CharmState (Σ : Type) : Type := {
  world : World Σ;
  statuses : list UnitStatus
}.
Arguments world {Σ} _.
Arguments statuses {Σ} _.

(** [self.unit.status = s] *)
Definition set_status {Σ} (s : UnitStatus) (st : CharmState Σ) : CharmState Σ :=
  {| world := world st; statuses := statuses st ++ [s] |}.

(** [str(e)] of an exception: the message of a [ConfigError], the
    [status.message] that lightkube gives an [ApiError], the text carried
    otherwise. *)
Definition exn_str (e : Exn) : string :=
  match e with
  | ConfigError msg => msg
  | ApiError st => message st
  | JSONDecodeError msg => msg
  | OtherError msg => msg
  end.

(** [self.config[name]]: a [KeyError], whose text is the [repr] of the
    name, when the option is absent. *)
Definition config_item {A} (name : string) (value : option A) : Exn + A :=
  match value with
  | Some v => inr v
  | None => raise (OtherError (repr name))
  end.

(** The body of the [try] of [_on_reconcile]. *)
Definition reconcile_body `{Lightkube Σ, IpAddress, JsonDecoder} (u : Unit.t)
  : Api Σ unit :=
  let config := Unit.config u in
  selector ← lift (raw ← config_item "selector" (Config.selector config);
                   parse_selector (Some raw));
  target_port ← lift (config_item "target-port" (Config.target_port config));
  lb_port ← lift (config_item "lb-port" (Config.lb_port config));
  annotations ← lift (parse_annotations
    (Some (default EmptyString (Config.loadbalancer_annotations config))));
  let fixed_ip := default EmptyString (Config.fixed_ip config) in
  ensure_loadbalancer_service (Unit.app_name u) (Unit.model_name u) selector
    target_port lb_port (Some annotations) (Some fixed_ip).

Definition _on_reconcile `{Lightkube Σ, IpAddress, JsonDecoder} (u : Unit.t)
    (st : CharmState Σ) : CharmState Σ :=
  if negb (Unit.is_leader u) then
    set_status (WaitingStatus "waiting for leader to reconcile load balancer") st
  else
    let st := set_status (MaintenanceStatus "reconciling kubernetes service") st in
    match reconcile_body u (world st) with
    | (inl (ConfigError msg), w) =>
        set_status (BlockedStatus msg) {| world := w; statuses := statuses st |}
    | (inl e, w) =>
        set_status (BlockedStatus ("failed to reconcile service: " +:+ exn_str e))
          {| world := w; statuses := statuses st |}
    | (inr _, w) =>
        set_status (ActiveStatus "load balancer service ready")
          {| world := w; statuses := statuses st |}
    end.

Definition _on_remove `{Lightkube Σ} (u : Unit.t) (st : CharmState Σ)
  : CharmState Σ :=
  if negb (Unit.is_leader u) then st
  else
    {| world := (delete_loadbalancer_service (Unit.app_name u) (Unit.model_name u)
                   (world st)).2;
       statuses := statuses st |}.

(** The events of the framework: the four that [__init__] observes, and
    any other. *)
Inductive HookEvent : Type :=
| install
| config_changed
| upgrade_charm
| remove
| other_event (name : string).

(** [CharmK8SLoadbalancerCharm.__init__] registers [_on_reconcile] for
    [install], [config_changed] and [upgrade_charm], and [_on_remove] for
    [remove]; the framework calls the handler registered for the event. *)
Definition CharmK8SLoadbalancerCharm `{Lightkube Σ, IpAddress, JsonDecoder}
    (u : Unit.t) (ev : HookEvent) (st : CharmState Σ) : CharmState Σ :=
  match ev with
  | install | config_changed | upgrade_charm => _on_reconcile u st
  | remove => _on_remove u st
  | other_event _ => st
  end.

(** The hooks of a deployment run in order, each on the unit as it is when
    the event fires. *)
Fixpoint run_hooks `{Lightkube Σ, IpAddress, JsonDecoder}
    (hooks : list (HookEvent * Unit.t)) (st : CharmState Σ) : CharmState Σ :=
  match hooks with
  | [] => st
  | (ev, u) :: hooks => run_hooks hooks (CharmK8SLoadbalancerCharm u ev st)
  end.

(** The arguments [_on_reconcile] passes on, for a configuration that parses:
    the parsed selector and annotations, the two ports and the raw address. *)
Definition hook_args (u : Unit.t) (selector annotations : gmap string string)
    (target_port lb_port : Z) : Args.t :=
  Args.mk (Unit.app_name u) (Unit.model_name u) selector target_port lb_port
    (Some annotations)
    (Some (default EmptyString (Config.fixed_ip (Unit.config u)))).

(** The handlers [__init__] registers for an event. *)
Definition reconciles (ev : HookEvent) : bool :=
  match ev with
  | install | config_changed | upgrade_charm => true
  | _ => false
  end.

(** ** Vocabulary of the further properties *)

(** A segment of an annotation text: blank, or a key that
    [_is_valid_annotation_key] accepts and a value, which may be empty,
    around an equals sign, each with white space around it. *)
Definition wf_annotation (seg : Segment) : bool :=
  match seg with
  | Blank ws => blank ws
  | Pair l1 key l2 r1 value r2 =>
      blank l1 && blank l2 && blank r1 && blank r2
      && _is_valid_annotation_key key && trimmed key
      && trimmed value && negb (contains "," value)
  end.

(** The characters of a key that [_is_valid_annotation_key] accepts. *)
Definition key_char (c : ascii) : bool :=
  name_char c || is_char "/" c || is_char LF c.

(** The object a request is about: its namespace and its name. *)
Definition target (r : Request) : string * string :=
  match r with
  | Create svc | Replace svc => key_of svc
  | Delete name namespace => (namespace, name)
  end.

(** A request for the Service of the application the client is made for. *)
Definition own_request (cr : Client * Request) : Prop :=
  target cr.2 = (client_namespace cr.1, field_manager cr.1 +:+ "-lb").

(** The three statuses [_on_reconcile] assigns whatever the configuration
    is. *)
Definition waiting : UnitStatus :=
  WaitingStatus "waiting for leader to reconcile load balancer".
Definition maintenance : UnitStatus :=
  MaintenanceStatus "reconciling kubernetes service".
Definition ready : UnitStatus := ActiveStatus "load balancer service ready".

(** The configuration of the unit [u] parses to the arguments [a] of
    [ensure_loadbalancer_service]: the selector and the two ports are set,
    and the selector and the annotations parse. *)
Definition parses `{JsonDecoder} (u : Unit.t) (a : Args.t) : Prop :=
  ∃ raw selector target_port lb_port annotations,
    Config.selector (Unit.config u) = Some raw
    ∧ parse_selector (Some raw) = inr selector
    ∧ Config.target_port (Unit.config u) = Some target_port
    ∧ Config.lb_port (Unit.config u) = Some lb_port
    ∧ parse_annotations
        (Some (default EmptyString
                 (Config.loadbalancer_annotations (Unit.config u))))
      = inr annotations
    ∧ a = hook_args u selector annotations target_port lb_port.

(** The call a hook makes on the module: a leader's [install],
    [config_changed] or [upgrade_charm] with a configuration that parses is a
    [Reconcile], a leader's [remove] is a [Remove]. *)
Definition hook_calls `{JsonDecoder} (h : HookEvent * Unit.t) (op : Op) : Prop :=
  Unit.is_leader h.2 = true
  ∧ match op with
    | Reconcile a => reconciles h.1 = true ∧ parses h.2 a
    | Remove app_name namespace =>
        h.1 = remove ∧ app_name = Unit.app_name h.2
        ∧ namespace = Unit.model_name h.2
    end.

(** The object an entry point is about. *)
Definition op_key (op : Op) : string * string :=
  match op with
  | Reconcile a => (Args.namespace a, Args.app_name a +:+ "-lb")
  | Remove app_name namespace => (namespace, app_name +:+ "-lb")
  end.

(** A machine without the lightkube package: the imports fail, and no
    request is ever served. *)
Definition no_lightkube : Lightkube unit :=
  {| lightkube_installed := false; request := λ _ _ σ, (None, σ) |}.

(** Units to run the charm on: the leader of the unit tests, a unit that is
    not the leader, and a leader whose selector is not set. *)
Definition sample_unit : Unit.t :=
  Unit.mk true (Config.mk (Some "app=myapp") (Some 8080) (Some 80) None None)
    "myapp" "ns1".

Definition sample_follower : Unit.t :=
  Unit.mk false (Config.mk (Some "app=myapp") (Some 8080) (Some 80) None None)
    "myapp" "ns1".

Definition sample_unset : Unit.t :=
  Unit.mk true (Config.mk None (Some 8080) (Some 80) None None) "myapp" "ns1".

(** The arguments the configuration of [sample_unit] parses to. *)
Definition sample_hook_args : Args.t :=
  hook_args sample_unit {[ "app" := "myapp" ]} ∅ 8080 80.

(** A cluster with nothing in it, no failure scheduled, and no status
    assigned yet. *)
Definition fresh : CharmState Cluster := {| world := initial []; statuses := [] |}.

(** * Facts about the model *)

(** ** Strings *)

Lemma append_cons c s t : String c s +:+ t = String c (s +:+ t).
Proof. reflexivity. Qed.

Lemma append_nil_r s : s +:+ EmptyString = s.
Proof. induction s as [|c s IH]; [done|]. by rewrite append_cons, IH. Qed.

Lemma append_assoc s t u : (s +:+ t) +:+ u = s +:+ (t +:+ u).
Proof. induction s as [|c s IH]; [done|]. by rewrite !append_cons, IH. Qed.

Lemma is_empty_true s : is_empty s = true ↔ s = EmptyString.
Proof. by destruct s. Qed.

Lemma is_empty_false s : is_empty s = false ↔ s ≠ EmptyString.
Proof. by destruct s. Qed.

Section string_facts.
Implicit Types (s t u : string) (c : ascii) (p : ascii → bool).

Lemma all_chars_app p s t :
  all_chars p (s +:+ t) = all_chars p s && all_chars p t.
Proof.
  induction s as [|c s IH]; [done|].
  rewrite append_cons. simpl. by rewrite IH, andb_assoc.
Qed.

Lemma first_char_app s t : s ≠ EmptyString → first_char (s +:+ t) = first_char s.
Proof. by destruct s. Qed.

Lemma last_char_cons c s : s ≠ EmptyString → last_char (String c s) = last_char s.
Proof. by destruct s. Qed.

Lemma last_char_app s t : t ≠ EmptyString → last_char (s +:+ t) = last_char t.
Proof.
  intros Ht. induction s as [|c s IH]; [done|].
  rewrite append_cons, last_char_cons; [done|]. by destruct s, t.
Qed.

Lemma contains_app c s t : contains c (s +:+ t) = contains c s || contains c t.
Proof.
  induction s as [|d s IH]; [done|].
  rewrite append_cons. simpl. by rewrite IH, orb_assoc.
Qed.

Lemma contains_all_chars c p s :
  all_chars p s = true → p c = false → contains c s = false.
Proof.
  intros Hs Hc. induction s as [|d s IH]; [done|]. simpl in *.
  apply andb_prop in Hs as [Hd Hs]. rewrite (IH Hs), orb_false_r.
  destruct (Ascii.eqb_spec c d) as [->|]; congruence.
Qed.

Lemma lstrip_by_app_blank p ws s :
  all_chars p ws = true → lstrip_by p (ws +:+ s) = lstrip_by p s.
Proof.
  induction ws as [|c ws IH]; [done|]. simpl. intros [Hc Hws]%andb_prop.
  rewrite Hc. auto.
Qed.

Lemma lstrip_by_id p s : holds p (first_char s) = false → lstrip_by p s = s.
Proof. destruct s as [|c s]; [done|]. simpl. by intros ->. Qed.

Lemma lstrip_by_blank p s : all_chars p s = true → lstrip_by p s = EmptyString.
Proof.
  induction s as [|c s IH]; [done|]. simpl. intros [-> Hs]%andb_prop. auto.
Qed.

Lemma lstrip_by_first p s : holds p (first_char (lstrip_by p s)) = false.
Proof.
  induction s as [|c s IH]; [done|]. simpl.
  destruct (p c) eqn:Hc; [done|]. simpl. done.
Qed.

Lemma rstrip_by_cons p c s :
  rstrip_by p (String c s) =
    if is_empty (rstrip_by p s) && p c then EmptyString
    else String c (rstrip_by p s).
Proof. simpl. destruct (rstrip_by p s); [|done]. simpl. by destruct (p c). Qed.

Lemma rstrip_by_blank p s : all_chars p s = true → rstrip_by p s = EmptyString.
Proof.
  induction s as [|c s IH]; [done|]. intros [Hc Hs]%andb_prop.
  rewrite rstrip_by_cons, (IH Hs), Hc. done.
Qed.

Lemma rstrip_by_nil p s : rstrip_by p s = EmptyString → all_chars p s = true.
Proof.
  induction s as [|c s IH]; [done|]. rewrite rstrip_by_cons.
  destruct (is_empty (rstrip_by p s)) eqn:He, (p c) eqn:Hc; simpl; try done.
  intros _. apply is_empty_true in He. rewrite Hc. auto.
Qed.

Lemma rstrip_by_app_blank p s ws :
  all_chars p ws = true → rstrip_by p (s +:+ ws) = rstrip_by p s.
Proof.
  intros Hws. induction s as [|c s IH].
  - by apply rstrip_by_blank.
  - by rewrite append_cons, !rstrip_by_cons, IH.
Qed.

Lemma rstrip_by_id p s : holds p (last_char s) = false → rstrip_by p s = s.
Proof.
  induction s as [|c s IH]; [done|]. rewrite rstrip_by_cons.
  destruct s as [|d s].
  - simpl. by intros ->.
  - intros Hl. rewrite IH by done. done.
Qed.

Lemma rstrip_by_last p s : holds p (last_char (rstrip_by p s)) = false.
Proof.
  induction s as [|c s IH]; [done|]. rewrite rstrip_by_cons.
  destruct (rstrip_by p s) as [|d u] eqn:E; simpl.
  - by destruct (p c) eqn:Hc; simpl.
  - exact IH.
Qed.

Lemma rstrip_by_first p s :
  rstrip_by p s = EmptyString ∨ first_char (rstrip_by p s) = first_char s.
Proof.
  destruct s as [|c s]; [by left|]. rewrite rstrip_by_cons.
  destruct (_ && _); [by left|by right].
Qed.

Lemma strip_blank s : blank s = true → strip s = EmptyString.
Proof. intros Hs. unfold strip. by rewrite (lstrip_by_blank _ _ Hs). Qed.

Lemma strip_trimmed s : trimmed (strip s) = true.
Proof.
  unfold trimmed, strip. rewrite rstrip_by_last.
  destruct (rstrip_by_first isspace (lstrip_by isspace s)) as [->| ->]; [done|].
  by rewrite lstrip_by_first.
Qed.

Lemma trimmed_inv s :
  trimmed s = true →
  holds isspace (first_char s) = false ∧ holds isspace (last_char s) = false.
Proof.
  unfold trimmed. intros [H1 H2]%andb_prop.
  split; by apply negb_true_iff.
Qed.

Lemma strip_id s : trimmed s = true → strip s = s.
Proof.
  intros [H1 H2]%trimmed_inv. unfold strip.
  by rewrite lstrip_by_id, rstrip_by_id.
Qed.

Lemma strip_pad l m r :
  blank l = true → blank r = true → trimmed m = true →
  strip (l +:+ m +:+ r) = m.
Proof.
  intros Hl Hr [H1 H2]%trimmed_inv. unfold strip.
  rewrite lstrip_by_app_blank by done.
  destruct m as [|c m].
  - by rewrite lstrip_by_blank.
  - rewrite lstrip_by_id by done.
    rewrite rstrip_by_app_blank by done. by apply rstrip_by_id.
Qed.

End string_facts.

Section split_facts.
#[local] Arguments rstrip_by : simpl never.
Implicit Types (s t u : string) (c sep : ascii) (p : ascii → bool).

Lemma split_nonempty sep s : split sep s ≠ [].
Proof.
  destruct s as [|c s]; [done|]. simpl.
  destruct (Ascii.eqb sep c); [done|]. by destruct (split sep s).
Qed.

Lemma split_cons_eq sep s : split sep (String sep s) = EmptyString :: split sep s.
Proof. simpl. by rewrite Ascii.eqb_refl. Qed.

Lemma split_no_sep sep s : contains sep s = false → split sep s = [s].
Proof.
  induction s as [|c s IH]; [done|]. simpl.
  intros [Hc Hs]%orb_false_elim. by rewrite Hc, (IH Hs).
Qed.

Lemma split_app sep s t :
  contains sep s = false → split sep (s +:+ String sep t) = s :: split sep t.
Proof.
  induction s as [|c s IH].
  - intros _. apply split_cons_eq.
  - simpl. intros [Hc Hs]%orb_false_elim. by rewrite Hc, (IH Hs).
Qed.

Lemma split_join sep l :
  l ≠ [] → Forall (λ s, contains sep s = false) l →
  split sep (join (String sep EmptyString) l) = l.
Proof.
  induction l as [|s l IH]; [done|]. intros _ [Hs Hl]%Forall_cons.
  destruct l as [|t l].
  - simpl. by apply split_no_sep.
  - change (join (String sep EmptyString) (s :: t :: l))
      with (s +:+ String sep (join (String sep EmptyString) (t :: l))).
    rewrite split_app by done. by rewrite IH.
Qed.

Lemma split_parts sep s : Forall (λ t, contains sep t = false) (split sep s).
Proof.
  induction s as [|c s IH]; [by repeat constructor|]. simpl.
  destruct (Ascii.eqb sep c) eqn:Hc; [by constructor|].
  destruct (split sep s) as [|h r]; [by repeat constructor; simpl; rewrite Hc|].
  apply Forall_cons in IH as [Hh Hr]. constructor; [|done]. simpl. by rewrite Hc.
Qed.

Lemma join_split sep s : join (String sep EmptyString) (split sep s) = s.
Proof.
  induction s as [|c s IH]; [done|]. simpl.
  destruct (Ascii.eqb_spec sep c) as [->|Hc].
  - pose proof (split_nonempty c s). destruct (split c s) as [|h r]; [done|].
    change (join (String c EmptyString) (EmptyString :: h :: r))
      with (String c (join (String c EmptyString) (h :: r))).
    by rewrite IH.
  - pose proof (split_nonempty sep s). destruct (split sep s) as [|h r]; [done|].
    rewrite <- IH. by destruct r.
Qed.

Lemma split1_found sep s :
  contains sep s = true →
  ∃ a b, split1 sep s = [a; b] ∧ s = a +:+ String sep b ∧ contains sep a = false.
Proof.
  induction s as [|c s IH]; [done|]. simpl.
  destruct (Ascii.eqb_spec sep c) as [->|Hc]; simpl.
  - intros _. by exists EmptyString, s.
  - intros (a & b & -> & -> & Ha)%IH. exists (String c a), b.
    split_and!; [done..|]. simpl. rewrite Ha.
    by destruct (Ascii.eqb_spec sep c).
Qed.

Lemma split1_app sep a b :
  contains sep a = false → split1 sep (a +:+ String sep b) = [a; b].
Proof.
  induction a as [|c a IH]; simpl.
  - intros _. by rewrite Ascii.eqb_refl.
  - intros [Hc Ha]%orb_false_elim. by rewrite Hc, (IH Ha).
Qed.

Lemma lstrip_by_cons p c s :
  lstrip_by p (String c s) = if p c then lstrip_by p s else String c s.
Proof. done. Qed.

Lemma lstrip_rstrip p s :
  lstrip_by p (rstrip_by p s) = rstrip_by p (lstrip_by p s).
Proof.
  induction s as [|c s IH]; [done|].
  rewrite rstrip_by_cons, (lstrip_by_cons p c s).
  destruct (p c) eqn:Hc.
  - rewrite andb_true_r. destruct (is_empty (rstrip_by p s)) eqn:He.
    + apply is_empty_true in He. by rewrite <- IH, He.
    + by rewrite lstrip_by_cons, Hc.
  - by rewrite andb_false_r, lstrip_by_cons, Hc, rstrip_by_cons, Hc, andb_false_r.
Qed.

Lemma strip_lstrip s : strip (lstrip_by isspace s) = strip s.
Proof.
  unfold strip. f_equal. apply lstrip_by_id, lstrip_by_first.
Qed.

Lemma strip_rstrip s : strip (rstrip_by isspace s) = strip s.
Proof.
  unfold strip. rewrite lstrip_rstrip. apply rstrip_by_id, rstrip_by_last.
Qed.

Lemma contains_rstrip sep p s :
  contains sep s = false → contains sep (rstrip_by p s) = false.
Proof.
  induction s as [|c s IH]; [done|]. rewrite rstrip_by_cons. simpl.
  intros [Hc Hs]%orb_false_elim. destruct (_ && _); [done|]. simpl.
  by rewrite Hc, IH.
Qed.

Lemma split_lstrip sep p s :
  p sep = false →
  ∃ h r, split sep s = h :: r ∧ split sep (lstrip_by p s) = lstrip_by p h :: r.
Proof.
  intros Hsep. induction s as [|c s (h & r & Hs & IH)]; [by exists EmptyString, []|].
  simpl. destruct (Ascii.eqb_spec sep c) as [->|Hc].
  - rewrite Hsep. exists EmptyString, (h :: r). rewrite Hs.
    split; [done|]. by rewrite split_cons_eq, Hs.
  - rewrite Hs. exists (String c h), r. split; [done|]. simpl.
    destruct (p c); [done|]. simpl.
    destruct (Ascii.eqb_spec sep c); [done|]. by rewrite Hs.
Qed.

Lemma split_rstrip sep p s :
  p sep = false →
  ∃ l h, split sep s = l ++ [h] ∧ split sep (rstrip_by p s) = l ++ [rstrip_by p h].
Proof.
  intros Hsep. induction s as [|c s (l & h & Hs & IH)]; [by exists [], EmptyString|].
  rewrite rstrip_by_cons. destruct (Ascii.eqb_spec sep c) as [<-|Hc].
  - rewrite Hsep, andb_false_r, !split_cons_eq, Hs, IH.
    by exists (EmptyString :: l), h.
  - destruct l as [|h0 l].
    + (* no separator in [s] *)
      simpl in Hs, IH.
      assert (contains sep s = false) as Hno.
      { pose proof (split_parts sep s) as Hp. rewrite Hs in Hp.
        apply Forall_cons in Hp as [Hh _].
        pose proof (join_split sep s) as Hj. rewrite Hs in Hj. simpl in Hj.
        by subst. }
      assert (s = h) as <-.
      { rewrite split_no_sep in Hs by done. by simplify_eq. }
      exists [], (String c s). simpl app. split.
      * apply split_no_sep. simpl. rewrite Hno.
        by destruct (Ascii.eqb_spec sep c).
      * rewrite <- rstrip_by_cons. apply split_no_sep, contains_rstrip.
        simpl. rewrite Hno. by destruct (Ascii.eqb_spec sep c).
    + assert (is_empty (rstrip_by p s) = false) as ->.
      { destruct (rstrip_by p s); [|done]. simpl in IH. by destruct l. }
      simpl andb. cbv iota.
      exists (String c h0 :: l), h. split.
      * simpl. destruct (Ascii.eqb_spec sep c); [done|]. by rewrite Hs.
      * simpl. destruct (Ascii.eqb_spec sep c); [done|]. by rewrite IH.
Qed.

Lemma strip_split sep s :
  isspace sep = false →
  strip <$> split sep (strip s) = strip <$> split sep s.
Proof.
  intros Hsep. unfold strip at 2.
  destruct (split_lstrip sep isspace s Hsep) as (h & r & Hs & Hl).
  destruct (split_rstrip sep isspace (lstrip_by isspace s) Hsep) as (l & h' & Hs' & Hr).
  rewrite Hr, Hs, fmap_app. simpl. rewrite strip_rstrip.
  change [strip h'] with (strip <$> [h']). rewrite <- fmap_app, <- Hs', Hl.
  simpl. by rewrite strip_lstrip.
Qed.

End split_facts.

Section selector_facts.
#[local] Arguments rstrip_by : simpl never.
#[local] Arguments strip : simpl never.
Implicit Types (parts : list string) (result : gmap string string).


Lemma parse_selector_loop_ext parts parts' result :
  strip <$> parts = strip <$> parts' →
  parse_selector_loop parts result = parse_selector_loop parts' result.
Proof.
  revert parts' result. induction parts as [|part parts IH]; intros [|part' parts'] result;
    try done.
  intros [= Hp Hps]. simpl. rewrite Hp.
  destruct (is_empty (strip part')); [by apply IH|].
  destruct (contains "=" (strip part')); simpl; [|done].
  destruct (split1 "=" (strip part')) as [|key [|value [|]]]; try done.
  destruct (_ || _); [done|]. by apply IH.
Qed.

Lemma segment_ok_split1 part :
  selector_segment_ok part ↔
  ∃ key value, contains "=" part = true ∧ split1 "=" part = [key; value]
    ∧ strip key ≠ EmptyString ∧ strip value ≠ EmptyString.
Proof.
  split.
  - intros (key & value & -> & Hk & Hkey & Hvalue). exists key, value.
    split_and!; [|by apply split1_app|done..].
    rewrite contains_app. simpl. by rewrite orb_true_r.
  - intros (key & value & Hc & Hs & Hkey & Hvalue).
    destruct (split1_found _ _ Hc) as (a & b & Hs' & -> & Ha).
    rewrite Hs' in Hs. simplify_eq. by exists key, value.
Qed.

Lemma segment_ok_dec part : selector_segment_ok part ∨ ¬ selector_segment_ok part.
Proof.
  rewrite segment_ok_split1.
  destruct (contains "=" part) eqn:Hc; [|right; by intros (? & ? & ? & _)].
  destruct (split1_found _ _ Hc) as (key & value & Hs & _ & _).
  destruct (decide (strip key = EmptyString)) as [Hk|Hk];
    [right; intros (? & ? & _ & ? & ? & _); congruence|].
  destruct (decide (strip value = EmptyString)) as [Hv|Hv];
    [right; intros (? & ? & _ & ? & _ & ?); congruence|].
  left. by exists key, value.
Qed.

Lemma parse_selector_loop_blank part parts result :
  strip part = EmptyString →
  parse_selector_loop (part :: parts) result = parse_selector_loop parts result.
Proof. intros Hp. simpl. by rewrite Hp. Qed.

Lemma parse_selector_loop_ok part parts result :
  selector_segment_ok (strip part) →
  ∃ key value, strip part = key +:+ String "=" value ∧ contains "=" key = false
    ∧ strip key ≠ EmptyString ∧ strip value ≠ EmptyString
    ∧ parse_selector_loop (part :: parts) result
      = parse_selector_loop parts (<[strip key := strip value]> result).
Proof.
  intros (key & value & Hp & Hk & Hkey & Hvalue). exists key, value.
  split_and!; try done. simpl. rewrite Hp.
  assert (is_empty (key +:+ String "=" value) = false) as ->.
  { by destruct key. }
  rewrite contains_app, split1_app by done. simpl.
  rewrite orb_true_r. simpl.
  apply is_empty_false in Hkey, Hvalue. by rewrite Hkey, Hvalue.
Qed.

Lemma parse_selector_loop_bad part parts result :
  strip part ≠ EmptyString → ¬ selector_segment_ok (strip part) →
  parse_selector_loop (part :: parts) result =
    inl (if contains "=" (strip part) then selector_pair_error
         else selector_format_error).
Proof.
  intros Hne Hbad. simpl. apply is_empty_false in Hne. rewrite Hne.
  destruct (contains "=" (strip part)) eqn:Hc; simpl; [|done].
  destruct (split1_found _ _ Hc) as (key & value & Hs & Hp & _). rewrite Hs.
  destruct (is_empty (strip key) || is_empty (strip value)) eqn:He; [done|].
  apply orb_false_elim in He as [?%is_empty_false ?%is_empty_false].
  destruct Hbad. apply segment_ok_split1. by exists key, value.
Qed.

Lemma parse_selector_loop_good good parts result :
  Forall (λ part, strip part = EmptyString ∨ selector_segment_ok (strip part)) good →
  ∃ result',
    parse_selector_loop (good ++ parts) result = parse_selector_loop parts result'.
Proof.
  intros Hgood. revert result. induction Hgood as [|part good [Hp|Hp] _ IH]; intros result.
  - by exists result.
  - destruct (IH result) as [r' Hr]. exists r'.
    by rewrite <- app_comm_cons, parse_selector_loop_blank.
  - rewrite <- app_comm_cons.
    destruct (parse_selector_loop_ok part (good ++ parts) result Hp)
      as (key & value & _ & _ & _ & _ & ->). apply IH.
Qed.

Lemma parse_selector_loop_inr parts result m :
  parse_selector_loop parts result = inr m →
  Forall (λ part, strip part ≠ EmptyString → selector_segment_ok (strip part)) parts.
Proof.
  revert result. induction parts as [|part parts IH]; intros result; [by constructor|].
  intros Hm. destruct (decide (strip part = EmptyString)) as [Hp|Hp].
  - rewrite parse_selector_loop_blank in Hm by done.
    constructor; [done|by eapply IH].
  - destruct (segment_ok_dec (strip part)) as [Hok|Hbad].
    + destruct (parse_selector_loop_ok part parts result Hok)
        as (key & value & _ & _ & _ & _ & Hl). rewrite Hl in Hm.
      constructor; [done|by eapply IH].
    + rewrite parse_selector_loop_bad in Hm by done. done.
Qed.
End selector_facts.

Section csv_facts.
#[local] Arguments rstrip_by : simpl never.
#[local] Arguments strip : simpl never.

Lemma parse_selector_loop_step part parts result key value :
  strip part = key +:+ String "=" value → contains "=" key = false →
  strip key ≠ EmptyString → strip value ≠ EmptyString →
  parse_selector_loop (part :: parts) result
  = parse_selector_loop parts (<[strip key := strip value]> result).
Proof.
  intros Hp Hk Hkey Hvalue.
  destruct (parse_selector_loop_ok part parts result) as (k & v & Hp' & Hk' & _ & _ & ->).
  { by exists key, value. }
  rewrite Hp in Hp'.
  assert (split1 "=" (key +:+ String "=" value) = [k; v]) as Hs
    by (rewrite Hp'; by apply split1_app).
  rewrite split1_app in Hs by done. by simplify_eq.
Qed.

Lemma blank_no_char c ws : isspace c = false → blank ws = true → contains c ws = false.
Proof. intros ??. by eapply contains_all_chars. Qed.

Lemma render_pair l1 key l2 r1 value r2 :
  render (Pair l1 key l2 r1 value r2)
  = l1 +:+ (key +:+ l2 +:+ String "=" (r1 +:+ value)) +:+ r2.
Proof.
  unfold render.
  by rewrite !append_assoc, (append_cons "=" (r1 +:+ value) r2), append_assoc.
Qed.

Lemma wf_pair_inv l1 key l2 r1 value r2 :
  wf_segment (Pair l1 key l2 r1 value r2) = true →
  (blank l1 = true ∧ blank l2 = true ∧ blank r1 = true ∧ blank r2 = true)
  ∧ (key ≠ EmptyString ∧ trimmed key = true
     ∧ contains "=" key = false ∧ contains "," key = false)
  ∧ (value ≠ EmptyString ∧ trimmed value = true ∧ contains "," value = false).
Proof.
  simpl. rewrite !andb_true_iff, !negb_true_iff, !is_empty_false. tauto.
Qed.

Lemma render_no_comma seg :
  wf_segment seg = true → contains "," (render seg) = false.
Proof.
  destruct seg as [ws|l1 key l2 r1 value r2].
  - by apply blank_no_char.
  - intros ((?&?&?&?) & (?&?&?&Hk) & (?&?&Hv))%wf_pair_inv.
    unfold render. rewrite !contains_app.
    rewrite (blank_no_char "," l1), (blank_no_char "," l2),
      (blank_no_char "," r1), (blank_no_char "," r2) by done.
    by rewrite Hk, Hv.
Qed.

Lemma strip_pad_r m r :
  blank r = true → trimmed m = true → strip (m +:+ r) = m.
Proof. intros. by apply (strip_pad EmptyString). Qed.

Lemma strip_pad_l l m :
  blank l = true → trimmed m = true → strip (l +:+ m) = m.
Proof.
  intros. rewrite <- (append_nil_r m) at 1. by apply strip_pad.
Qed.

Lemma strip_render_pair l1 key l2 r1 value r2 :
  wf_segment (Pair l1 key l2 r1 value r2) = true →
  strip (render (Pair l1 key l2 r1 value r2))
  = (key +:+ l2) +:+ String "=" (r1 +:+ value).
Proof.
  intros ((?&?&?&?) & (?&[Hk1 Hk2]%trimmed_inv&?&?) & (?&[Hv1 Hv2]%trimmed_inv&?))%wf_pair_inv.
  rewrite render_pair, (append_assoc key l2). apply strip_pad; [done..|].
  unfold trimmed. rewrite first_char_app by done.
  rewrite last_char_app by (by destruct l2).
  rewrite last_char_app by done.
  rewrite last_char_cons by (by destruct r1, value).
  rewrite last_char_app by done. by rewrite Hk1, Hv2.
Qed.

Lemma parse_selector_loop_segments segs result :
  Forall (λ seg, wf_segment seg = true) segs →
  parse_selector_loop (render <$> segs) result
  = inr (foldl (λ m kv, <[kv.1 := kv.2]> m) result (omap pair_of segs)).
Proof.
  intros Hwf. revert result.
  induction Hwf as [|[ws|l1 key l2 r1 value r2] segs Hseg _ IH]; intros result; [done|..].
  - rewrite fmap_cons, parse_selector_loop_blank by (by apply strip_blank). apply IH.
  - pose proof Hseg as ((?&?&?&?) & (?&?&?&?) & (?&?&?))%wf_pair_inv.
    rewrite fmap_cons.
    rewrite (parse_selector_loop_step _ _ _ (key +:+ l2) (r1 +:+ value)).
    + rewrite (strip_pad_r key l2) by done.
      rewrite (strip_pad_l r1 value) by done. apply IH.
    + by apply strip_render_pair.
    + rewrite contains_app, (blank_no_char "=" l2) by done. by rewrite orb_false_r.
    + by rewrite (strip_pad_r key l2).
    + by rewrite (strip_pad_l r1 value).
Qed.

Lemma foldl_insert_list_to_map (pairs : list (string * string)) (result : gmap string string) :
  foldl (λ m kv, <[kv.1 := kv.2]> m) result pairs
  = list_to_map (reverse pairs) ∪ result.
Proof.
  revert result. induction pairs as [|[k v] pairs IH]; intros result; simpl.
  - by rewrite (left_id_L ∅ (∪)).
  - rewrite IH, reverse_cons, list_to_map_app. simpl.
    rewrite insert_empty, <- (assoc_L (∪)). by rewrite <- insert_union_singleton_l.
Qed.

Lemma list_to_map_reverse_nonempty (pairs : list (string * string)) :
  pairs ≠ [] → (list_to_map (reverse pairs) : gmap string string) ≠ ∅.
Proof.
  intros Hp. destruct (reverse pairs) as [|[k v] l] eqn:E.
  - apply (f_equal reverse) in E. rewrite reverse_involutive in E. done.
  - simpl. apply insert_non_empty.
Qed.

Lemma parse_selector_csv `{JsonDecoder} segs :
  Forall (λ seg, wf_segment seg = true) segs →
  startswith "{" (strip (csv segs)) = false →
  parse_selector (Some (csv segs)) =
    if decide (omap pair_of segs = []) then
      inl (ConfigError "selector must not be empty")
    else inr (list_to_map (reverse (omap pair_of segs))).
Proof.
  intros Hwf Hjson.
  assert (parse_selector_loop (split "," (strip (csv segs))) ∅
          = inr (list_to_map (reverse (omap pair_of segs)))) as Hloop.
  { destruct segs as [|seg segs].
    { done. }
    rewrite (parse_selector_loop_ext _ (render <$> seg :: segs)).
    - rewrite parse_selector_loop_segments, foldl_insert_list_to_map by done.
      by rewrite (right_id_L ∅ (∪)).
    - rewrite strip_split by done. unfold csv. rewrite split_join; [done|done|].
      apply Forall_fmap. eapply Forall_impl; [exact Hwf|].
      intros s. apply render_no_comma. }
  unfold parse_selector. rewrite Hjson.
  destruct (is_empty (strip (csv segs))) eqn:He.
  - apply is_empty_true in He. rewrite He in Hloop. simpl in Hloop.
    injection Hloop as Hloop. destruct (decide _) as [|Hne]; [done|].
    by apply list_to_map_reverse_nonempty in Hne.
  - rewrite Hloop. simpl. destruct (decide (omap pair_of segs = [])) as [->|Hne].
    + done.
    + apply list_to_map_reverse_nonempty in Hne. by destruct (decide _).
Qed.
End csv_facts.

Section regex_facts.
Import Re.
Implicit Types (r : re) (s t : string) (c : ascii).

Lemma append_eq_nil s t : s +:+ t = EmptyString → s = EmptyString ∧ t = EmptyString.
Proof. by destruct s. Qed.

Lemma nullable_lang r : nullable r = true ↔ lang r EmptyString.
Proof.
  split.
  - induction r as [| |p|r1 IH1 r2 IH2|r1 IH1 r2 IH2|r1 IH1]; simpl.
    + done.
    + intros _. constructor.
    + done.
    + intros [H1 H2]%andb_prop.
      apply (lang_cat r1 r2 EmptyString EmptyString); auto.
    + intros [H1|H2]%orb_prop; [apply lang_alt_l|apply lang_alt_r]; auto.
    + intros _. constructor.
  - intros H. remember EmptyString as s eqn:Hs.
    induction H as [|p c Hc|r1 r2 s1 s2 _ IH1 _ IH2|r1 r2 s _ IH|r1 r2 s _ IH|r1
                   |r1 s1 s2 _ _ _ _]; simpl.
    + done.
    + done.
    + apply append_eq_nil in Hs as [-> ->]. by rewrite IH1, IH2.
    + by rewrite IH.
    + rewrite IH by done. apply orb_true_r.
    + done.
    + done.
Qed.

Lemma deriv_sound c r s : lang (deriv c r) s → lang r (String c s).
Proof.
  revert s. induction r as [| |p|r1 IH1 r2 IH2|r1 IH1 r2 IH2|r1 IH1]; intros s; simpl.
  - inversion 1.
  - inversion 1.
  - destruct (p c) eqn:Hc; inversion 1; subst. by constructor.
  - destruct (nullable r1) eqn:Hn.
    + inversion 1 as [| | | ? ? ? Hl | ? ? ? Hr | |]; subst.
      * inversion Hl as [| |? ? s1 s2 H1 H2| | | |]; subst.
        change (String c (s1 +:+ s2)) with (String c s1 +:+ s2).
        constructor; auto.
      * change (String c s) with (EmptyString +:+ String c s).
        constructor; [by apply nullable_lang|auto].
    + inversion 1 as [| |? ? s1 s2 H1 H2| | | |]; subst.
      change (String c (s1 +:+ s2)) with (String c s1 +:+ s2).
      constructor; auto.
  - inversion 1; subst; [apply lang_alt_l|apply lang_alt_r]; auto.
  - inversion 1 as [| |? ? s1 s2 H1 H2| | | |]; subst.
    change (String c (s1 +:+ s2)) with (String c s1 +:+ s2).
    constructor; auto.
Qed.

Lemma deriv_complete c r s : lang r (String c s) → lang (deriv c r) s.
Proof.
  intros H. remember (String c s) as cs eqn:Hcs. revert s Hcs.
  induction H as [|p d Hd|r1 r2 s1 s2 H1 IH1 H2 IH2|r1 r2 u _ IH|r1 r2 u _ IH|r1
                 |r1 s1 s2 H1 IH1 H2 IH2]; intros s Hcs; simpl; try done.
  - injection Hcs as -> <-. rewrite Hd. constructor.
  - destruct s1 as [|d s1].
    + change (s2 = String c s) in Hcs. subst s2. apply nullable_lang in H1.
      rewrite H1. apply lang_alt_r. auto.
    + change (String d (s1 +:+ s2) = String c s) in Hcs. injection Hcs as -> <-.
      destruct (nullable r1); [apply lang_alt_l|]; constructor; auto.
  - apply lang_alt_l. auto.
  - apply lang_alt_r. auto.
  - destruct s1 as [|d s1].
    + change (s2 = String c s) in Hcs. auto.
    + change (String d (s1 +:+ s2) = String c s) in Hcs. injection Hcs as -> <-.
      constructor; auto.
Qed.

Lemma fullmatch_lang r s : fullmatch r s = true ↔ lang r s.
Proof.
  revert r. induction s as [|c s IH]; intros r; simpl.
  - apply nullable_lang.
  - rewrite IH. split; [apply deriv_sound|apply deriv_complete].
Qed.

Lemma lang_star_class p s : lang (Star (Class p)) s ↔ all_chars p s = true.
Proof.
  split.
  - intros H. remember (Star (Class p)) as r eqn:Hr.
    induction H as [| | | | |r1|r1 s1 s2 H1 _ _ IH2]; try done.
    injection Hr as ->. inversion H1 as [|? c Hc| | | | |]; subst.
    rewrite all_chars_app, IH2 by done. simpl. by rewrite Hc.
  - induction s as [|c s IH]; simpl.
    + intros _. constructor.
    + intros [Hc Hs]%andb_prop.
      change (String c s) with (String c EmptyString +:+ s).
      constructor; [by constructor|auto].
Qed.

Lemma string_snoc s :
  s ≠ EmptyString → ∃ m y, s = m +:+ String y EmptyString ∧ last_char s = Some y.
Proof.
  induction s as [|c s IH]; [done|]. intros _. destruct s as [|d s].
  - by exists EmptyString, c.
  - destruct IH as (m & y & Hm & Hy); [done|]. exists (String c m), y.
    split; [by rewrite Hm|]. by rewrite last_char_cons.
Qed.

(** Words of [a(c*a)?] when the class [a] lies in the class [c]. *)
Lemma lang_edges (a cl : ascii → bool) s :
  (∀ x, a x = true → cl x = true) →
  lang (Cat (Class a) (Opt (Cat (Star (Class cl)) (Class a)))) s ↔
  holds a (first_char s) && holds a (last_char s) && all_chars cl s = true.
Proof.
  intros Hsub. split.
  - inversion 1 as [| |? ? s1 s2 H1 H2| | | |]; subst.
    inversion H1 as [|? x Hx| | | | |]; subst.
    change (String x EmptyString +:+ s2) with (String x s2).
    assert (holds a (last_char (String x s2)) && all_chars cl s2 = true) as Hrest.
    { inversion H2 as [| | |? ? ? Hl|? ? ? Hr| |]; subst.
      - inversion Hl as [| |? ? m e Hm He| | | |]; subst.
        inversion He as [|? y Hy| | | | |]; subst.
        apply lang_star_class in Hm.
        rewrite last_char_cons by (by destruct m).
        rewrite last_char_app, all_chars_app, Hm by done. simpl.
        by rewrite Hy, (Hsub _ Hy).
      - inversion Hr; subst. simpl. by rewrite Hx. }
    apply andb_prop in Hrest as [Hl Hr].
    rewrite Hl. simpl. by rewrite Hx, (Hsub _ Hx), Hr.
  - destruct s as [|x t]; [done|]. simpl.
    intros [[Hx Hy]%andb_prop [_ Ht]%andb_prop]%andb_prop.
    change (String x t) with (String x EmptyString +:+ t).
    constructor; [by constructor|].
    destruct t as [|d t]; [apply lang_alt_r; constructor|].
    apply lang_alt_l.
    destruct (string_snoc (String d t)) as (m & y & Hm & Hl); [done|].
    rewrite Hl in Hy. rewrite Hm in Ht |- *.
    rewrite all_chars_app in Ht. apply andb_prop in Ht as [Hm' _].
    constructor; [by apply lang_star_class|by constructor].
Qed.
End regex_facts.

Section key_facts.
Import Re.
Implicit Types (s t : string) (c : ascii).


Lemma lower_alnum_dash x : lower_alnum x = true → is_char "-" x || lower_alnum x = true.
Proof. intros ->. apply orb_true_r. Qed.

Lemma alnum_name_char x : alnum x = true → name_char x = true.
Proof. unfold name_char. intros ->. by rewrite orb_true_r. Qed.

Lemma fullmatch_label l : fullmatch dns1123_label l = spec_dns1123_label l.
Proof.
  apply eq_true_iff_eq. rewrite fullmatch_lang. unfold dns1123_label.
  rewrite lang_edges by apply lower_alnum_dash. done.
Qed.

Lemma fullmatch_qualified_name n :
  fullmatch _QUALIFIED_NAME_PATTERN n
  = holds alnum (first_char n) && holds alnum (last_char n) && all_chars name_char n.
Proof.
  apply eq_true_iff_eq. rewrite fullmatch_lang. unfold _QUALIFIED_NAME_PATTERN.
  rewrite lang_edges by apply alnum_name_char. done.
Qed.

Lemma label_no_dot l : spec_dns1123_label l = true → contains "." l = false.
Proof.
  unfold spec_dns1123_label. intros [_ Hl]%andb_prop.
  by eapply contains_all_chars.
Qed.

Lemma lang_subdomain_tail t :
  lang (Star (Cat (Class (is_char ".")) dns1123_label)) t →
  ∀ l, spec_dns1123_label l = true →
    forallb spec_dns1123_label (split "." (l +:+ t)) = true.
Proof.
  intros H. remember (Star (Cat (Class (is_char ".")) dns1123_label)) as r eqn:Hr.
  induction H as [| | | | |r1|r1 s1 s2 H1 _ _ IH2]; try done.
  - intros l Hl. rewrite append_nil_r, split_no_sep by by apply label_no_dot.
    simpl. by rewrite Hl.
  - injection Hr as ->. intros l Hl.
    inversion H1 as [| |? ? d l1 Hd Hl1| | | |]; subst.
    inversion Hd as [|? x Hx| | | | |]; subst.
    apply Ascii.eqb_eq in Hx as <-.
    change ((String "." EmptyString +:+ l1) +:+ s2) with (String "." (l1 +:+ s2)).
    rewrite split_app by by apply label_no_dot. simpl. rewrite Hl. simpl.
    apply IH2; [done|]. rewrite <- fullmatch_label. by apply fullmatch_lang.
Qed.

Lemma lang_subdomain_join l ls :
  Forall (λ l, spec_dns1123_label l = true) ls →
  ∃ t, join "." (l :: ls) = l +:+ t
    ∧ lang (Star (Cat (Class (is_char ".")) dns1123_label)) t.
Proof.
  intros Hls. revert l. induction Hls as [|l1 ls Hl1 _ IH]; intros l.
  - exists EmptyString. split; [by rewrite append_nil_r|constructor].
  - destruct (IH l1) as (t & Ht & Hlang).
    exists ((String "." EmptyString +:+ l1) +:+ t). split.
    + change (join "." (l :: l1 :: ls)) with (l +:+ "." +:+ join "." (l1 :: ls)).
      rewrite Ht. by rewrite <- !append_assoc.
    + constructor; [|done]. constructor; [by constructor|].
      apply fullmatch_lang. by rewrite fullmatch_label.
Qed.

Lemma fullmatch_subdomain p :
  fullmatch _DNS1123_SUBDOMAIN_PATTERN p = spec_dns1123_subdomain p.
Proof.
  apply eq_true_iff_eq. rewrite fullmatch_lang.
  unfold _DNS1123_SUBDOMAIN_PATTERN, spec_dns1123_subdomain. split.
  - inversion 1 as [| |? ? l t Hl Ht| | | |]; subst.
    apply lang_subdomain_tail; [done|].
    rewrite <- fullmatch_label. by apply fullmatch_lang.
  - intros Hall. rewrite <- (join_split "." p).
    pose proof (split_nonempty "." p) as Hne.
    destruct (split "." p) as [|l ls]; [done|]. simpl in Hall.
    apply andb_prop in Hall as [Hl Hls].
    destruct (lang_subdomain_join l ls) as (t & -> & Ht).
    { apply Forall_forall. intros x Hx. rewrite forallb_forall in Hls.
      apply Hls. by apply list_elem_of_In. }
    constructor; [|done]. apply fullmatch_lang. by rewrite fullmatch_label.
Qed.










End key_facts.

Section annotation_facts.
#[local] Arguments rstrip_by : simpl never.
#[local] Arguments strip : simpl never.
#[local] Arguments _is_valid_annotation_key : simpl never.
Implicit Types (pairs : list string) (result m : gmap string string).


Lemma parse_annotations_loop_step p pairs result key value :
  p = key +:+ String "=" value → contains "=" key = false →
  parse_annotations_loop (p :: pairs) result =
    if _is_valid_annotation_key (strip key) then
      parse_annotations_loop pairs (<[strip key := strip value]> result)
    else inl (ConfigError ("invalid annotation key: " +:+ repr (strip key))).
Proof.
  intros -> Hk. simpl.
  rewrite contains_app, split1_app by done. simpl. rewrite orb_true_r. simpl.
  by destruct (_is_valid_annotation_key (strip key)).
Qed.

Lemma parse_annotations_loop_no_eq p pairs result :
  contains "=" p = false →
  parse_annotations_loop (p :: pairs) result = inl annotation_format_error.
Proof. intros Hp. simpl. by rewrite Hp. Qed.



Lemma parse_annotations_loop_trimmed pairs result m :
  parse_annotations_loop pairs result = inr m →
  map_Forall (λ k v, trimmed k = true ∧ trimmed v = true) result →
  map_Forall (λ k v, trimmed k = true ∧ trimmed v = true) m.
Proof.
  revert result. induction pairs as [|p pairs IH]; intros result Hm Hres.
  - by injection Hm as <-.
  - destruct (contains "=" p) eqn:Hp.
    + destruct (split1_found _ _ Hp) as (key & value & _ & Hkv & Hk).
      rewrite (parse_annotations_loop_step p pairs result key value) in Hm by done.
      destruct (_is_valid_annotation_key (strip key)) eqn:Hv; [|done].
      apply (IH _ Hm). apply map_Forall_insert_2; [|done].
      split; apply strip_trimmed.
    + by rewrite parse_annotations_loop_no_eq in Hm.
Qed.

Lemma rstrip_by_decomp p s :
  ∃ t, s = rstrip_by p s +:+ t ∧ all_chars p t = true.
Proof.
  induction s as [|c s (t & Hs & Ht)]; [by exists EmptyString|].
  rewrite rstrip_by_cons. destruct (is_empty (rstrip_by p s)) eqn:He, (p c) eqn:Hc; simpl.
  - exists (String c s). split; [done|]. simpl. rewrite Hc.
    apply is_empty_true in He. rewrite He in Hs. by rewrite Hs.
  - exists t. split; [|done]. by rewrite append_cons, <- Hs.
  - exists t. split; [|done]. by rewrite append_cons, <- Hs.
  - exists t. split; [|done]. by rewrite append_cons, <- Hs.
Qed.


End annotation_facts.

Section api_facts.
Context {Σ : Type} `{!Lightkube Σ, !IpAddress}.
Implicit Types (w : World Σ) (a : Args.t).


Lemma build_service_installed cfg svc :
  _build_service (Σ := Σ) cfg = inr svc → lightkube_installed (Σ := Σ) = true.
Proof. unfold _build_service. by destruct lightkube_installed. Qed.

Lemma reconcile_unfold a w :
  reconcile a w =
    match desired (Σ := Σ) a with
    | inl e => (inl e, w)
    | inr svc => create_or_replace (client_of a) svc w
    end.
Proof.
  unfold reconcile, ensure_loadbalancer_service, desired, validated_config.
  destruct a as [app ns sel tp lp ann fip]; simpl.
  destruct (is_empty app); [done|]. destruct (is_empty ns); [done|].
  destruct (decide (sel = ∅)); [done|].
  unfold mbind, api_bind, exn_bind, lift.
  destruct (_validate_port "target-port" tp) as [e|tp']; [done|].
  destruct (_validate_port "lb-port" lp) as [e|lp']; [done|].
  destruct (parse_fixed_ip fip) as [e|fip']; [done|]. simpl.
  destruct (_build_service _) as [e|svc] eqn:Hsvc; [done|].
  by rewrite (build_service_installed _ _ Hsvc).
Qed.

Lemma create_or_replace_unfold c svc w :
  create_or_replace c svc w =
    let '(res, σ1) := request c (Create svc) (cluster w) in
    let w1 := {| cluster := σ1; calls := calls w ++ [(c, Create svc)] |} in
    match res with
    | None => (inr tt, w1)
    | Some (ApiError st) =>
        if bool_decide (code st = Some 409) then call c (Replace svc) w1
        else (inl (ApiError st), w1)
    | Some e => (inl e, w1)
    end.
Proof.
  unfold create_or_replace, try_except_ApiError, call at 1.
  destruct (request c (Create svc) (cluster w)) as [[[msg|st|msg|msg]|] σ1]; try done.
  by destruct (bool_decide _).
Qed.

Lemma delete_unfold app ns w :
  lightkube_installed (Σ := Σ) = true →
  delete_loadbalancer_service app ns w =
    let c := {| client_namespace := ns; field_manager := app |} in
    let '(res, σ1) := request c (Delete (app +:+ "-lb") ns) (cluster w) in
    let w1 := {| cluster := σ1;
                 calls := calls w ++ [(c, Delete (app +:+ "-lb") ns)] |} in
    match res with
    | None => (inr tt, w1)
    | Some (ApiError st) =>
        if bool_decide (code st = Some 404) then (inr tt, w1)
        else (inl (ApiError st), w1)
    | Some e => (inl e, w1)
    end.
Proof.
  intros Hi. unfold delete_loadbalancer_service. rewrite Hi. simpl.
  unfold try_except_ApiError, call.
  destruct (request _ _ (cluster w)) as [[[msg|st|msg|msg]|] σ1]; try done.
  by destruct (bool_decide _).
Qed.

Lemma validate_port_ok name v :
  1 ≤ v ≤ 65535 → _validate_port name v = inr v.
Proof.
  intros Hv. unfold _validate_port.
  by rewrite (proj2 (Z.leb_le _ _)), (proj2 (Z.leb_le _ _)) by lia.
Qed.

Lemma validate_port_bad name v :
  ¬ (1 ≤ v ≤ 65535) →
  _validate_port name v = inl (ConfigError (name +:+ " must be between 1 and 65535")).
Proof.
  intros Hv. unfold _validate_port.
  destruct (1 <=? v) eqn:H1, (v <=? 65535) eqn:H2; try done.
  apply Z.leb_le in H1, H2. lia.
Qed.

Lemma validated_config_error a e :
  validated_config a = inl e → ∃ msg, e = ConfigError msg.
Proof.
  unfold validated_config.
  destruct (is_empty _); [intros [= <-]; by eexists|].
  destruct (is_empty _); [intros [= <-]; by eexists|].
  destruct (decide _); [intros [= <-]; by eexists|].
  unfold _validate_port, parse_fixed_ip, mbind, exn_bind.
  destruct (negb _); [intros [= <-]; by eexists|].
  destruct (negb _); [intros [= <-]; by eexists|].
  destruct (Args.fixed_ip a) as [text|]; [|done].
  destruct (is_empty _); [done|].
  destruct (ip_address _); [done|]. intros [= <-]; by eexists.
Qed.
End api_facts.

Section cluster_facts.
Context `{!IpAddress}.
Implicit Types (w : World Cluster) (a : Args.t) (history : list Event).


Lemma length_append s t :
  String.length (s +:+ t) = (String.length s + String.length t)%nat.
Proof. induction s as [|c s IH]; [done|]. rewrite append_cons. simpl. by rewrite IH. Qed.

Lemma append_inj_l s s' t : s +:+ t = s' +:+ t → s = s'.
Proof.
  revert s'. induction s as [|c s IH]; intros [|c' s'] Heq; try done.
  - apply (f_equal String.length) in Heq.
    rewrite !length_append in Heq. simpl in Heq. lia.
  - apply (f_equal String.length) in Heq.
    rewrite !length_append in Heq. simpl in Heq. lia.
  - rewrite !append_cons in Heq. injection Heq as -> Heq. f_equal. by apply IH.
Qed.

Lemma desired_key a svc :
  desired (Σ := Cluster) a = inr svc →
  key_of svc = (Args.namespace a, Args.app_name a +:+ "-lb").
Proof.
  unfold desired, validated_config.
  destruct (is_empty _); [done|]. destruct (is_empty _); [done|].
  destruct (decide _); [done|]. unfold mbind, exn_bind.
  destruct (_validate_port _ _); [done|]. destruct (_validate_port _ _); [done|].
  destruct (parse_fixed_ip _); [done|]. simpl. by intros [= <-].
Qed.

Lemma reference_request c r σ :
  request c r σ =
    match faults σ with
    | Some e :: rest => (Some e, {| objects := objects σ; faults := rest |})
    | rest =>
        let '(res, objs) := serve c r (objects σ) in
        (res, {| objects := objs; faults := tail rest |})
    end.
Proof. done. Qed.

Lemma reference_request_objects c r σ :
  let '(res, σ') := request c r σ in
  (∃ e, res = Some e ∧ objects σ' = objects σ)
  ∨ (res, objects σ') = serve c r (objects σ).
Proof.
  rewrite reference_request.
  destruct (serve c r (objects σ)) as [res objs] eqn:Hs.
  destruct (faults σ) as [|[e|] rest]; simpl.
  - by right.
  - left. by exists e.
  - by right.
Qed.

Lemma serve_failure c r objs e objs' :
  serve c r objs = (Some e, objs') → objs' = objs.
Proof.
  destruct r as [svc|svc|name ns]; simpl; destruct (objs !! _); naive_solver.
Qed.

Lemma reference_reconcile a w :
  match reconcile a w with
  | (inr _, w') =>
      ∃ svc, desired (Σ := Cluster) a = inr svc
        ∧ objects (cluster w') =
            <[key_of svc := {| obj := svc; manager := Args.app_name a |}]>
              (objects (cluster w))
  | (inl _, w') => objects (cluster w') = objects (cluster w)
  end.
Proof.
  rewrite reconcile_unfold. destruct (desired a) as [e|svc] eqn:Hd; [done|].
  rewrite create_or_replace_unfold.
  pose proof (reference_request_objects (client_of a) (Create svc) (cluster w)) as H1.
  destruct (request (client_of a) (Create svc) (cluster w)) as [res1 σ1].
  set (w1 := {| cluster := σ1; calls := _ |}).
  assert (∀ e, res1 = Some e → objects σ1 = objects (cluster w)) as Hfail.
  { intros e ->. destruct H1 as [(? & _ & ?)|H1]; [done|].
    symmetry in H1. by apply serve_failure in H1. }
  destruct res1 as [[msg|st|msg|msg]|]; simpl.
  - by eapply Hfail.
  - destruct (bool_decide _); [|by eapply Hfail].
    unfold call.
    pose proof (reference_request_objects (client_of a) (Replace svc) (cluster w1)) as H2.
    destruct (request (client_of a) (Replace svc) (cluster w1)) as [res2 σ2].
    change (cluster w1) with σ1 in H2. rewrite (Hfail _ eq_refl) in H2.
    destruct res2 as [e2|]; simpl.
    + destruct H2 as [(? & _ & ?)|H2]; [done|].
      symmetry in H2. by apply serve_failure in H2.
    + exists svc. split; [done|].
      destruct H2 as [(? & ? & _)|H2]; [done|]. simpl in H2.
      destruct (objects (cluster w) !! key_of svc); by simplify_eq.
  - by eapply Hfail.
  - by eapply Hfail.
  - exists svc. split; [done|].
    destruct H1 as [(? & ? & _)|H1]; [done|]. simpl in H1.
    destruct (objects (cluster w) !! key_of svc); by simplify_eq.
Qed.

Lemma reference_remove app ns w :
  match delete_loadbalancer_service app ns w with
  | (res, w') =>
      objects (cluster w') = objects (cluster w)
      ∨ (res = inr tt
         ∧ objects (cluster w') = delete (ns, app +:+ "-lb") (objects (cluster w)))
  end.
Proof.
  rewrite delete_unfold by done.
  set (c := {| client_namespace := ns; field_manager := app |}).
  pose proof (reference_request_objects c (Delete (app +:+ "-lb") ns) (cluster w)) as H1.
  cbv zeta.
  destruct (request c (Delete (app +:+ "-lb") ns) (cluster w)) as [res1 σ1].
  assert (∀ e, res1 = Some e → objects σ1 = objects (cluster w)) as Hfail.
  { intros e ->. destruct H1 as [(? & _ & ?)|H1]; [done|].
    symmetry in H1. by apply serve_failure in H1. }
  destruct res1 as [[msg|st|msg|msg]|]; simpl.
  - left. by eapply Hfail.
  - destruct (bool_decide _); left; by eapply Hfail.
  - left. by eapply Hfail.
  - left. by eapply Hfail.
  - right. split; [done|].
    destruct H1 as [(? & ? & _)|H1]; [done|]. simpl in H1.
    destruct (objects (cluster w) !! (ns, app +:+ "-lb")); by simplify_eq.
Qed.

Lemma consistent_step op w history :
  consistent w history →
  consistent (run_op op w).2 ({| ev_op := op; ev_result := (run_op op w).1 |} :: history).
Proof.
  intros Hc. destruct op as [a|app ns]; simpl run_op.
  - pose proof (reference_reconcile a w) as Hr.
    destruct (reconcile a w) as [[e|[]] w']; simpl.
    + intros ns name st Hst. rewrite Hr in Hst. by apply Hc.
    + destruct Hr as (svc & Hd & Hobjs). pose proof (desired_key a svc Hd) as Hkey.
      intros ns name st. rewrite Hobjs, Hkey.
      destruct (decide ((Args.namespace a, Args.app_name a +:+ "-lb") = (ns, name)))
        as [[= <- <-]|Hne].
      * rewrite lookup_insert_eq. intros [= <-]. simpl. split; [done|].
        destruct (decide _) as [_|Hn]; [by rewrite Hd|by destruct Hn].
      * rewrite lookup_insert_ne by done. intros Hst.
        destruct (Hc _ _ _ Hst) as [-> Hl]. split; [done|].
        simpl. destruct (decide _) as [[<- Happ]|_]; [|done].
        destruct Hne. by rewrite Happ.
  - pose proof (reference_remove app ns w) as Hr.
    destruct (delete_loadbalancer_service app ns w) as [res w']; simpl.
    intros ns' name st Hst.
    assert (objects (cluster w) !! (ns', name) = Some st) as Hst'.
    { destruct Hr as [Hr|[_ Hr]]; rewrite Hr in Hst; [done|].
      by apply lookup_delete_Some in Hst as [_ ?]. }
    destruct (Hc _ _ _ Hst') as [-> Hl]. split; [done|].
    by destruct res.
Qed.

Lemma run_ops_consistent ops w history :
  consistent w history →
  consistent (run_ops ops w history).1 (run_ops ops w history).2.
Proof.
  revert w history. induction ops as [|op ops IH]; intros w history Hc; [done|].
  simpl. pose proof (consistent_step op w history Hc) as Hs.
  destruct (run_op op w) as [res w']. by apply IH.
Qed.
End cluster_facts.

Section more_facts.
#[local] Arguments rstrip_by : simpl never.
#[local] Arguments strip : simpl never.

Lemma list_to_map_reverse_lookup (pairs : list (string * string)) k v :
  (list_to_map (reverse pairs) : gmap string string) !! k = Some v ↔
  ∃ l1 l2, pairs = l1 ++ (k, v) :: l2 ∧ k ∉ l2.*1.
Proof.
  revert v. induction pairs as [|[k' v'] pairs IH] using rev_ind; intros v.
  - split; [done|]. intros (l1 & l2 & Hl & _). by destruct l1.
  - rewrite reverse_app. simpl. destruct (decide (k' = k)) as [->|Hne].
    + rewrite lookup_insert_eq. split.
      * intros [= ->]. exists pairs, []. split; [done|]. apply not_elem_of_nil.
      * intros (l1 & l2 & Hl & Hk).
        destruct l2 as [|p l2 _] using rev_ind.
        { apply app_inj_tail in Hl as [_ ?]. by simplify_eq. }
        rewrite app_comm_cons, app_assoc in Hl.
        apply app_inj_tail in Hl as [_ ?]. subst p.
        destruct Hk. rewrite fmap_app. apply elem_of_app. right. simpl. left.
    + rewrite lookup_insert_ne by done. rewrite IH. split.
      * intros (l1 & l2 & -> & Hk). exists l1, (l2 ++ [(k', v')]).
        split; [by rewrite <- app_assoc|].
        rewrite fmap_app. intros [?|Hin]%elem_of_app; [done|].
        simpl in Hin. apply list_elem_of_singleton in Hin. done.
      * intros (l1 & l2 & Hl & Hk).
        destruct l2 as [|p l2 _] using rev_ind.
        { apply app_inj_tail in Hl as [_ ?]. by simplify_eq. }
        rewrite app_comm_cons, app_assoc in Hl.
        apply app_inj_tail in Hl as [-> ?]. subst p.
        exists l1, l2. split; [done|].
        intros Hin. apply Hk. rewrite fmap_app. apply elem_of_app. by left.
Qed.

Lemma parse_selector_csv_branch `{!JsonDecoder} raw :
  is_empty (strip raw) = false → startswith "{" (strip raw) = false →
  parse_selector (Some raw) =
    match parse_selector_loop (split "," (strip raw)) ∅ with
    | inl e => inl e
    | inr result =>
        if decide (result = ∅) then inl (ConfigError "selector must not be empty")
        else inr result
    end.
Proof. intros He Hj. unfold parse_selector. rewrite He, Hj. done. Qed.

Lemma parse_selector_blank `{!JsonDecoder} raw :
  blank raw = true →
  parse_selector (Some raw) = inl (ConfigError "selector must not be empty").
Proof. intros Hb. unfold parse_selector. by rewrite strip_blank. Qed.

Lemma parse_selector_empty_object `{!JsonDecoder} raw :
  startswith "{" (strip raw) = true → json_loads (strip raw) = inr (JDict ∅) →
  parse_selector (Some raw) = inl (ConfigError "selector must not be empty").
Proof.
  intros Hj Hl. unfold parse_selector. rewrite Hj, Hl.
  destruct (strip raw); [done|]. simpl. by rewrite map_to_list_empty.
Qed.

Lemma parse_selector_loop_nonempty parts result m :
  parse_selector_loop parts result = inr m →
  map_Forall (λ k v, k ≠ EmptyString ∧ v ≠ EmptyString) result →
  map_Forall (λ k v, k ≠ EmptyString ∧ v ≠ EmptyString) m.
Proof.
  revert result. induction parts as [|part parts IH]; intros result Hm Hres.
  - by injection Hm as <-.
  - destruct (decide (strip part = EmptyString)) as [Hp|Hp].
    { rewrite parse_selector_loop_blank in Hm by done. by eapply IH. }
    destruct (segment_ok_dec (strip part)) as [Hok|Hbad].
    + destruct (parse_selector_loop_ok part parts result Hok)
        as (key & value & _ & _ & Hk & Hv & Hl). rewrite Hl in Hm.
      apply (IH _ Hm). by apply map_Forall_insert_2.
    + by rewrite parse_selector_loop_bad in Hm.
Qed.

Lemma parse_selector_loop_all_good parts result :
  Forall (λ part, strip part = EmptyString ∨ selector_segment_ok (strip part)) parts →
  ∃ m, parse_selector_loop parts result = inr m
    ∧ (result ≠ ∅ ∨ Exists (λ part, strip part ≠ EmptyString) parts → m ≠ ∅).
Proof.
  intros Hparts. revert result.
  induction Hparts as [|part parts [Hp|Hp] _ IH]; intros result.
  - exists result. split; [done|]. intros [?|Hex]; [done|]. by inversion Hex.
  - rewrite parse_selector_loop_blank by done.
    destruct (IH result) as (m & -> & Hm). exists m. split; [done|].
    intros [?|Hex]; [by apply Hm; left|]. apply Hm.
    inversion Hex as [|]; subst; [done|by right].
  - destruct (parse_selector_loop_ok part parts result Hp)
      as (key & value & _ & _ & _ & _ & ->).
    destruct (IH (<[strip key := strip value]> result)) as (m & -> & Hm).
    exists m. split; [done|]. intros _. apply Hm. left. apply insert_non_empty.
Qed.

Lemma omap_as_str_nonempty (parsed : gmap string json) :
  forallb (λ kv, is_str kv.2) (map_to_list parsed) = true → parsed ≠ ∅ →
  omap as_str parsed ≠ ∅.
Proof.
  intros Hall Hne Hempty. apply map_choose in Hne as (k & v & Hk).
  rewrite forallb_forall in Hall.
  assert (is_str v = true) as Hv.
  { apply (Hall (k, v)). apply list_elem_of_In. by apply elem_of_map_to_list. }
  assert (omap as_str parsed !! k = None) as Hl by (by rewrite Hempty).
  rewrite lookup_omap, Hk in Hl. by destruct v.
Qed.

Lemma parse_selector_inr `{!JsonDecoder} raw m :
  parse_selector raw = inr m →
  m ≠ ∅
  ∧ ∀ text, raw = Some text → startswith "{" (strip text) = false →
      map_Forall (λ k v, k ≠ EmptyString ∧ v ≠ EmptyString) m.
Proof.
  destruct raw as [text|]; [|done]. unfold parse_selector.
  destruct (is_empty (strip text)); [done|].
  destruct (startswith "{" (strip text)) eqn:Hj.
  - destruct (json_loads (strip text)) as [[]|[]]; try done.
    destruct (negb _) eqn:Hall; [done|]. apply negb_false_iff in Hall.
    destruct (decide _) as [|Hne]; [done|]. intros [= <-].
    split; [by apply omap_as_str_nonempty|]. intros ? [= <-] ?. congruence.
  - destruct (parse_selector_loop _ ∅) as [e|result] eqn:Hl; [done|]. simpl.
    destruct (decide _) as [|Hne]; [done|]. intros [= <-]. split; [done|].
    intros ? _ _. eapply parse_selector_loop_nonempty; [exact Hl|].
    apply map_Forall_empty.
Qed.
End more_facts.

(** ** The keys that [_is_valid_annotation_key] accepts *)

Section key_shape_facts.
#[local] Arguments rstrip_by : simpl never.
#[local] Arguments strip : simpl never.
#[local] Arguments _is_valid_annotation_key : simpl never.
Import Re.

Lemma all_chars_impl (p q : ascii → bool) s :
  (∀ c, p c = true → q c = true) → all_chars p s = true → all_chars q s = true.
Proof.
  intros Hpq. induction s as [|c s IH]; [done|]. simpl.
  intros [Hc Hs]%andb_true_iff. by rewrite (Hpq c Hc), IH.
Qed.

Lemma all_chars_join p sep l :
  all_chars p sep = true → Forall (λ s, all_chars p s = true) l →
  all_chars p (join sep l) = true.
Proof.
  intros Hsep. induction 1 as [|s l Hs Hl IH]; [done|].
  destruct l as [|s' l]; [done|].
  change (join sep (s :: s' :: l)) with (s +:+ sep +:+ join sep (s' :: l)).
  by rewrite !all_chars_app, Hs, Hsep, IH.
Qed.

Lemma chop_newline_some s t :
  chop_newline s = Some t → s = t +:+ String LF EmptyString.
Proof.
  revert t. induction s as [|c s IH]; intros t; [done|].
  destruct s as [|d s].
  - simpl. destruct (Ascii.eqb_spec c "010"); [|done]. by intros [= <-]; subst.
  - change (chop_newline (String c (String d s)))
      with (String c <$> chop_newline (String d s)).
    destruct (chop_newline (String d s)) as [t'|]; [|done].
    intros [= <-]. by rewrite (IH t' eq_refl).
Qed.

Lemma length_split sep s : length (split sep s) = S (count_char sep s).
Proof.
  induction s as [|c s IH]; [done|]. simpl.
  destruct (Ascii.eqb sep c); simpl; [by rewrite IH|].
  destruct (split sep s); [done|]. simpl in *. lia.
Qed.

Lemma holds_nonempty p s : holds p (first_char s) = true → s ≠ EmptyString.
Proof. by destruct s. Qed.

Lemma name_key_char c : name_char c = true → key_char c = true.
Proof. unfold key_char. by intros ->. Qed.

(** The characters and the first character of a text that matches a
    pattern, when the words of the pattern have them. *)
Lemma match_chars r (a : ascii → bool) s :
  (∀ t, fullmatch r t = true →
     holds a (first_char t) = true ∧ all_chars name_char t = true) →
  match_ r s = true →
  holds a (first_char s) = true ∧ all_chars key_char s = true.
Proof.
  intros Hr [Hm|Hm]%orb_true_iff.
  - destruct (Hr s Hm) as [Hf Ha]. split; [done|].
    eapply all_chars_impl; [apply name_key_char|done].
  - destruct (chop_newline s) as [t|] eqn:Hc; [|done].
    apply chop_newline_some in Hc as ->. destruct (Hr t Hm) as [Hf Ha].
    rewrite first_char_app by (by eapply holds_nonempty).
    split; [done|]. rewrite all_chars_app.
    rewrite (all_chars_impl name_char key_char t name_key_char Ha). done.
Qed.

Lemma name_part_chars name :
  valid_name_part name = true →
  name ≠ EmptyString ∧ (String.length name ≤ 63)%nat
  ∧ holds alnum (first_char name) = true ∧ all_chars key_char name = true.
Proof.
  unfold valid_name_part.
  destruct (is_empty name) eqn:He; [done|].
  destruct (63 <? String.length name)%nat eqn:Hl; [done|].
  destruct (match_ _ name) eqn:Hm; [|done]. intros _.
  apply is_empty_false in He. apply Nat.ltb_ge in Hl. split_and!; [done..| |].
  all: eapply (match_chars _QUALIFIED_NAME_PATTERN alnum name); [|done|..]; try done.
  all: intros t Ht; rewrite fullmatch_qualified_name in Ht.
  all: by apply andb_true_iff in Ht as [[? _]%andb_true_iff ?].
Qed.

Lemma label_chars l :
  spec_dns1123_label l = true →
  holds alnum (first_char l) = true ∧ all_chars name_char l = true.
Proof.
  unfold spec_dns1123_label.
  intros [[Hf _]%andb_true_iff Ha]%andb_true_iff. split.
  - destruct l as [|c l]; [done|]. simpl in *. unfold alnum, lower_alnum in *.
    apply orb_true_iff in Hf as [->| ->]; by rewrite ?orb_true_r.
  - eapply all_chars_impl; [|done]. intros c. unfold name_char, alnum, lower_alnum.
    intros [->|[->| ->]%orb_true_iff]%orb_true_iff; by rewrite ?orb_true_r.
Qed.

Lemma subdomain_chars p :
  fullmatch _DNS1123_SUBDOMAIN_PATTERN p = true →
  holds alnum (first_char p) = true ∧ all_chars name_char p = true.
Proof.
  rewrite fullmatch_subdomain. unfold spec_dns1123_subdomain.
  rewrite forallb_forall. intros Hall.
  assert (Forall (λ l, spec_dns1123_label l = true) (split "." p)) as Hl.
  { apply Forall_forall. intros l Hin. apply Hall. by apply list_elem_of_In. }
  rewrite <- (join_split "." p) at 1 2.
  destruct (split "." p) as [|l ls] eqn:Hs; [by destruct (split_nonempty "." p)|].
  split.
  - apply Forall_cons in Hl as [[Hf _]%label_chars _].
    destruct ls as [|l' ls]; [done|].
    change (join "." (l :: l' :: ls)) with (l +:+ "." +:+ join "." (l' :: ls)).
    rewrite first_char_app by (by eapply holds_nonempty). done.
  - apply all_chars_join; [done|]. eapply Forall_impl; [exact Hl|].
    intros l0 Hl0. by apply label_chars.
Qed.

Lemma valid_key_parts key :
  _is_valid_annotation_key key = true →
  key ≠ EmptyString ∧ (String.length key ≤ 253)%nat
  ∧ ((valid_name_part key = true ∧ contains "/" key = false)
     ∨ ∃ prefix name, key = prefix +:+ String "/" name
         ∧ contains "/" prefix = false ∧ contains "/" name = false
         ∧ prefix ≠ EmptyString
         ∧ match_ _DNS1123_SUBDOMAIN_PATTERN prefix = true
         ∧ valid_name_part name = true).
Proof.
  unfold _is_valid_annotation_key.
  destruct (is_empty key) eqn:He; [done|].
  destruct (253 <? String.length key)%nat eqn:Hl; [done|]. simpl.
  apply is_empty_false in He. apply Nat.ltb_ge in Hl.
  pose proof (join_split "/" key) as Hj.
  pose proof (split_parts "/" key) as Hp.
  destruct (split "/" key) as [|a [|b [|c parts]]]; try done.
  - simpl. intros Hv. split_and!; [done..|]. left. simpl in Hj. subst a.
    split; [done|]. by apply Forall_cons in Hp as [? _].
  - simpl. destruct (is_empty a) eqn:Ha; [done|].
    destruct (match_ _ a) eqn:Hm; [|done]. simpl. intros Hv.
    split_and!; [done..|]. right. exists a, b.
    apply Forall_cons in Hp as [? [? _]%Forall_cons].
    split_and!; try done. by apply is_empty_false.
Qed.

Lemma valid_key_chars (key : string) :
  _is_valid_annotation_key key = true →
  holds alnum (first_char key) = true ∧ all_chars key_char key = true
  ∧ (count_char "/" key ≤ 1)%nat
  ∧ ∃ name, last (split "/" key) = Some name
      ∧ (1 ≤ String.length name ≤ 63)%nat.
Proof.
  intros Hv. destruct (valid_key_parts key Hv) as (Hne & Hlen & Hparts).
  destruct Hparts as [[Hname Hs]|(prefix & name & -> & Hp & Hn & Hpne & Hm & Hname)].
  - destruct (name_part_chars key Hname) as (_ & Hl & Hf & Ha).
    pose proof (length_split "/" key) as Hc.
    rewrite split_no_sep in Hc |- * by done. simpl in Hc.
    split_and!; [done|done|lia|]. exists key. split; [done|].
    destruct key; [done|]. simpl in *. lia.
  - destruct (name_part_chars name Hname) as (Hnne & Hl & Hf & Ha).
    assert (holds alnum (first_char prefix) = true
            ∧ all_chars key_char prefix = true) as [Hpf Hpa].
    { eapply (match_chars _DNS1123_SUBDOMAIN_PATTERN); [|done].
      apply subdomain_chars. }
    pose proof (length_split "/" (prefix +:+ String "/" name)) as Hc.
    rewrite split_app in Hc |- * by done.
    rewrite split_no_sep in Hc |- * by done. simpl in Hc.
    split_and!.
    + by rewrite first_char_app.
    + rewrite all_chars_app, Hpa. simpl. by rewrite Ha.
    + lia.
    + exists name. split; [done|]. destruct name; [done|]. simpl in *. lia.
Qed.









Lemma lstrip_by_nil p s : lstrip_by p s = EmptyString → all_chars p s = true.
Proof.
  induction s as [|c s IH]; [done|]. rewrite lstrip_by_cons. simpl.
  destruct (p c); [|done]. intros Hs. by rewrite IH.
Qed.

Lemma strip_nil_blank s : strip s = EmptyString → blank s = true.
Proof.
  unfold strip. intros Hs. pose proof (rstrip_by_nil _ _ Hs) as Ha.
  pose proof (lstrip_by_first isspace s) as Hf.
  destruct (lstrip_by isspace s) as [|c t] eqn:Hl; [by apply lstrip_by_nil|].
  simpl in Ha, Hf. by rewrite Hf in Ha.
Qed.

Lemma strip_not_blank s : blank s = false → is_empty (strip s) = false.
Proof.
  intros Hb. apply is_empty_false. intros Hs%strip_nil_blank. congruence.
Qed.

End key_shape_facts.

(** * The model on the inputs of the unit tests

    The configurations of [tests/unit/test_charm.py] and the examples of
    section 8 of the specification, run on the reference collaborators. *)

Section unit_tests.

Example test_selector_csv :
  parse_selector (Some "app.kubernetes.io/name=myapp")
  = inr {[ "app.kubernetes.io/name" := "myapp" ]}.
Proof. by vm_compute. Qed.

Example test_selector_json :
  parse_selector (Some (RefJson.q "{'a':'b','c':'d'}"))
  = inr (<["c" := "d"]> {[ "a" := "b" ]}).
Proof. by vm_compute. Qed.

Example test_invalid_selector :
  parse_selector (Some "not-a-kv") = inl selector_format_error.
Proof. by vm_compute. Qed.

Example test_annotations :
  parse_annotations (Some "service.beta.kubernetes.io/aws-load-balancer-type=nlb")
  = inr {[ "service.beta.kubernetes.io/aws-load-balancer-type" := "nlb" ]}.
Proof. by vm_compute. Qed.

Example test_invalid_annotation_key :
  parse_annotations (Some "not a key=value")
  = inl (ConfigError "invalid annotation key: 'not a key'").
Proof. by vm_compute. Qed.

Example test_fixed_ip :
  parse_fixed_ip (Some "not-an-ip")
  = inl (ConfigError "fixed-ip must be a valid IPv4 or IPv6 address")
  ∧ parse_fixed_ip (Some "10.0.0.1") = inr (Some "10.0.0.1")
  ∧ parse_fixed_ip (Some EmptyString) = inr None.
Proof. split_and!; by vm_compute. Qed.

Example test_validate_port :
  _validate_port "target-port" 0
  = inl (ConfigError "target-port must be between 1 and 65535")
  ∧ _validate_port "target-port" 65536
    = inl (ConfigError "target-port must be between 1 and 65535")
  ∧ _validate_port "target-port" 8080 = inr 8080.
Proof. split_and!; by vm_compute. Qed.

(** Two identical calls: the first creates, the second replaces, and the
    cluster holds the one object. *)
Example test_reconcile_twice :
  let w1 := (reconcile sample_args (initial [])).2 in
  let w2 := (reconcile sample_args w1).2 in
  (reconcile sample_args (initial [])).1 = inr tt
  ∧ (reconcile sample_args w1).1 = inr tt
  ∧ objects (cluster w2) = objects (cluster w1)
  ∧ objects (cluster w2)
    = {[ ("ns1", "myapp-lb") := {| obj := sample_service; manager := "myapp" |} ]}
  ∧ calls w2 = [(client_of sample_args, Create sample_service);
                (client_of sample_args, Create sample_service);
                (client_of sample_args, Replace sample_service)].
Proof. split_and!; by vm_compute. Qed.

End unit_tests.

(** * The claims *)

Section parser_claims.
#[local] Arguments rstrip_by : simpl never.
#[local] Arguments strip : simpl never.

(** C6 does not hold as written: when the first key opens with a brace, the
    whole input is handed to the JSON decoder and is rejected. *)
Lemma parse_selector_brace_opens_json :
  wf_segment (Pair EmptyString "{a" EmptyString EmptyString "b" EmptyString) = true
  ∧ csv [Pair EmptyString "{a" EmptyString EmptyString "b" EmptyString] = "{a=b"
  ∧ ∃ msg, parse_selector (H := reference_json) (Some "{a=b") = inl (ConfigError msg).
Proof. split_and!; [done..|]. eexists. by vm_compute. Qed.

(** C6, amended.  Every selector in [key=value] CSV form -- segments joined
    by commas, each blank or a non-empty trimmed key and value around an
    equals sign, with any white space around them, at least one of them a
    pair -- whose trimmed text does not open with a brace is parsed to the
    map of exactly the given pairs, the last value winning for a repeated
    key and blank segments skipped.  Blank input, an input that decodes to
    the empty JSON object, and a CSV input with no pair raise [ConfigError];
    so do the empty string, three spaces and [{}]. *)
Theorem parse_selector_csv_form {decoder : JsonDecoder} :
  (∀ segs, Forall (λ seg, wf_segment seg = true) segs →
     omap pair_of segs ≠ [] → startswith "{" (strip (csv segs)) = false →
     ∃ m, parse_selector (Some (csv segs)) = inr m
       ∧ m = list_to_map (reverse (omap pair_of segs))
       ∧ ∀ k v, m !! k = Some v ↔
           ∃ l1 l2, omap pair_of segs = l1 ++ (k, v) :: l2 ∧ k ∉ l2.*1)
  ∧ (∀ raw, blank raw = true →
       parse_selector (Some raw) = inl (ConfigError "selector must not be empty"))
  ∧ (∀ raw, startswith "{" (strip raw) = true →
       json_loads (strip raw) = inr (JDict ∅) →
       parse_selector (Some raw) = inl (ConfigError "selector must not be empty"))
  ∧ (∀ segs, Forall (λ seg, wf_segment seg = true) segs →
       omap pair_of segs = [] → startswith "{" (strip (csv segs)) = false →
       parse_selector (Some (csv segs))
       = inl (ConfigError "selector must not be empty"))
  ∧ parse_selector (Some EmptyString) = inl (ConfigError "selector must not be empty")
  ∧ parse_selector (Some "   ") = inl (ConfigError "selector must not be empty")
  ∧ parse_selector (H := reference_json) (Some "{}")
    = inl (ConfigError "selector must not be empty").
Proof.
  split_and!.
  - intros segs Hwf Hne Hj. eexists. split_and!; [|done|].
    + rewrite parse_selector_csv by done. by rewrite decide_False.
    + intros k v. apply list_to_map_reverse_lookup.
  - apply parse_selector_blank.
  - apply parse_selector_empty_object.
  - intros segs Hwf He Hj. rewrite parse_selector_csv by done.
    by rewrite decide_True.
  - by apply parse_selector_blank.
  - by apply parse_selector_blank.
  - by vm_compute.
Qed.

Lemma parse_selector_csv_form_witness :
  let segs := [Pair " " "app" EmptyString " " "myapp" EmptyString;
               Blank " ";
               Pair EmptyString "tier" " " EmptyString "backend" " ";
               Pair EmptyString "app" EmptyString EmptyString "other" EmptyString] in
  Forall (λ seg, wf_segment seg = true) segs
  ∧ omap pair_of segs ≠ []
  ∧ startswith "{" (strip (csv segs)) = false
  ∧ csv segs = " app= myapp, ,tier =backend ,app=other"
  ∧ ∃ m, parse_selector (H := reference_json) (Some (csv segs)) = inr m
      ∧ m = list_to_map (reverse (omap pair_of segs)).
Proof.
  intros segs.
  assert (Forall (λ seg, wf_segment seg = true) segs) as Hwf
    by (repeat constructor).
  assert (omap pair_of segs ≠ []) as Hne by discriminate.
  assert (startswith "{" (strip (csv segs)) = false) as Hj by reflexivity.
  split; [exact Hwf|]. split; [exact Hne|]. split; [exact Hj|].
  split; [reflexivity|].
  destruct (proj1 (parse_selector_csv_form (decoder := reference_json))
              segs Hwf Hne Hj) as (m & Hm & Hlist & _).
  exists m. split; [exact Hm|exact Hlist].
Defined.

(** C9 does not hold as written: a segment with two equals signs is
    accepted, the text after the first one being the value. *)
Lemma parse_selector_accepts_second_equals :
  count_char "=" "a=b=c" = 2%nat
  ∧ parse_selector (H := reference_json) (Some "a=b=c") = inr {[ "a" := "b=c" ]}.
Proof. split; by vm_compute. Qed.

(** C9, amended.  In CSV form (the trimmed input is not empty and does not
    open with a brace) [parse_selector] requires each non-empty trimmed
    segment to contain at least one equals sign, the first of which splits it
    into a key and a value that are not blank; the value may contain further
    equals signs.  The first segment not of that shape makes it raise the
    [ConfigError] that names the format when the segment has no equals sign,
    and the one that reports an empty key or value otherwise.  When every
    segment is blank or of that shape, and one is not blank, a map is
    returned. *)
Theorem parse_selector_segment_shape {decoder : JsonDecoder} (raw : string) :
  is_empty (strip raw) = false → startswith "{" (strip raw) = false →
  (∀ m, parse_selector (Some raw) = inr m →
     Forall (λ part, strip part ≠ EmptyString → selector_segment_ok (strip part))
       (split "," (strip raw)))
  ∧ (∀ good bad rest, split "," (strip raw) = good ++ bad :: rest →
       Forall (λ part, strip part = EmptyString ∨ selector_segment_ok (strip part))
         good →
       strip bad ≠ EmptyString → ¬ selector_segment_ok (strip bad) →
       parse_selector (Some raw) =
         inl (if contains "=" (strip bad) then selector_pair_error
              else selector_format_error))
  ∧ (Forall (λ part, strip part = EmptyString ∨ selector_segment_ok (strip part))
       (split "," (strip raw)) →
     Exists (λ part, strip part ≠ EmptyString) (split "," (strip raw)) →
     ∃ m, parse_selector (Some raw) = inr m).
Proof.
  intros He Hj. rewrite parse_selector_csv_branch by done. split_and!.
  - intros m Hm.
    destruct (parse_selector_loop (split "," (strip raw)) ∅) as [e|result] eqn:Hl;
      [done|].
    by eapply parse_selector_loop_inr.
  - intros good bad rest -> Hgood Hne Hbad.
    destruct (parse_selector_loop_good good (bad :: rest) ∅ Hgood) as [r' ->].
    by rewrite parse_selector_loop_bad.
  - intros Hall Hex.
    destruct (parse_selector_loop_all_good _ ∅ Hall) as (m & -> & Hm).
    exists m. simpl. rewrite decide_False; [done|]. apply Hm. by right.
Qed.

Lemma parse_selector_segment_shape_witness :
  is_empty (strip " a=b, c ,d=e") = false
  ∧ startswith "{" (strip " a=b, c ,d=e") = false
  ∧ parse_selector (H := reference_json) (Some " a=b, c ,d=e")
    = inl selector_format_error.
Proof.
  split; [reflexivity|]. split; [reflexivity|].
  apply (proj1 (proj2 (parse_selector_segment_shape (decoder := reference_json)
                         " a=b, c ,d=e" eq_refl eq_refl)) ["a=b"] " c " ["d=e"]).
  - reflexivity.
  - constructor; [|constructor]. right. exists "a", "b". by vm_compute.
  - discriminate.
  - intros (key & value & Hp & _). apply (f_equal (contains "=")) in Hp.
    rewrite contains_app in Hp. simpl in Hp. rewrite orb_true_r in Hp.
    vm_compute in Hp. discriminate.
Defined.

(** C8 fails on the JSON branch, which checks the types of the keys and
    values and that the object is not empty, and not that the strings are:
    an empty value and an empty key both come back.  What holds is that a
    returned map always has an entry, and that on the CSV branch its keys and
    values are not empty. *)
Theorem parse_selector_json_keeps_empty_strings :
  parse_selector (H := reference_json) (Some (RefJson.q "{'a': ''}"))
  = inr {[ "a" := EmptyString ]}
  ∧ parse_selector (H := reference_json) (Some (RefJson.q "{'': 'x'}"))
    = inr {[ EmptyString := "x" ]}
  ∧ ∀ (decoder : JsonDecoder) raw m, parse_selector raw = inr m →
      m ≠ ∅
      ∧ ∀ text, raw = Some text → startswith "{" (strip text) = false →
          map_Forall (λ k v, k ≠ EmptyString ∧ v ≠ EmptyString) m.
Proof.
  split_and!; [by vm_compute..|]. intros decoder raw m. apply parse_selector_inr.
Qed.

Lemma parse_selector_json_keeps_empty_strings_witness :
  parse_selector (H := reference_json) (Some "a=b") = inr {[ "a" := "b" ]}
  ∧ ({[ "a" := "b" ]} : gmap string string) ≠ ∅.
Proof.
  assert (parse_selector (H := reference_json) (Some "a=b") = inr {[ "a" := "b" ]})
    as H by reflexivity.
  split; [exact H|].
  exact (proj1 (proj2 (proj2 parse_selector_json_keeps_empty_strings)
                  reference_json (Some "a=b") _ H)).
Defined.

(** C10. Every key and every value of a map that [parse_annotations]
    returns is trimmed: it has no white space at its start or at its end.
    For instance [k= v ] yields the value [v]. *)
Theorem parse_annotations_values_trimmed :
  (∀ (raw : option string) (m : gmap string string),
     parse_annotations raw = inr m →
     map_Forall (λ k v, trimmed k = true ∧ trimmed v = true) m)
  ∧ parse_annotations (Some "k= v ") = inr {[ "k" := "v" ]}.
Proof.
  split; [|by vm_compute]. intros raw m Hm.
  destruct raw as [raw|]; simpl in Hm.
  - destruct (is_empty _).
    + injection Hm as <-. apply map_Forall_empty.
    + eapply parse_annotations_loop_trimmed; [exact Hm|apply map_Forall_empty].
  - injection Hm as <-. apply map_Forall_empty.
Qed.

Lemma parse_annotations_values_trimmed_witness :
  parse_annotations (Some " a/b = c d ,x= ")
  = inr (<["x" := EmptyString]> {[ "a/b" := "c d" ]})
  ∧ map_Forall (λ k v, trimmed k = true ∧ trimmed v = true)
      (<["x" := EmptyString]> {[ "a/b" := "c d" ]} : gmap string string).
Proof.
  assert (parse_annotations (Some " a/b = c d ,x= ")
          = inr (<["x" := EmptyString]> {[ "a/b" := "c d" ]})) as H by reflexivity.
  split; [exact H|].
  exact (proj1 parse_annotations_values_trimmed _ _ H).
Defined.
End parser_claims.

Section annotation_claims.
#[local] Arguments rstrip_by : simpl never.
#[local] Arguments strip : simpl never.
#[local] Arguments _is_valid_annotation_key : simpl never.


(** The anchor [$] of the two patterns also matches before a line feed that
    ends the text: a prefix that ends with a line feed passes, and the key
    is stored although it is not in the grammar. *)
Lemma annotation_prefix_line_feed :
  spec_qualified_name (String "a" (String LF "/b")) = false
  ∧ _is_valid_annotation_key (String "a" (String LF "/b")) = true
  ∧ parse_annotations (Some (String "a" (String LF "/b=v")))
    = inr {[ String "a" (String LF "/b") := "v" ]}.
Proof. split_and!; by vm_compute. Qed.

(** The line feed is let through in that one place only: inside a name, or
    before anything but the slash, it makes the key invalid, and the input
    is refused with the key quoted. *)
Lemma annotation_line_feed_elsewhere :
  _is_valid_annotation_key (String "a" (String LF "b")) = false
  ∧ _is_valid_annotation_key (String "a" (String "/" (String "b" (String LF "c")))) = false
  ∧ _is_valid_annotation_key (String "a" (String LF (String LF "/b"))) = false
  ∧ parse_annotations (Some (String "a" (String LF "b=v")))
    = inl (ConfigError "invalid annotation key: 'a\nb'").
Proof. split_and!; by vm_compute. Qed.



End annotation_claims.

Section api_claims.
Context {Σ : Type} {lk : Lightkube Σ} {ipa : IpAddress}.
Implicit Types (w : World Σ) (a : Args.t).

Lemma validated_config_inr a cfg :
  validated_config a = inr cfg →
  Args.app_name a ≠ EmptyString ∧ Args.namespace a ≠ EmptyString
  ∧ Args.selector a ≠ ∅
  ∧ 1 ≤ Args.target_port a ≤ 65535 ∧ 1 ≤ Args.lb_port a ≤ 65535
  ∧ parse_fixed_ip (Args.fixed_ip a) = inr (ServiceConfig.fixed_ip cfg)
  ∧ cfg = ServiceConfig.mk (Args.app_name a +:+ "-lb") (Args.namespace a)
            (Args.selector a) (Args.target_port a) (Args.lb_port a)
            (default ∅ (Args.annotations a)) (ServiceConfig.fixed_ip cfg).
Proof.
  unfold validated_config.
  destruct (is_empty (Args.app_name a)) eqn:H1; [done|].
  destruct (is_empty (Args.namespace a)) eqn:H2; [done|].
  destruct (decide _) as [|H3]; [done|].
  apply is_empty_false in H1, H2.
  unfold mbind, exn_bind, mret, exn_ret.
  destruct (decide (1 ≤ Args.target_port a ≤ 65535)) as [H4|H4];
    [rewrite validate_port_ok by done|by rewrite validate_port_bad].
  destruct (decide (1 ≤ Args.lb_port a ≤ 65535)) as [H5|H5];
    [rewrite validate_port_ok by done|by rewrite validate_port_bad].
  destruct (parse_fixed_ip _) as [e|ip]; [done|]. by intros [= <-].
Qed.

Lemma parse_fixed_ip_bad text :
  strip text ≠ EmptyString → ip_address (strip text) = None →
  parse_fixed_ip (Some text)
  = inl (ConfigError "fixed-ip must be a valid IPv4 or IPv6 address").
Proof.
  intros Hne%is_empty_false Hip. unfold parse_fixed_ip. by rewrite Hne, Hip.
Qed.

Lemma parse_fixed_ip_ok text ip :
  strip text ≠ EmptyString → ip_address (strip text) = Some ip →
  parse_fixed_ip (Some text) = inr (Some ip).
Proof.
  intros Hne%is_empty_false Hip. unfold parse_fixed_ip. by rewrite Hne, Hip.
Qed.

Lemma parse_fixed_ip_validated raw r :
  parse_fixed_ip raw = inr r → r ≠ Some EmptyString.
Proof.
  unfold parse_fixed_ip. destruct raw as [raw|]; [|by intros [= <-]].
  destruct (is_empty _); [by intros [= <-]|].
  destruct (ip_address _) as [ip|] eqn:Hip; [|done].
  intros [= <-] [= ->]. by eapply ip_address_nonempty.
Qed.

Lemma create_or_replace_calls c svc w :
  ∃ rest, calls (create_or_replace c svc w).2 = calls w ++ (c, Create svc) :: rest.
Proof.
  rewrite create_or_replace_unfold.
  destruct (request c (Create svc) (cluster w)) as [[[msg|st|msg|msg]|] σ1];
    try by exists [].
  destruct (bool_decide _); [|by exists []].
  unfold call. destruct (request c (Replace svc) _) as [res2 σ2]. simpl.
  exists [(c, Replace svc)]. by rewrite <- app_assoc.
Qed.

(** C1. Once the inputs are validated and the object [svc] is built,
    [ensure_loadbalancer_service] sends [Create svc].  If that returns, the
    call returns nothing.  If it raises an [ApiError] whose status code is
    409, [Replace] is sent with the same [svc] and its outcome is the outcome
    of the call, so the conflict of [Create] does not reach the caller.  Any
    other exception of [Create] is raised unchanged and nothing more is
    sent. *)
Theorem ensure_create_conflict_falls_back
    (app_name namespace : string) (selector : gmap string string)
    (target_port lb_port : Z) (annotations : option (gmap string string))
    (fixed_ip : option string) (svc : Service.t) (w : World Σ) :
  let a := Args.mk app_name namespace selector target_port lb_port
             annotations fixed_ip in
  let c := client_of a in
  desired (Σ := Σ) a = inr svc →
  ensure_loadbalancer_service app_name namespace selector target_port lb_port
    annotations fixed_ip w =
    let '(created, σ1) := request c (Create svc) (cluster w) in
    let w1 := {| cluster := σ1; calls := calls w ++ [(c, Create svc)] |} in
    match created with
    | None => (inr tt, w1)
    | Some (ApiError st) =>
        if bool_decide (code st = Some 409) then
          let '(replaced, σ2) := request c (Replace svc) σ1 in
          (match replaced with
           | Some e => inl e
           | None => inr tt
           end,
           {| cluster := σ2;
              calls := calls w ++ [(c, Create svc); (c, Replace svc)] |})
        else (inl (ApiError st), w1)
    | Some e => (inl e, w1)
    end.
Proof.
  intros a c Hd.
  change (ensure_loadbalancer_service _ _ _ _ _ _ _ w) with (reconcile a w).
  rewrite reconcile_unfold, Hd, create_or_replace_unfold. fold c.
  destruct (request c (Create svc) (cluster w)) as [[[msg|st|msg|msg]|] σ1]; try done.
  destruct (bool_decide _); [|done].
  unfold call. simpl. destruct (request c (Replace svc) σ1) as [res2 σ2].
  by rewrite <- app_assoc.
Qed.

(** C3. [ensure_loadbalancer_service] checks its own arguments before it
    sends anything: with an empty [app_name], [namespace] or [selector], a
    port outside 1..65535, or a [fixed_ip] that is set (not blank) and not
    an address, it raises a [ConfigError] and leaves the cluster and the
    record of requests as they were.  The message names [target-port] or
    [lb-port] for a port, and [fixed-ip] for the address.  With valid
    arguments the object it sends carries the address as [ip_address]
    normalises it. *)
Theorem validation_precedes_cluster_calls
    (app_name namespace : string) (selector : gmap string string)
    (target_port lb_port : Z) (annotations : option (gmap string string))
    (fixed_ip : option string) (w : World Σ) :
  let run := ensure_loadbalancer_service app_name namespace selector
               target_port lb_port annotations fixed_ip w in
  let bad_ip := ∃ text, fixed_ip = Some text ∧ strip text ≠ EmptyString
                  ∧ ip_address (strip text) = None in
  (app_name = EmptyString ∨ namespace = EmptyString ∨ selector = ∅
   ∨ ¬ (1 ≤ target_port ≤ 65535) ∨ ¬ (1 ≤ lb_port ≤ 65535) ∨ bad_ip →
   ∃ msg, run = (inl (ConfigError msg), w))
  ∧ (app_name ≠ EmptyString → namespace ≠ EmptyString → selector ≠ ∅ →
     (¬ (1 ≤ target_port ≤ 65535) →
        run = (inl (ConfigError "target-port must be between 1 and 65535"), w))
     ∧ (1 ≤ target_port ≤ 65535 → ¬ (1 ≤ lb_port ≤ 65535) →
        run = (inl (ConfigError "lb-port must be between 1 and 65535"), w))
     ∧ (1 ≤ target_port ≤ 65535 → 1 ≤ lb_port ≤ 65535 → bad_ip →
        run = (inl (ConfigError "fixed-ip must be a valid IPv4 or IPv6 address"), w))
     ∧ (1 ≤ target_port ≤ 65535 → 1 ≤ lb_port ≤ 65535 →
        lightkube_installed (Σ := Σ) = true →
        ∀ text ip, fixed_ip = Some text → strip text ≠ EmptyString →
          ip_address (strip text) = Some ip →
          ∃ svc rest,
            ServiceSpec.loadBalancerIP (Service.spec svc) = Some ip
            ∧ calls run.2
              = calls w
                ++ ({| client_namespace := namespace; field_manager := app_name |},
                    Create svc) :: rest)).
Proof.
  intros run bad_ip.
  set (a := Args.mk app_name namespace selector target_port lb_port
              annotations fixed_ip).
  assert (run = match desired (Σ := Σ) a with
                | inl e => (inl e, w)
                | inr svc => create_or_replace (client_of a) svc w
                end) as Hrun by apply (reconcile_unfold a w).
  split.
  - intros Hbad. rewrite Hrun. unfold desired.
    destruct (validated_config a) as [e|cfg] eqn:Hcfg.
    + destruct (validated_config_error _ _ Hcfg) as [msg ->]. by exists msg.
    + exfalso. apply validated_config_inr in Hcfg
        as (H1 & H2 & H3 & H4 & H5 & H6 & _). simpl in *.
      destruct Hbad as [?|[?|[?|[?|[?|(text & -> & Hne & Hip)]]]]]; try done.
      by rewrite parse_fixed_ip_bad in H6.
  - intros H1%is_empty_false H2%is_empty_false H3. rewrite Hrun.
    unfold desired, validated_config. simpl. rewrite H1, H2.
    rewrite decide_False by done. split_and!.
    + intros H4. by rewrite (validate_port_bad "target-port" target_port).
    + intros H4 H5.
      by rewrite (validate_port_ok "target-port" target_port),
        (validate_port_bad "lb-port" lb_port).
    + intros H4 H5 (text & -> & Hne & Hip).
      by rewrite (validate_port_ok "target-port" target_port),
        (validate_port_ok "lb-port" lb_port), parse_fixed_ip_bad.
    + intros H4 H5 Hi text ip -> Hne Hip.
      rewrite (validate_port_ok "target-port" target_port),
        (validate_port_ok "lb-port" lb_port), (parse_fixed_ip_ok text ip) by done.
      unfold mbind, exn_bind, mret, exn_ret, _build_service. rewrite Hi. simpl.
      assert (is_empty ip = false) as ->.
      { apply is_empty_false. by eapply ip_address_nonempty. }
      match goal with
      | |- context [create_or_replace _ ?s w] =>
          destruct (create_or_replace_calls (client_of a) s w) as [rest Hc];
          exists s, rest
      end.
      split; [done|exact Hc].
Qed.

(** C5. For a validated configuration, [_build_service] returns the object
    named [cfg.name] in [cfg.namespace], labelled [app.kubernetes.io/name]
    with that name, with the annotations of the configuration, or none when
    that map is empty, of type [LoadBalancer], with the fixed IP of the
    configuration as [loadBalancerIP], the selector of the configuration, and
    the one port [lb], from [lb_port] to [target_port] over TCP.  The
    configuration that [ensure_loadbalancer_service] builds is validated and
    its name is the application name followed by [-lb]. *)
Theorem build_service_shape (cfg : ServiceConfig.t) :
  (lightkube_installed (Σ := Σ) = true → validated cfg →
   _build_service (Σ := Σ) cfg =
    inr (Service.mk
           (ObjectMeta.mk (ServiceConfig.name cfg) (ServiceConfig.namespace cfg)
              {[ "app.kubernetes.io/name" := ServiceConfig.name cfg ]}
              (if decide (ServiceConfig.annotations cfg = ∅) then None
               else Some (ServiceConfig.annotations cfg)))
           (ServiceSpec.mk "LoadBalancer" (ServiceConfig.fixed_ip cfg)
              (ServiceConfig.selector cfg)
              [ServicePort.mk (ServiceConfig.lb_port cfg)
                 (ServiceConfig.target_port cfg) "TCP" "lb"])))
  ∧ ∀ a, validated_config a = inr cfg →
      validated cfg ∧ ServiceConfig.name cfg = Args.app_name a +:+ "-lb"
      ∧ ServiceConfig.namespace cfg = Args.namespace a
      ∧ ServiceConfig.selector cfg = Args.selector a
      ∧ ServiceConfig.annotations cfg = default ∅ (Args.annotations a)
      ∧ ServiceConfig.target_port cfg = Args.target_port a
      ∧ ServiceConfig.lb_port cfg = Args.lb_port a
      ∧ parse_fixed_ip (Args.fixed_ip a) = inr (ServiceConfig.fixed_ip cfg).
Proof.
  split.
  - intros Hi Hv. unfold _build_service. rewrite Hi. simpl.
    unfold validated in Hv. by destruct (ServiceConfig.fixed_ip cfg) as [[|c ip]|].
  - intros a (_ & _ & _ & _ & _ & Hip & Hcfg)%validated_config_inr.
    rewrite Hcfg. simpl. split_and!; try done.
    unfold validated. by eapply parse_fixed_ip_validated.
Qed.

End api_claims.

Section cluster_claims.
Context {ipa : IpAddress}.

Lemma reference_delete_fault_free app_name namespace (w : World Cluster) :
  faults (cluster w) = [] →
  delete_loadbalancer_service app_name namespace w =
    (inr tt,
     {| cluster := {| objects := delete (namespace, app_name +:+ "-lb")
                                   (objects (cluster w));
                      faults := [] |};
        calls := calls w
                 ++ [({| client_namespace := namespace; field_manager := app_name |},
                      Delete (app_name +:+ "-lb") namespace)] |}).
Proof.
  intros Hf. rewrite delete_unfold by done. cbv zeta.
  rewrite reference_request, Hf. simpl.
  destruct (objects (cluster w) !! (namespace, app_name +:+ "-lb")) eqn:Hl; simpl.
  - done.
  - by rewrite delete_id.
Qed.

(** C2. [delete_loadbalancer_service] sends one [Delete] for the name
    [app_name-lb] in [namespace].  It returns nothing when the request
    returns and when it raises an [ApiError] whose status code is 404; any
    other exception is raised unchanged.  On the reference cluster with no
    failure scheduled it therefore succeeds whether or not the object
    exists, leaves the object absent, and succeeds again when called a second
    time. *)
Theorem delete_not_found_is_success (app_name namespace : string) :
  let c := {| client_namespace := namespace; field_manager := app_name |} in
  let name := app_name +:+ "-lb" in
  (∀ (Σ : Type) (lk : Lightkube Σ) (w : World Σ),
     lightkube_installed (Σ := Σ) = true →
     delete_loadbalancer_service app_name namespace w =
       (let '(res, σ1) := request c (Delete name namespace) (cluster w) in
        (match res with
         | None => inr tt
         | Some (ApiError st) =>
             if bool_decide (code st = Some 404) then inr tt
             else inl (ApiError st)
         | Some e => inl e
         end,
         {| cluster := σ1; calls := calls w ++ [(c, Delete name namespace)] |})))
  ∧ (∀ wc : World Cluster, faults (cluster wc) = [] →
       let first := delete_loadbalancer_service app_name namespace wc in
       let second := delete_loadbalancer_service app_name namespace first.2 in
       first.1 = inr tt ∧ second.1 = inr tt
       ∧ objects (cluster first.2) !! (namespace, name) = None
       ∧ objects (cluster second.2) !! (namespace, name) = None
       ∧ (objects (cluster wc) !! (namespace, name) = None →
          objects (cluster first.2) = objects (cluster wc))).
Proof.
  intros c name. split.
  - intros Σ lk w Hi. rewrite delete_unfold by done. cbv zeta. fold c name.
    destruct (request c (Delete name namespace) (cluster w)) as [[e|] σ1]; [|done].
    destruct e as [m1|st|m2|m3]; [done| |done|done].
    by destruct (bool_decide (code st = Some 404)).
  - intros wc Hf first second. subst second first.
    rewrite (reference_delete_fault_free _ _ wc Hf). simpl.
    rewrite reference_delete_fault_free by done. simpl.
    split_and!; try done.
    + apply lookup_delete_eq.
    + rewrite delete_delete_eq. apply lookup_delete_eq.
    + intros Hl. by apply delete_id.
Qed.

Lemma delete_not_found_is_success_witness :
  faults (cluster (initial [])) = []
  ∧ objects (cluster (initial [])) !! ("ns1", "myapp-lb") = None
  ∧ (delete_loadbalancer_service "myapp" "ns1" (initial [])).1 = inr tt
  ∧ (delete_loadbalancer_service "myapp" "ns1"
       (delete_loadbalancer_service "myapp" "ns1" (initial [])).2).1 = inr tt.
Proof.
  assert (faults (cluster (initial [])) = []) as Hf by reflexivity.
  split; [exact Hf|]. split; [reflexivity|].
  destruct (proj2 (delete_not_found_is_success "myapp" "ns1") (initial []) Hf)
    as (H1 & H2 & _).
  split; [exact H1|exact H2].
Defined.

Lemma reference_reconcile_present a (w : World Cluster) key :
  is_Some (objects (cluster w) !! key) →
  is_Some (objects (cluster (reconcile a w).2) !! key).
Proof.
  intros Hk. pose proof (reference_reconcile a w) as Hr.
  destruct (reconcile a w) as [[e|u] w']; simpl.
  - by rewrite Hr.
  - destruct Hr as (svc & _ & ->).
    destruct (decide (key_of svc = key)) as [->|Hne].
    + by rewrite lookup_insert_eq.
    + by rewrite lookup_insert_ne.
Qed.

(** C4. Run any sequence of [Reconcile] and [Remove] calls on the reference
    cluster, from the empty cluster and under any schedule of failures.
    Then the objects that the client of an application wrote in a namespace
    are at most the one named [app_name-lb]; that object, when present, is
    the object of the most recent successful [Reconcile] of the application.
    A successful [Reconcile], from any state, leaves its object present as
    desired; no [Reconcile] removes an object; and an object that a call
    makes absent is the object of a [Remove]. *)
Theorem reconciled_object_invariant (schedule : list (option Exn)) (ops : list Op) :
  let w := (run_ops ops (initial schedule) []).1 in
  let history := (run_ops ops (initial schedule) []).2 in
  (∀ namespace app_name key st,
     owned (cluster w) namespace app_name !! key = Some st →
     key = (namespace, app_name +:+ "-lb"))
  ∧ (∀ namespace app_name st,
       objects (cluster w) !! (namespace, app_name +:+ "-lb") = Some st →
       manager st = app_name
       ∧ last_reconciled (Σ := Cluster) namespace app_name history = Some (obj st))
  ∧ (∀ a (w0 w1 : World Cluster), reconcile a w0 = (inr tt, w1) →
       ∃ svc, desired (Σ := Cluster) a = inr svc
         ∧ objects (cluster w1) !! (Args.namespace a, Args.app_name a +:+ "-lb")
           = Some {| obj := svc; manager := Args.app_name a |})
  ∧ (∀ a (w0 : World Cluster) key,
       is_Some (objects (cluster w0) !! key) →
       is_Some (objects (cluster (reconcile a w0).2) !! key))
  ∧ (∀ op (w0 : World Cluster) key,
       is_Some (objects (cluster w0) !! key) →
       objects (cluster (run_op op w0).2) !! key = None →
       ∃ app_name namespace,
         op = Remove app_name namespace ∧ key = (namespace, app_name +:+ "-lb")).
Proof.
  intros w history.
  assert (consistent w history) as Hc.
  { apply run_ops_consistent. intros ns name st Hst. simpl in Hst.
    by rewrite lookup_empty in Hst. }
  split_and!.
  - intros ns app [ns' name] st [Hst [Hns Hm]]%map_lookup_filter_Some.
    simpl in Hns, Hm. subst ns'. destruct (Hc _ _ _ Hst) as [-> _]. by rewrite Hm.
  - intros ns app st Hst. destruct (Hc _ _ _ Hst) as [Hname Hl].
    apply append_inj_l in Hname. by subst app.
  - intros a w0 w1 Hr. pose proof (reference_reconcile a w0) as Hrr.
    rewrite Hr in Hrr. destruct Hrr as (svc & Hd & Hobjs). exists svc.
    split; [done|].
    by rewrite Hobjs, <- (desired_key a svc Hd), lookup_insert_eq.
  - apply reference_reconcile_present.
  - intros [a|app ns] w0 key Hk Hnone.
    + pose proof (reference_reconcile_present a w0 key Hk) as [? Hs].
      simpl in Hnone. by rewrite Hs in Hnone.
    + exists app, ns. split; [done|]. simpl in Hnone.
      pose proof (reference_remove app ns w0) as Hr.
      destruct (delete_loadbalancer_service app ns w0) as [res w']. simpl in Hnone.
      destruct Hr as [Hr|[_ Hr]]; rewrite Hr in Hnone.
      * destruct Hk as [? Hk]. by rewrite Hk in Hnone.
      * destruct (decide (key = (ns, app +:+ "-lb"))) as [|Hne]; [done|].
        rewrite lookup_delete_ne in Hnone by done.
        destruct Hk as [? Hk]. by rewrite Hk in Hnone.
Qed.
End cluster_claims.

Section witnesses.

Lemma ensure_create_conflict_falls_back_witness :
  let w := (reconcile sample_args (initial [])).2 in
  desired (Σ := Cluster) sample_args = inr sample_service
  ∧ (ensure_loadbalancer_service "myapp" "ns1" {[ "app" := "myapp" ]} 8080 80
       None None w).1 = inr tt
  ∧ calls (ensure_loadbalancer_service "myapp" "ns1" {[ "app" := "myapp" ]} 8080 80
             None None w).2
    = [(client_of sample_args, Create sample_service);
       (client_of sample_args, Create sample_service);
       (client_of sample_args, Replace sample_service)].
Proof.
  intros w.
  assert (desired (Σ := Cluster) sample_args = inr sample_service) as Hd
    by reflexivity.
  split; [exact Hd|].
  rewrite (ensure_create_conflict_falls_back (Σ := Cluster) "myapp" "ns1"
             {[ "app" := "myapp" ]} 8080 80 None None sample_service w Hd).
  split; reflexivity.
Defined.

Lemma validation_precedes_cluster_calls_witness :
  "myapp" ≠ EmptyString ∧ "ns1" ≠ EmptyString
  ∧ ({[ "app" := "myapp" ]} : gmap string string) ≠ ∅
  ∧ ¬ (1 ≤ 0 ≤ 65535)
  ∧ ensure_loadbalancer_service "myapp" "ns1" {[ "app" := "myapp" ]} 0 80
      None None (initial [])
    = (inl (ConfigError "target-port must be between 1 and 65535"), initial []).
Proof.
  assert ("myapp" ≠ EmptyString) as H1 by discriminate.
  assert ("ns1" ≠ EmptyString) as H2 by discriminate.
  assert (({[ "app" := "myapp" ]} : gmap string string) ≠ ∅) as H3
    by apply map_non_empty_singleton.
  assert (¬ (1 ≤ 0 ≤ 65535)) as H4 by (intros [H _]; apply H; reflexivity).
  split; [exact H1|]. split; [exact H2|]. split; [exact H3|]. split; [exact H4|].
  exact (proj1 (proj2 (validation_precedes_cluster_calls (Σ := Cluster)
                         "myapp" "ns1" {[ "app" := "myapp" ]} 0 80 None None
                         (initial [])) H1 H2 H3) H4).
Defined.

Lemma build_service_shape_witness :
  lightkube_installed (Σ := Cluster) = true ∧ validated sample_config
  ∧ _build_service (Σ := Cluster) sample_config = inr sample_service.
Proof.
  assert (validated sample_config) as Hv by discriminate.
  split; [reflexivity|]. split; [exact Hv|].
  exact (proj1 (build_service_shape (Σ := Cluster) sample_config) eq_refl Hv).
Defined.

Lemma reconciled_object_invariant_witness :
  let w1 := (reconcile sample_args (initial [])).2 in
  reconcile sample_args (initial []) = (inr tt, w1)
  ∧ ∃ svc, desired (Σ := Cluster) sample_args = inr svc
      ∧ objects (cluster w1) !! ("ns1", "myapp-lb")
        = Some {| obj := svc; manager := "myapp" |}.
Proof.
  intros w1.
  assert (reconcile sample_args (initial []) = (inr tt, w1)) as Hr by reflexivity.
  split; [exact Hr|].
  exact (proj1 (proj2 (proj2 (reconciled_object_invariant [] [])))
           sample_args (initial []) w1 Hr).
Defined.
End witnesses.

(** * Further properties of the parsers *)

Section fixed_ip_properties.
#[local] Arguments rstrip_by : simpl never.
#[local] Arguments strip : simpl never.
Context {ipa : IpAddress}.

(** X1. [parse_fixed_ip] takes an address that is not set, or blank, for
    no address and returns [None]; white space around the text is ignored.
    A text that is not blank is handed, trimmed, to [ip_address]: when it is
    accepted the result is the address that [ip_address] prints, never the
    empty string, and when it is rejected the [ConfigError] that names
    [fixed-ip] is raised.  Nothing else is returned and nothing else is
    raised: [None] comes from an unset or blank text only, an address from
    an accepted text only, the error from a rejected text only. *)
Theorem parse_fixed_ip_padding :
  parse_fixed_ip None = inr None
  ∧ (∀ raw, blank raw = true → parse_fixed_ip (Some raw) = inr None)
  ∧ (∀ l t r, blank l = true → blank r = true → trimmed t = true →
       parse_fixed_ip (Some (l +:+ t +:+ r)) = parse_fixed_ip (Some t))
  ∧ (∀ text ip, blank text = false → ip_address (strip text) = Some ip →
       parse_fixed_ip (Some text) = inr (Some ip))
  ∧ (∀ text, blank text = false → ip_address (strip text) = None →
       parse_fixed_ip (Some text)
       = inl (ConfigError "fixed-ip must be a valid IPv4 or IPv6 address"))
  ∧ (∀ raw r, parse_fixed_ip raw = inr r →
       r ≠ Some EmptyString
       ∧ (r = None → raw = None ∨ ∃ text, raw = Some text ∧ blank text = true)
       ∧ ∀ ip, r = Some ip →
           ∃ text, raw = Some text ∧ blank text = false
             ∧ ip_address (strip text) = Some ip)
  ∧ (∀ raw e, parse_fixed_ip raw = inl e →
       e = ConfigError "fixed-ip must be a valid IPv4 or IPv6 address"
       ∧ ∃ text, raw = Some text ∧ blank text = false
           ∧ ip_address (strip text) = None).
Proof.
  assert (∀ text, is_empty (strip text) = blank text) as Hempty.
  { intros text. destruct (blank text) eqn:Hb.
    - by rewrite strip_blank.
    - by apply strip_not_blank. }
  split_and!.
  - done.
  - intros raw Hb. unfold parse_fixed_ip. by rewrite Hempty, Hb.
  - intros l t r Hl Hr Ht. unfold parse_fixed_ip.
    by rewrite strip_pad, (strip_id t).
  - intros text ip Hb Hip. unfold parse_fixed_ip. by rewrite Hempty, Hb, Hip.
  - intros text Hb Hip. unfold parse_fixed_ip. by rewrite Hempty, Hb, Hip.
  - intros raw r Hr. split; [by eapply parse_fixed_ip_validated|].
    unfold parse_fixed_ip in Hr. destruct raw as [text|].
    + rewrite Hempty in Hr. destruct (blank text) eqn:Hb; simpl in Hr.
      * injection Hr as <-. split; [|done]. intros _. right. by exists text.
      * destruct (ip_address (strip text)) as [ip|] eqn:Hip; [|done].
        injection Hr as <-. split; [done|]. intros ip' [= <-]. by exists text.
    + injection Hr as <-. split; [by left|done].
  - intros raw e He. unfold parse_fixed_ip in He. destruct raw as [text|]; [|done].
    rewrite Hempty in He. destruct (blank text) eqn:Hb; [done|]. simpl in He.
    destruct (ip_address (strip text)) eqn:Hip; [done|]. injection He as <-.
    split; [done|]. by exists text.
Qed.

Lemma parse_fixed_ip_blank text :
  blank text = true → parse_fixed_ip (Some text) = parse_fixed_ip None.
Proof. intros Hb. unfold parse_fixed_ip. by rewrite strip_blank. Qed.

End fixed_ip_properties.

Section selector_properties.
#[local] Arguments rstrip_by : simpl never.
#[local] Arguments strip : simpl never.
Context {decoder : JsonDecoder}.

Lemma omap_as_str_fmap (m : gmap string string) : omap as_str (JStr <$> m) = m.
Proof.
  apply map_eq. intros k. rewrite lookup_omap, lookup_fmap. by destruct (m !! k).
Qed.

Lemma all_str_fmap (parsed : gmap string json) :
  forallb (λ kv, is_str kv.2) (map_to_list parsed) = true →
  parsed = JStr <$> omap as_str parsed.
Proof.
  intros Hall. apply map_eq. intros k. rewrite lookup_fmap, lookup_omap.
  destruct (parsed !! k) as [v|] eqn:Hk; [|done]. simpl.
  rewrite forallb_forall in Hall. specialize (Hall (k, v)).
  rewrite <- list_elem_of_In, elem_of_map_to_list in Hall.
  specialize (Hall Hk). by destruct v.
Qed.

Lemma fmap_str_all_str (m : gmap string string) :
  forallb (λ kv, is_str kv.2) (map_to_list (JStr <$> m)) = true.
Proof.
  apply forallb_forall. intros [k v]. rewrite <- list_elem_of_In, elem_of_map_to_list.
  rewrite lookup_fmap. by destruct (m !! k); intros [= <-].
Qed.

Lemma startswith_nonempty c s : startswith c s = true → is_empty s = false.
Proof. by destruct s. Qed.

(** X2. When the trimmed selector opens with a brace, [parse_selector]
    returns a map [m] exactly when [json.loads] returns a JSON object that
    is not empty and whose values are all strings, and [m] is that object.
    A [JSONDecodeError] becomes the [ConfigError] whose message ends with the
    text of the error; any other exception of the decoder is raised
    unchanged; any other decoded value -- not an object, or an object with
    a value that is not a string -- raises the [ConfigError] that asks for
    an object of strings. *)
Theorem parse_selector_json_object (raw : string) :
  startswith "{" (strip raw) = true →
  (∀ m, parse_selector (Some raw) = inr m ↔
        json_loads (strip raw) = inr (JDict (JStr <$> m)) ∧ m ≠ ∅)
  ∧ (∀ msg, json_loads (strip raw) = inl (JSONDecodeError msg) →
       parse_selector (Some raw)
       = inl (ConfigError ("selector JSON is invalid: " +:+ msg)))
  ∧ (∀ e, json_loads (strip raw) = inl e → (∀ msg, e ≠ JSONDecodeError msg) →
       parse_selector (Some raw) = inl e)
  ∧ (∀ v, json_loads (strip raw) = inr v →
       (∀ m : gmap string string, v ≠ JDict (JStr <$> m)) →
       parse_selector (Some raw)
       = inl (ConfigError "selector JSON must be an object of string:string")).
Proof.
  intros Hj. pose proof (startswith_nonempty _ _ Hj) as He.
  unfold parse_selector. rewrite He, Hj. split_and!.
  - intros m. split.
    + destruct (json_loads (strip raw)) as [[]|[]]; try done.
      destruct (forallb _ _) eqn:Hall; [|done]. simpl.
      destruct (decide _) as [|Hne]; [done|]. intros [= <-].
      split; [by rewrite <- all_str_fmap|].
      intros Hm. apply Hne. rewrite (all_str_fmap _ Hall), Hm. apply fmap_empty.
    + intros [-> Hne]. rewrite fmap_str_all_str. simpl.
      rewrite decide_False; [by rewrite omap_as_str_fmap|].
      intros Hm. apply Hne. by apply fmap_empty_inv in Hm.
  - by intros msg ->.
  - intros e -> Hne. destruct e; try done. by destruct (Hne msg).
  - intros v -> Hv. destruct v; try done.
    destruct (forallb _ _) eqn:Hall; [|done]. simpl.
    destruct (Hv (omap as_str g)). by rewrite <- all_str_fmap.
Qed.

Lemma parse_selector_loop_errors parts result e :
  parse_selector_loop parts result = inl e →
  e = selector_format_error ∨ e = selector_pair_error.
Proof.
  revert result. induction parts as [|part parts IH]; intros result; [done|].
  destruct (decide (strip part = EmptyString)) as [Hb|Hb].
  { rewrite parse_selector_loop_blank by done. apply IH. }
  destruct (segment_ok_dec (strip part)) as [Hok|Hbad].
  - destruct (parse_selector_loop_ok part parts result Hok)
      as (key & value & _ & _ & _ & _ & ->). apply IH.
  - rewrite parse_selector_loop_bad by done. intros [= <-].
    destruct (contains _ _); auto.
Qed.

(** X3. Every failure of [parse_selector] is a [ConfigError], with one
    exception: an exception of [json.loads] other than [JSONDecodeError]
    passes through.  Without a selector the message is that it must be set.
    On the CSV branch the message is one of three -- the selector is empty,
    a segment has no equals sign, a key or a value is empty -- so the
    unpacking of the two parts of a segment never fails.  On the JSON branch it is
    the decoding error, the wrong shape of the value, or the empty
    object. *)
Theorem parse_selector_errors (raw : option string) (e : Exn) :
  parse_selector raw = inl e →
  match raw with
  | None => e = ConfigError "selector must be set"
  | Some text =>
      if startswith "{" (strip text) then
        (∃ msg, json_loads (strip text) = inl (JSONDecodeError msg)
           ∧ e = ConfigError ("selector JSON is invalid: " +:+ msg))
        ∨ (json_loads (strip text) = inl e ∧ ∀ msg, e ≠ JSONDecodeError msg)
        ∨ e = ConfigError "selector JSON must be an object of string:string"
        ∨ e = ConfigError "selector must not be empty"
      else
        e = ConfigError "selector must not be empty"
        ∨ e = selector_format_error ∨ e = selector_pair_error
  end.
Proof.
  destruct raw as [text|]; [|by intros [= <-]].
  destruct (is_empty (strip text)) eqn:He.
  { unfold parse_selector. rewrite He. intros [= <-].
    apply is_empty_true in He. rewrite He. simpl. by left. }
  destruct (startswith "{" (strip text)) eqn:Hj.
  - unfold parse_selector. rewrite He, Hj.
    destruct (json_loads (strip text)) as [e'|v].
    + destruct e' as [msg|st|msg|msg]; intros [= <-].
      * right. left. by split.
      * right. left. by split.
      * left. by exists msg.
      * right. left. by split.
    + destruct v; try (intros [= <-]; by right; right; left).
      destruct (forallb _ _); simpl; [|intros [= <-]; by right; right; left].
      destruct (decide _); [|done]. intros [= <-]. by right; right; right.
  - rewrite parse_selector_csv_branch by done.
    destruct (parse_selector_loop _ _) as [e'|result] eqn:Hl.
    + intros [= <-]. right. by eapply parse_selector_loop_errors.
    + destruct (decide _); [|done]. intros [= <-]. by left.
Qed.

End selector_properties.

Section key_properties.
#[local] Arguments rstrip_by : simpl never.
#[local] Arguments strip : simpl never.
Import Re.

(** X4. A key that [_is_valid_annotation_key] accepts has 1 to 253
    characters and at most one slash; the part after the slash, or the whole
    key when there is none, has 1 to 63 characters; the key starts with a
    letter or a digit and holds only letters, digits, [-], [_], [.], the
    slash and the line feed.  So it has no equals sign, no comma and no
    space. *)
Theorem valid_annotation_key_shape (key : string) :
  _is_valid_annotation_key key = true →
  (1 ≤ String.length key ≤ 253)%nat
  ∧ (count_char "/" key ≤ 1)%nat
  ∧ (∃ name, last (split "/" key) = Some name ∧ (1 ≤ String.length name ≤ 63)%nat)
  ∧ holds alnum (first_char key) = true
  ∧ all_chars key_char key = true
  ∧ contains "=" key = false ∧ contains "," key = false ∧ contains " " key = false.
Proof.
  intros Hv. destruct (valid_key_parts key Hv) as (Hne & Hlen & _).
  destruct (valid_key_chars key Hv) as (Hf & Ha & Hc & Hn).
  split_and!; try done.
  - destruct key; [done|]. simpl. lia.
  - by eapply contains_all_chars.
  - by eapply contains_all_chars.
  - by eapply contains_all_chars.
Qed.

End key_properties.

Section annotation_properties.
#[local] Arguments rstrip_by : simpl never.
#[local] Arguments strip : simpl never.
#[local] Arguments _is_valid_annotation_key : simpl never.

Lemma split_all_seps sep t :
  all_chars (is_char sep) t = true →
  split sep t = replicate (S (String.length t)) EmptyString.
Proof.
  induction t as [|c t IH]; [done|]. simpl. unfold is_char at 1.
  intros [-> Ht]%andb_true_iff. by rewrite IH.
Qed.

Lemma split_app_seps sep u t :
  all_chars (is_char sep) t = true →
  split sep (u +:+ t) = split sep u ++ replicate (String.length t) EmptyString.
Proof.
  intros Ht. induction u as [|c u IH].
  - change (EmptyString +:+ t) with t. by rewrite split_all_seps.
  - rewrite append_cons. simpl. rewrite IH.
    destruct (Ascii.eqb sep c); [done|].
    destruct (split sep u) eqn:Hs; [by destruct (split_nonempty sep u)|done].
Qed.

Lemma filter_fmap_strip (l : list string) :
  filter (λ p, negb (is_empty p)) (strip <$> l)
  = strip <$> filter (λ p, negb (is_empty (strip p))) l.
Proof.
  induction l as [|p l IH]; [done|]. rewrite fmap_cons, !filter_cons, IH.
  by destruct (is_empty (strip p)).
Qed.

Lemma filter_blank_replicate n :
  filter (λ p, negb (is_empty (strip p))) (replicate n EmptyString) = [].
Proof.
  induction n as [|n IH]; [done|]. simpl.
  rewrite filter_cons_False; [done|]. vm_compute. tauto.
Qed.

(** The segments the loop of [parse_annotations] runs over: those of the
    whole text between commas, trimmed, the empty ones left out. *)
Lemma parse_annotations_segments raw :
  parse_annotations (Some raw) =
    parse_annotations_loop
      (filter (λ p, negb (is_empty p)) (strip <$> split "," raw)) ∅.
Proof.
  rewrite <- (strip_split "," raw) by done. rewrite filter_fmap_strip.
  unfold parse_annotations, rstrip_char.
  destruct (rstrip_by_decomp (is_char ",") (strip raw)) as (t & Hs & Ht).
  remember (rstrip_by (is_char ",") (strip raw)) as text eqn:Htext.
  rewrite Hs, split_app_seps, filter_app, filter_blank_replicate, app_nil_r by done.
  destruct (is_empty text) eqn:He; [|done].
  apply is_empty_true in He. by rewrite He.
Qed.

Lemma parse_annotations_loop_errors pairs result e :
  parse_annotations_loop pairs result = inl e →
  (e = annotation_format_error ∧ ∃ p, p ∈ pairs ∧ contains "=" p = false)
  ∨ ∃ p key value, p ∈ pairs ∧ p = key +:+ String "=" value
      ∧ contains "=" key = false
      ∧ _is_valid_annotation_key (strip key) = false
      ∧ e = ConfigError ("invalid annotation key: " +:+ repr (strip key)).
Proof.
  revert result. induction pairs as [|p pairs IH]; intros result; [done|].
  destruct (contains "=" p) eqn:Hc.
  - destruct (split1_found "=" p Hc) as (key & value & _ & Hp & Hk).
    rewrite (parse_annotations_loop_step p pairs result key value) by done.
    destruct (_is_valid_annotation_key (strip key)) eqn:Hv.
    + intros [[-> (p' & Hin & H)]|(p' & k' & v' & Hin & H)]%IH.
      * left. split; [done|]. exists p'. split; [by right|done].
      * right. exists p', k', v'. split; [by right|done].
    + intros [= <-]. right. exists p, key, value. split_and!; try done. by left.
  - rewrite parse_annotations_loop_no_eq by done. intros [= <-]. left.
    split; [done|]. exists p. split; [by left|done].
Qed.

Lemma elem_of_segments p raw :
  p ∈ filter (λ p, negb (is_empty p)) (strip <$> split "," raw) →
  ∃ seg, seg ∈ split "," raw ∧ p = strip seg ∧ p ≠ EmptyString.
Proof.
  intros [Hne (seg & -> & Hin)%list_elem_of_fmap]%list_elem_of_filter.
  exists seg. split_and!; [done..|]. apply is_empty_false.
  by destruct (is_empty (strip seg)).
Qed.

Lemma parse_annotations_config_error raw e :
  parse_annotations raw = inl e → ∃ msg, e = ConfigError msg.
Proof.
  destruct raw as [text|]; [|done]. rewrite parse_annotations_segments.
  intros [[-> _]|(p & key & value & _ & _ & _ & _ & ->)]
    %parse_annotations_loop_errors; by eexists.
Qed.

(** X5. Every failure of [parse_annotations] is one of two [ConfigError]s,
    and a segment of the text between commas accounts for it: a segment that
    is not blank and has no equals sign, for the error that names the
    format; or a segment whose trimmed key, the text before its first equals
    sign, [_is_valid_annotation_key] rejects, for the error that quotes that
    key.  The unpacking of the two parts of a segment never fails, and the
    input is never [None]. *)
Theorem parse_annotations_errors (raw : option string) (e : Exn) :
  parse_annotations raw = inl e →
  ∃ text, raw = Some text
    ∧ ((e = annotation_format_error
        ∧ ∃ seg, seg ∈ split "," text ∧ strip seg ≠ EmptyString
            ∧ contains "=" (strip seg) = false)
       ∨ ∃ seg key value, seg ∈ split "," text
           ∧ strip seg = key +:+ String "=" value ∧ contains "=" key = false
           ∧ _is_valid_annotation_key (strip key) = false
           ∧ e = ConfigError ("invalid annotation key: " +:+ repr (strip key))).
Proof.
  destruct raw as [text|]; [|done]. rewrite parse_annotations_segments.
  intros He. exists text. split; [done|].
  apply parse_annotations_loop_errors in He
    as [[-> (p & Hin & Hp)]|(p & key & value & Hin & Hp & H)].
  - left. split; [done|]. apply elem_of_segments in Hin as (seg & Hin & -> & Hne).
    by exists seg.
  - right. apply elem_of_segments in Hin as (seg & Hin & -> & Hne).
    by exists seg, key, value.
Qed.

Lemma contains_lstrip sep p s :
  contains sep s = false → contains sep (lstrip_by p s) = false.
Proof.
  induction s as [|c s IH]; [done|]. rewrite lstrip_by_cons.
  destruct (p c); [|done]. simpl. intros [_ Hs]%orb_false_iff. by apply IH.
Qed.

Lemma contains_strip sep s : contains sep s = false → contains sep (strip s) = false.
Proof. intros Hs. unfold strip. by apply contains_rstrip, contains_lstrip. Qed.

Lemma parse_annotations_loop_keys pairs result m :
  Forall (λ p, contains "," p = false) pairs →
  parse_annotations_loop pairs result = inr m →
  map_Forall (λ k v, _is_valid_annotation_key k = true ∧ contains "," v = false)
    result →
  map_Forall (λ k v, _is_valid_annotation_key k = true ∧ contains "," v = false) m.
Proof.
  intros Hpairs. revert result.
  induction Hpairs as [|p pairs Hp Hpairs IH]; intros result; [by intros [= <-]|].
  destruct (contains "=" p) eqn:Hc;
    [|by rewrite parse_annotations_loop_no_eq].
  destruct (split1_found "=" p Hc) as (key & value & _ & -> & Hk).
  rewrite (parse_annotations_loop_step _ pairs result key value) by done.
  destruct (_is_valid_annotation_key (strip key)) eqn:Hv; [|done].
  intros Hm Hres. apply (IH _ Hm). apply map_Forall_insert_2; [|done].
  split; [done|]. apply contains_strip.
  rewrite contains_app in Hp. by apply orb_false_iff in Hp as [_ Hp].
Qed.

(** X6. Every key of a map that [parse_annotations] returns is a key that
    [_is_valid_annotation_key] accepts, and no value holds a comma. *)
Theorem parse_annotations_keys_valid (raw : option string) (m : gmap string string) :
  parse_annotations raw = inr m →
  map_Forall (λ k v, _is_valid_annotation_key k = true ∧ contains "," v = false) m.
Proof.
  destruct raw as [text|]; [|intros [= <-]; apply map_Forall_empty].
  rewrite parse_annotations_segments. intros Hm.
  eapply parse_annotations_loop_keys; [|exact Hm|apply map_Forall_empty].
  apply Forall_forall. intros p (seg & Hin & -> & _)%elem_of_segments.
  apply contains_strip. pose proof (split_parts "," text) as Hparts.
  rewrite Forall_forall in Hparts. by apply Hparts.
Qed.

Lemma strip_app_blank_l l s : blank l = true → strip (l +:+ s) = strip s.
Proof. intros Hl. unfold strip. by rewrite lstrip_by_app_blank. Qed.

Lemma rstrip_by_app_keep p s t :
  rstrip_by p t ≠ EmptyString → rstrip_by p (s +:+ t) = s +:+ rstrip_by p t.
Proof.
  intros Ht. induction s as [|c s IH]; [done|].
  rewrite !append_cons, rstrip_by_cons, IH.
  destruct (s +:+ rstrip_by p t) eqn:Hs; [|done].
  apply append_eq_nil in Hs as [_ Hs]. done.
Qed.

Lemma strip_render_annotation l1 key l2 r1 value r2 :
  wf_annotation (Pair l1 key l2 r1 value r2) = true →
  ∃ v, strip (render (Pair l1 key l2 r1 value r2)) = (key +:+ l2) +:+ String "=" v
    ∧ contains "=" (key +:+ l2) = false ∧ strip (key +:+ l2) = key
    ∧ strip v = value ∧ contains "," (render (Pair l1 key l2 r1 value r2)) = false.
Proof.
  simpl. rewrite !andb_true_iff, negb_true_iff.
  intros [[[[[[[Hl1 Hl2] Hr1] Hr2] Hkey] Hkt] Hvt] Hvc].
  destruct (valid_key_chars key Hkey) as (Hf & Ha & _).
  assert (contains "=" key = false) as Heq by (by eapply contains_all_chars).
  assert (contains "," key = false) as Hcomma by (by eapply contains_all_chars).
  exists (rstrip_by isspace (r1 +:+ value +:+ r2)).
  assert (contains "=" (key +:+ l2) = false) as Hk.
  { by rewrite contains_app, Heq, (blank_no_char "=" l2). }
  split_and!; [|done|by apply strip_pad_r| |].
  - rewrite strip_app_blank_l by done.
    rewrite <- (append_assoc key l2).
    change ((key +:+ l2) +:+ "=" +:+ r1 +:+ value +:+ r2)
      with ((key +:+ l2) +:+ String "=" (r1 +:+ value +:+ r2)).
    unfold strip. rewrite lstrip_by_id.
    + rewrite rstrip_by_app_keep; rewrite rstrip_by_cons.
      * by rewrite andb_false_r.
      * by rewrite andb_false_r.
    + rewrite append_assoc, first_char_app by (by eapply holds_nonempty).
      by destruct (trimmed_inv key Hkt).
  - rewrite strip_rstrip. by apply strip_pad.
  - rewrite !contains_app, Hcomma, Hvc, (blank_no_char "," l1),
      (blank_no_char "," l2), (blank_no_char "," r1), (blank_no_char "," r2)
      by done.
    done.
Qed.

Lemma parse_annotations_loop_segments segs result :
  Forall (λ seg, wf_annotation seg = true) segs →
  parse_annotations_loop
    (filter (λ p, negb (is_empty p)) (strip <$> (render <$> segs))) result
  = inr (foldl (λ m kv, <[kv.1 := kv.2]> m) result (omap pair_of segs)).
Proof.
  intros Hwf. revert result.
  induction Hwf as [|seg segs Hseg Hwf IH]; intros result; [done|].
  rewrite !fmap_cons, filter_cons. destruct seg as [ws|l1 key l2 r1 value r2].
  - simpl in Hseg. simpl render. rewrite strip_blank by done. simpl. apply IH.
  - destruct (strip_render_annotation _ _ _ _ _ _ Hseg)
      as (v & -> & Hk & Hsk & Hsv & _).
    assert (is_empty ((key +:+ l2) +:+ String "=" v) = false) as Hne
      by (by destruct (key +:+ l2)).
    rewrite decide_True by (by rewrite Hne).
    rewrite (parse_annotations_loop_step _ _ result (key +:+ l2) v) by done.
    rewrite Hsk, Hsv. simpl in Hseg.
    assert (_is_valid_annotation_key key = true) as ->.
    { rewrite !andb_true_iff in Hseg. tauto. }
    rewrite IH. done.
Qed.

Lemma wf_annotation_no_comma seg :
  wf_annotation seg = true → contains "," (render seg) = false.
Proof.
  destruct seg as [ws|l1 key l2 r1 value r2].
  - simpl. by apply blank_no_char.
  - intros Hseg.
    by destruct (strip_render_annotation _ _ _ _ _ _ Hseg) as (v & ? & ? & ? & ? & ?).
Qed.

(** X7. An annotation text made of segments joined by commas -- each blank,
    or a trimmed key that [_is_valid_annotation_key] accepts and a trimmed
    value without a comma, possibly empty, around an equals sign, with any
    white space around them -- is parsed to the map of exactly the given
    pairs, the last value winning for a repeated key.  Blank segments,
    trailing commas among them, are skipped, and a text with no pair gives
    the empty map. *)
Theorem parse_annotations_csv_form (segs : list Segment) :
  Forall (λ seg, wf_annotation seg = true) segs →
  parse_annotations (Some (csv segs))
  = inr (list_to_map (reverse (omap pair_of segs))).
Proof.
  intros Hwf. rewrite parse_annotations_segments.
  destruct segs as [|seg segs]; [done|]. unfold csv.
  rewrite split_join.
  - rewrite parse_annotations_loop_segments by done.
    rewrite foldl_insert_list_to_map. by rewrite (right_id_L ∅ (∪)).
  - done.
  - rewrite Forall_fmap. eapply Forall_impl; [exact Hwf|].
    intros s. apply wf_annotation_no_comma.
Qed.

End annotation_properties.

(** * Further properties of the reconciliation *)

Section api_properties.
Context {Σ : Type} {lk : Lightkube Σ} {ipa : IpAddress}.
Implicit Types (w : World Σ) (a : Args.t).

Lemma desired_key_of a svc :
  desired (Σ := Σ) a = inr svc →
  key_of svc = (Args.namespace a, Args.app_name a +:+ "-lb").
Proof.
  unfold desired, validated_config.
  destruct (is_empty _); [done|]. destruct (is_empty _); [done|].
  destruct (decide _); [done|]. unfold mbind, exn_bind.
  destruct (_validate_port _ _); [done|]. destruct (_validate_port _ _); [done|].
  destruct (parse_fixed_ip _); [done|]. unfold _build_service.
  destruct lightkube_installed; [|done]. simpl. by intros [= <-].
Qed.

Lemma desired_error a e :
  desired (Σ := Σ) a = inl e → ∃ msg, e = ConfigError msg.
Proof.
  unfold desired. destruct (validated_config a) as [e'|cfg] eqn:Hc; simpl.
  - intros [= <-]. by eapply validated_config_error.
  - unfold _build_service. destruct lightkube_installed; [done|].
    intros [= <-]. by eexists.
Qed.

(** X8. [_build_service] loses nothing of a validated configuration: the
    objects built from two validated configurations are equal only if the
    configurations are. *)
Theorem build_service_injective (cfg1 cfg2 : ServiceConfig.t) (svc1 svc2 : Service.t) :
  validated cfg1 → validated cfg2 →
  _build_service (Σ := Σ) cfg1 = inr svc1 → _build_service (Σ := Σ) cfg2 = inr svc2 →
  svc1 = svc2 ↔ cfg1 = cfg2.
Proof.
  intros Hf1 Hf2 H1 H2. split; [|intros ->; congruence].
  intros ->. revert Hf1 Hf2 H1 H2.
  unfold validated, _build_service. destruct lightkube_installed; [|done]. simpl.
  destruct cfg1 as [n1 ns1 s1 tp1 lp1 a1 f1], cfg2 as [n2 ns2 s2 tp2 lp2 a2 f2].
  simpl. intros Hf1 Hf2 [= <-] H. apply (inj inr) in H.
  pose proof (f_equal (λ s, ObjectMeta.name (Service.metadata s)) H) as H1.
  pose proof (f_equal (λ s, ObjectMeta.namespace (Service.metadata s)) H) as H2.
  pose proof (f_equal (λ s, ObjectMeta.annotations (Service.metadata s)) H) as H3.
  pose proof (f_equal (λ s, ServiceSpec.loadBalancerIP (Service.spec s)) H) as H4.
  pose proof (f_equal (λ s, ServiceSpec.selector (Service.spec s)) H) as H5.
  pose proof (f_equal (λ s, ServiceSpec.ports (Service.spec s)) H) as H6.
  clear H. simpl in H1, H2, H3, H4, H5, H6. injection H6 as -> ->. subst.
  f_equal.
  - destruct (decide (a1 = ∅)), (decide (a2 = ∅)); by simplify_eq.
  - destruct f1 as [[|c1 f1]|], f2 as [[|c2 f2]|]; by simplify_eq.
Qed.

(** X9. For [ensure_loadbalancer_service], leaving the annotations out is
    the same as passing the empty map, and a blank [fixed_ip] -- the empty
    string that the charm passes when the option is not set -- is the same
    as leaving it out: the results and the requests sent are equal.  The
    object asked for then has no annotations and no [loadBalancerIP]. *)
Theorem ensure_optional_arguments
    (app_name namespace : string) (selector : gmap string string)
    (target_port lb_port : Z) (annotations : option (gmap string string))
    (fixed_ip : option string) (text : string) (w : World Σ) :
  blank text = true →
  ensure_loadbalancer_service app_name namespace selector target_port lb_port
    None fixed_ip w
  = ensure_loadbalancer_service app_name namespace selector target_port lb_port
      (Some ∅) fixed_ip w
  ∧ ensure_loadbalancer_service app_name namespace selector target_port lb_port
      annotations (Some text) w
    = ensure_loadbalancer_service app_name namespace selector target_port lb_port
        annotations None w
  ∧ ∀ svc,
      desired (Σ := Σ)
        (Args.mk app_name namespace selector target_port lb_port None (Some text))
      = inr svc →
      ObjectMeta.annotations (Service.metadata svc) = None
      ∧ ServiceSpec.loadBalancerIP (Service.spec svc) = None.
Proof.
  intros Hb. split_and!.
  - done.
  - unfold ensure_loadbalancer_service. by rewrite parse_fixed_ip_blank.
  - intros svc. unfold desired, validated_config.
    cbn [Args.app_name Args.namespace Args.selector Args.target_port
         Args.lb_port Args.annotations Args.fixed_ip].
    rewrite parse_fixed_ip_blank by done. simpl.
    destruct (is_empty app_name); [done|]. destruct (is_empty namespace); [done|].
    destruct (decide _); [done|]. unfold mbind, exn_bind.
    destruct (_validate_port _ _); [done|]. destruct (_validate_port _ _); [done|].
    simpl. unfold _build_service. destruct lightkube_installed; [|done]. simpl.
    by intros [= <-].
Qed.

Lemma reconcile_calls a w :
  ∃ new, calls (reconcile a w).2 = calls w ++ new
    ∧ (new = []
       ∨ ∃ svc, desired (Σ := Σ) a = inr svc
           ∧ (new = [(client_of a, Create svc)]
              ∨ new = [(client_of a, Create svc); (client_of a, Replace svc)])).
Proof.
  rewrite reconcile_unfold. destruct (desired a) as [e|svc] eqn:Hd.
  { exists []. split; [by rewrite app_nil_r|by left]. }
  rewrite create_or_replace_unfold.
  destruct (request (client_of a) (Create svc) (cluster w)) as [[[msg|st|msg|msg]|] σ1].
  all: try (exists [(client_of a, Create svc)]; split; [done|]; right; exists svc;
            split; [done|by left]).
  destruct (bool_decide _).
  - unfold call. simpl. destruct (request _ (Replace svc) σ1) as [res2 σ2]. simpl.
    exists [(client_of a, Create svc); (client_of a, Replace svc)].
    split; [by rewrite <- app_assoc|]. right. exists svc. split; [done|by right].
  - exists [(client_of a, Create svc)]. split; [done|]. right. exists svc.
    split; [done|by left].
Qed.

Lemma delete_calls app ns w :
  ∃ new, calls (delete_loadbalancer_service app ns w).2 = calls w ++ new
    ∧ (new = []
       ∨ new = [({| client_namespace := ns; field_manager := app |},
                 Delete (app +:+ "-lb") ns)]).
Proof.
  destruct (lightkube_installed (Σ := Σ)) eqn:Hi.
  - rewrite delete_unfold by done. cbv zeta.
    destruct (request _ _ (cluster w)) as [[[msg|st|msg|msg]|] σ1].
    all: try (eexists; split; [done|by right]).
    destruct (bool_decide _); eexists; (split; [done|by right]).
  - unfold delete_loadbalancer_service. rewrite Hi. simpl.
    exists []. split; [by rewrite app_nil_r|by left].
Qed.

(** Who sent a request: a [Reconcile] whose object it carries, or a
    [Remove] of the application of its client. *)
Lemma run_op_calls op w :
  ∃ new, calls (run_op op w).2 = calls w ++ new
    ∧ (length new ≤ 2)%nat
    ∧ Forall (λ cr,
        match cr.2 with
        | Create svc | Replace svc =>
            ∃ a, op = Reconcile a ∧ cr.1 = client_of a
              ∧ desired (Σ := Σ) a = inr svc
        | Delete name namespace =>
            op = Remove (field_manager cr.1) namespace
            ∧ client_namespace cr.1 = namespace
            ∧ name = field_manager cr.1 +:+ "-lb"
        end) new.
Proof.
  destruct op as [a|app ns]; simpl.
  - destruct (reconcile_calls a w) as (new & Hc & [->|(svc & Hd & [->| ->])]);
      eexists; (split; [exact Hc|]); simpl.
    + split; [lia|constructor].
    + split; [lia|]. repeat constructor. by exists a.
    + split; [lia|]. repeat constructor; by exists a.
  - destruct (delete_calls app ns w) as (new & Hc & [->| ->]);
      eexists; (split; [exact Hc|]); simpl.
    + split; [lia|constructor].
    + split; [lia|]. by repeat constructor.
Qed.

Lemma run_op_own op w :
  ∃ new, calls (run_op op w).2 = calls w ++ new
    ∧ (length new ≤ 2)%nat ∧ Forall own_request new.
Proof.
  destruct (run_op_calls op w) as (new & Hc & Hl & Hs).
  exists new. split_and!; [done..|]. eapply Forall_impl; [exact Hs|].
  intros [c r] Hr. unfold own_request. cbn [fst snd] in *.
  destruct r as [svc|svc|name ns]; cbn [target].
  - destruct Hr as (a & _ & -> & Hd). by rewrite (desired_key_of a svc Hd).
  - destruct Hr as (a & _ & -> & Hd). by rewrite (desired_key_of a svc Hd).
  - by destruct Hr as (_ & -> & ->).
Qed.

(** X10. Whatever the cluster answers, a run of [Reconcile] and [Remove]
    calls only adds requests to those sent before, at most two for each
    call.  Every request is about the Service of the application its client
    is made for -- the object named after the field manager, followed by
    [-lb], in the namespace of the client.  A [Create] or a [Replace]
    carries the object of a [Reconcile] of the run, and a [Delete] comes
    from a [Remove] of the run. *)
Theorem requests_are_own (ops : list Op) (w : World Σ) (history : list Event) :
  ∃ new, calls (run_ops ops w history).1 = calls w ++ new
    ∧ (length new ≤ 2 * length ops)%nat
    ∧ Forall own_request new
    ∧ Forall (λ cr,
        match cr.2 with
        | Create svc | Replace svc =>
            ∃ a, Reconcile a ∈ ops ∧ cr.1 = client_of a
              ∧ desired (Σ := Σ) a = inr svc
        | Delete name namespace =>
            Remove (field_manager cr.1) namespace ∈ ops
            ∧ client_namespace cr.1 = namespace
            ∧ name = field_manager cr.1 +:+ "-lb"
        end) new.
Proof.
  revert w history. induction ops as [|op ops IH]; intros w history.
  { exists []. simpl. rewrite app_nil_r. by split_and!. }
  simpl. destruct (run_op_calls op w) as (new1 & Hc1 & Hl1 & Hs1).
  destruct (run_op op w) as [res w1]. simpl in Hc1.
  destruct (IH w1 ({| ev_op := op; ev_result := res |} :: history))
    as (new2 & Hc2 & Hl2 & Ho2 & Hs2).
  exists (new1 ++ new2). split_and!.
  - by rewrite Hc2, Hc1, app_assoc.
  - rewrite length_app. simpl. lia.
  - apply Forall_app. split; [|done]. eapply Forall_impl; [exact Hs1|].
    intros [c r] Hr. unfold own_request. cbn [fst snd] in *.
    destruct r as [svc|svc|name ns]; cbn [target].
    + destruct Hr as (a & _ & -> & Hd). by rewrite (desired_key_of a svc Hd).
    + destruct Hr as (a & _ & -> & Hd). by rewrite (desired_key_of a svc Hd).
    + by destruct Hr as (_ & -> & ->).
  - apply Forall_app. split.
    + eapply Forall_impl; [exact Hs1|]. intros [c r] Hr. simpl in *.
      destruct r as [svc|svc|name ns].
      * destruct Hr as (a & -> & Hr). exists a. split; [by left|done].
      * destruct Hr as (a & -> & Hr). exists a. split; [by left|done].
      * destruct Hr as (-> & Hr). split; [by left|done].
    + eapply Forall_impl; [exact Hs2|]. intros [c r] Hr. simpl in *.
      destruct r as [svc|svc|name ns].
      * destruct Hr as (a & Hin & Hr). exists a. split; [by right|done].
      * destruct Hr as (a & Hin & Hr). exists a. split; [by right|done].
      * destruct Hr as (Hin & Hr). split; [by right|done].
Qed.

End api_properties.

Section cluster_properties.
Context {ipa : IpAddress}.
Implicit Types (w : World Cluster) (a : Args.t).

Lemma reference_reconcile_fault_free a svc w :
  faults (cluster w) = [] → desired (Σ := Cluster) a = inr svc →
  reconcile a w =
    (inr tt,
     {| cluster :=
          {| objects := <[key_of svc := {| obj := svc; manager := Args.app_name a |}]>
                          (objects (cluster w));
             faults := [] |};
        calls := calls w ++
          match objects (cluster w) !! key_of svc with
          | Some _ => [(client_of a, Create svc); (client_of a, Replace svc)]
          | None => [(client_of a, Create svc)]
          end |}).
Proof.
  intros Hf Hd. rewrite reconcile_unfold, Hd, create_or_replace_unfold.
  rewrite reference_request, Hf. simpl.
  destruct (objects (cluster w) !! key_of svc) as [st|] eqn:Hl; simpl; [|done].
  unfold call. simpl. rewrite reference_request. simpl. rewrite Hl. simpl.
  by rewrite <- app_assoc.
Qed.

Lemma run_op_frame op w k :
  k ≠ op_key op →
  objects (cluster (run_op op w).2) !! k = objects (cluster w) !! k.
Proof.
  destruct op as [a|app ns]; simpl; intros Hk.
  - pose proof (reference_reconcile a w) as Hr.
    destruct (reconcile a w) as [[e|[]] w']; simpl; [by rewrite Hr|].
    destruct Hr as (svc & Hd & ->).
    rewrite (desired_key_of a svc Hd). by rewrite lookup_insert_ne.
  - pose proof (reference_remove app ns w) as Hr.
    destruct (delete_loadbalancer_service app ns w) as [res w']; simpl.
    destruct Hr as [->|[_ ->]]; [done|]. by rewrite lookup_delete_ne.
Qed.

Lemma run_op_faults_nil op w :
  faults (cluster w) = [] → faults (cluster (run_op op w).2) = [].
Proof.
  intros Hf. destruct op as [a|app ns]; simpl.
  - destruct (desired (Σ := Cluster) a) as [e|svc] eqn:Hd.
    + by rewrite reconcile_unfold, Hd.
    + by rewrite (reference_reconcile_fault_free a svc w Hf Hd).
  - by rewrite reference_delete_fault_free.
Qed.

(** X11. On the reference cluster with no failure scheduled, a [Reconcile]
    with valid arguments succeeds whether or not the object exists: it
    sends [Create] alone when the object is absent, [Create] and then
    [Replace] when it is present, and leaves the object stored as desired.
    A second [Reconcile] with the same arguments succeeds too, through
    [Replace], and leaves the objects of the cluster as the first one left
    them. *)
Theorem reconcile_converges (a : Args.t) (svc : Service.t) (w : World Cluster) :
  faults (cluster w) = [] → desired (Σ := Cluster) a = inr svc →
  let key := (Args.namespace a, Args.app_name a +:+ "-lb") in
  let stored := {| obj := svc; manager := Args.app_name a |} in
  let first := reconcile a w in
  let second := reconcile a first.2 in
  first.1 = inr tt
  ∧ objects (cluster first.2) = <[key := stored]> (objects (cluster w))
  ∧ calls first.2 = calls w ++
      match objects (cluster w) !! key with
      | Some _ => [(client_of a, Create svc); (client_of a, Replace svc)]
      | None => [(client_of a, Create svc)]
      end
  ∧ second.1 = inr tt
  ∧ objects (cluster second.2) = objects (cluster first.2)
  ∧ calls second.2
    = calls first.2 ++ [(client_of a, Create svc); (client_of a, Replace svc)].
Proof.
  intros Hf Hd key stored first second. subst second first.
  rewrite (reference_reconcile_fault_free a svc w Hf Hd).
  cbn [fst snd cluster objects calls faults].
  rewrite (reference_reconcile_fault_free a svc) by done.
  cbn [fst snd cluster objects calls faults].
  pose proof (desired_key_of a svc Hd) as Hk. fold key in Hk. rewrite Hk.
  rewrite lookup_insert_eq, insert_insert_eq. by split_and!.
Qed.

(** X12. On the reference cluster, under any schedule of failures, a
    [Reconcile] or a [Remove] leaves every object other than its own -- the
    one named after the application, followed by [-lb], in the namespace --
    as it was; and a call that raises leaves all the objects as they
    were. *)
Theorem operations_touch_own_object (op : Op) (w : World Cluster) :
  (∀ k, k ≠ op_key op →
     objects (cluster (run_op op w).2) !! k = objects (cluster w) !! k)
  ∧ (∀ e, (run_op op w).1 = inl e →
       objects (cluster (run_op op w).2) = objects (cluster w)).
Proof.
  split; [intros k; apply run_op_frame|].
  destruct op as [a|app ns]; simpl.
  - pose proof (reference_reconcile a w) as Hr.
    by destruct (reconcile a w) as [[e|[]] w'].
  - pose proof (reference_remove app ns w) as Hr.
    destruct (delete_loadbalancer_service app ns w) as [res w']; simpl.
    intros e ->. by destruct Hr as [->|[? _]].
Qed.

(** X13. On the reference cluster with no failure scheduled, a [Remove]
    after a [Reconcile] of the same application succeeds and leaves the
    cluster without the object, hence as it was before when the object was
    absent; and a [Reconcile] after a [Remove] leaves the objects that the
    [Reconcile] alone leaves. *)
Theorem remove_undoes_reconcile (a : Args.t) (svc : Service.t) (w : World Cluster) :
  faults (cluster w) = [] → desired (Σ := Cluster) a = inr svc →
  let key := (Args.namespace a, Args.app_name a +:+ "-lb") in
  let remove_ := delete_loadbalancer_service (Args.app_name a) (Args.namespace a) in
  let removed := remove_ (reconcile a w).2 in
  let restored := reconcile a (remove_ w).2 in
  removed.1 = inr tt
  ∧ objects (cluster removed.2) = delete key (objects (cluster w))
  ∧ (objects (cluster w) !! key = None →
     objects (cluster removed.2) = objects (cluster w))
  ∧ restored.1 = inr tt
  ∧ objects (cluster restored.2) = objects (cluster (reconcile a w).2).
Proof.
  intros Hf Hd key remove_ removed restored. subst restored removed remove_.
  pose proof (desired_key_of a svc Hd) as Hk. fold key in Hk.
  rewrite (reference_reconcile_fault_free a svc w Hf Hd).
  rewrite (reference_delete_fault_free _ _ w Hf).
  cbn [fst snd cluster objects calls faults].
  rewrite (reference_reconcile_fault_free a svc) by done.
  rewrite reference_delete_fault_free by done.
  cbn [fst snd cluster objects calls faults]. rewrite Hk.
  split_and!.
  - done.
  - by rewrite delete_insert_eq.
  - intros Hl. rewrite delete_insert_eq. by apply delete_id.
  - done.
  - by rewrite insert_delete_eq.
Qed.

End cluster_properties.

(** * Properties of the charm *)

Section charm_properties.
Context {Σ : Type} {lk : Lightkube Σ} {ipa : IpAddress} {decoder : JsonDecoder}.
Implicit Types (u : Unit.t) (st : CharmState Σ) (a : Args.t).
#[local] Arguments parse_selector : simpl never.
#[local] Arguments parse_annotations : simpl never.
#[local] Arguments ensure_loadbalancer_service : simpl never.

Lemma parses_unique u a a' : parses u a → parses u a' → a = a'.
Proof.
  intros (raw & sel & tp & lp & ann & H1 & H2 & H3 & H4 & H5 & ->)
         (raw' & sel' & tp' & lp' & ann' & H1' & H2' & H3' & H4' & H5' & ->).
  congruence.
Qed.

Lemma parses_names u a :
  parses u a →
  Args.namespace a = Unit.model_name u ∧ Args.app_name a = Unit.app_name u.
Proof. by intros (raw & sel & tp & lp & ann & _ & _ & _ & _ & _ & ->). Qed.

Lemma reconcile_body_parses u a (w : World Σ) :
  parses u a → reconcile_body u w = reconcile a w.
Proof.
  intros (raw & sel & tp & lp & ann & H1 & H2 & H3 & H4 & H5 & ->).
  unfold reconcile_body. rewrite H1, H3, H4, H5. simpl.
  unfold mbind at 1, api_bind, lift. simpl. by rewrite H2.
Qed.

(** What the body of the [try] does: the module is called when the
    configuration parses, and nothing is sent otherwise. *)
Lemma reconcile_body_cases u (w : World Σ) :
  (∃ a, parses u a ∧ reconcile_body u w = reconcile a w)
  ∨ ((∀ a, ¬ parses u a) ∧ ∃ e, reconcile_body u w = (inl e, w)).
Proof.
  destruct (Config.selector (Unit.config u)) as [raw|] eqn:H1; cycle 1.
  { right. split.
    - intros a (raw & sel & tp & lp & ann & H1' & _). congruence.
    - unfold reconcile_body. rewrite H1. by eexists. }
  destruct (parse_selector (Some raw)) as [e|sel] eqn:H2.
  { right. split.
    - intros a (raw' & sel & tp & lp & ann & H1' & H2' & _). congruence.
    - unfold reconcile_body. rewrite H1. simpl.
      unfold mbind at 1, api_bind, lift. simpl. rewrite H2. by eexists. }
  destruct (Config.target_port (Unit.config u)) as [tp|] eqn:H3; cycle 1.
  { right. split.
    - intros a (raw' & sel' & tp & lp & ann & _ & _ & H3' & _). congruence.
    - unfold reconcile_body. rewrite H1, H3. simpl.
      unfold mbind at 1, api_bind, lift. simpl. rewrite H2. by eexists. }
  destruct (Config.lb_port (Unit.config u)) as [lp|] eqn:H4; cycle 1.
  { right. split.
    - intros a (raw' & sel' & tp' & lp & ann & _ & _ & _ & H4' & _). congruence.
    - unfold reconcile_body. rewrite H1, H3, H4. simpl.
      unfold mbind at 1, api_bind, lift. simpl. rewrite H2. by eexists. }
  destruct (parse_annotations
              (Some (default EmptyString
                       (Config.loadbalancer_annotations (Unit.config u)))))
    as [e|ann] eqn:H5.
  { right. split.
    - intros a (raw' & sel' & tp' & lp' & ann & _ & _ & _ & _ & H5' & _). congruence.
    - unfold reconcile_body. rewrite H1, H3, H4, H5. simpl.
      unfold mbind at 1, api_bind, lift. simpl. rewrite H2. by eexists. }
  left. exists (hook_args u sel ann tp lp).
  assert (parses u (hook_args u sel ann tp lp)) as Hp
    by (by exists raw, sel, tp, lp, ann).
  split; [done|]. by apply reconcile_body_parses.
Qed.

Lemma on_reconcile_leader u st :
  Unit.is_leader u = true →
  _on_reconcile u st =
    {| world := (reconcile_body u (world st)).2;
       statuses := statuses st ++
         [maintenance;
          match (reconcile_body u (world st)).1 with
          | inr _ => ready
          | inl (ConfigError msg) => BlockedStatus msg
          | inl e => BlockedStatus ("failed to reconcile service: " +:+ exn_str e)
          end] |}.
Proof.
  intros Hl. unfold _on_reconcile, set_status. rewrite Hl. simpl.
  destruct (reconcile_body u (world st)) as [[[msg|s|msg|msg]|[]] w]; simpl;
    by rewrite <- app_assoc.
Qed.

Lemma on_reconcile_non_leader u st :
  Unit.is_leader u = false →
  _on_reconcile u st = {| world := world st; statuses := statuses st ++ [waiting] |}.
Proof. intros Hl. unfold _on_reconcile. by rewrite Hl. Qed.

(** X14. While no unit is the leader, whatever hooks run, nothing is sent
    to the cluster: the cluster and the record of requests stay as they
    were.  Each [install], [config_changed] and [upgrade_charm] sets the
    status that waits for the leader, and nothing else sets one. *)
Theorem non_leader_changes_nothing (hooks : list (HookEvent * Unit.t)) st :
  Forall (λ h, Unit.is_leader h.2 = false) hooks →
  world (run_hooks hooks st) = world st
  ∧ statuses (run_hooks hooks st)
    = statuses st
      ++ replicate (length (filter (λ h, reconciles h.1 = true) hooks)) waiting.
Proof.
  intros Hall. revert st.
  induction Hall as [|[ev u] hooks Hl Hall IH]; intros st.
  { simpl. by rewrite app_nil_r. }
  simpl in Hl. simpl run_hooks. destruct (IH (CharmK8SLoadbalancerCharm u ev st))
    as [-> ->]. rewrite filter_cons. simpl.
  destruct ev; simpl; rewrite ?on_reconcile_non_leader by done; simpl.
  1-3: by rewrite <- app_assoc.
  - unfold _on_remove. by rewrite Hl.
  - done.
Qed.

(** X15. [_on_reconcile] on a unit that is not the leader sets the waiting
    status and sends nothing.  On the leader it sets the maintenance status
    and then one more: the ready status exactly when the configuration
    parses and [ensure_loadbalancer_service] returns, a [BlockedStatus]
    otherwise.  The cluster is left as the call of
    [ensure_loadbalancer_service] leaves it, and untouched when the
    configuration does not parse. *)
Theorem reconcile_reports_outcome u st :
  let st' := _on_reconcile u st in
  (Unit.is_leader u = false →
   st' = {| world := world st; statuses := statuses st ++ [waiting] |})
  ∧ (Unit.is_leader u = true →
     ∃ final, statuses st' = statuses st ++ [maintenance; final]
       ∧ (final = ready ↔
          ∃ a, parses u a ∧ reconcile a (world st) = (inr tt, world st'))
       ∧ (final ≠ ready → ∃ text, final = BlockedStatus text)
       ∧ ((∀ a, ¬ parses u a) → world st' = world st)
       ∧ (∀ a, parses u a → world st' = (reconcile a (world st)).2)).
Proof.
  intros st'. split; [apply on_reconcile_non_leader|]. intros Hl.
  subst st'. rewrite on_reconcile_leader by done. simpl.
  eexists. split; [done|].
  destruct (reconcile_body_cases u (world st))
    as [(a & Hp & ->)|(Hnp & e & ->)].
  - destruct (reconcile a (world st)) as [[e|[]] w] eqn:Hr; simpl; split_and!.
    + split; [by destruct e|].
      intros (a' & Hp' & Hr'). rewrite (parses_unique _ _ _ Hp' Hp), Hr in Hr'.
      done.
    + intros _. destruct e; by eexists.
    + intros Hnp. by destruct (Hnp a).
    + intros a' Hp'. by rewrite (parses_unique _ _ _ Hp' Hp), Hr.
    + split; [|done]. intros _. by exists a.
    + done.
    + intros Hnp. by destruct (Hnp a).
    + intros a' Hp'. by rewrite (parses_unique _ _ _ Hp' Hp), Hr.
  - simpl. split_and!.
    + split; [by destruct e|]. intros (a & Hp & _). by destruct (Hnp a).
    + intros _. destruct e; by eexists.
    + done.
    + intros a Hp. by destruct (Hnp a).
Qed.

(** X16. On the leader, a configuration that cannot be used blocks the unit
    before anything is sent, the first problem in the order of the code
    deciding the message.  A [selector], [target-port] or [lb-port] that is
    absent from the configuration is reported as a failure to reconcile,
    with the name of the option between quotes; a [ConfigError] of
    [parse_selector] or [parse_annotations], or of the checks that
    [ensure_loadbalancer_service] makes on its arguments, gives its own
    message as the status.  Every failure of [parse_annotations] and of
    those checks is a [ConfigError]. *)
Theorem leader_invalid_config_blocks u st :
  Unit.is_leader u = true →
  let config := Unit.config u in
  let annotations :=
    parse_annotations
      (Some (default EmptyString (Config.loadbalancer_annotations config))) in
  let blocked text :=
    _on_reconcile u st
    = {| world := world st;
         statuses := statuses st ++ [maintenance; BlockedStatus text] |} in
  (Config.selector config = None →
   blocked "failed to reconcile service: 'selector'")
  ∧ (∀ raw msg, Config.selector config = Some raw →
       parse_selector (Some raw) = inl (ConfigError msg) → blocked msg)
  ∧ (∀ raw selector, Config.selector config = Some raw →
       parse_selector (Some raw) = inr selector →
       (Config.target_port config = None →
        blocked "failed to reconcile service: 'target-port'")
       ∧ (∀ target_port, Config.target_port config = Some target_port →
            (Config.lb_port config = None →
             blocked "failed to reconcile service: 'lb-port'")
            ∧ (∀ lb_port, Config.lb_port config = Some lb_port →
                 (∀ e, annotations = inl e →
                    ∃ msg, e = ConfigError msg ∧ blocked msg)
                 ∧ (∀ ann e, annotations = inr ann →
                      desired (Σ := Σ)
                        (hook_args u selector ann target_port lb_port) = inl e →
                      ∃ msg, e = ConfigError msg ∧ blocked msg)))).
Proof.
  intros Hl config annotations blocked. subst blocked annotations config.
  rewrite on_reconcile_leader by done. unfold reconcile_body.
  split_and!.
  - by intros ->.
  - intros raw msg -> Hs. simpl. unfold mbind at 1, api_bind, lift. simpl.
    by rewrite Hs.
  - intros raw sel -> Hs. simpl. unfold mbind at 1, api_bind, lift. simpl.
    rewrite Hs. split; [by intros ->|]. intros tp ->. simpl.
    split; [by intros ->|]. intros lp ->. simpl. split.
    + intros e He. rewrite He.
      destruct (parse_annotations_config_error _ _ He) as [msg ->].
      by exists msg.
    + intros ann e -> Hd. destruct (desired_error _ _ Hd) as [msg ->].
      exists msg. split; [done|].
      unfold mbind, api_bind. simpl.
      change (ensure_loadbalancer_service (Unit.app_name u) (Unit.model_name u)
                sel tp lp (Some ann)
                (Some (default EmptyString (Config.fixed_ip (Unit.config u))))
                (world st))
        with (reconcile (hook_args u sel ann tp lp) (world st)).
      by rewrite reconcile_unfold, Hd.
Qed.

(** X17. Without the lightkube package nothing is ever sent, and the
    failure has the shape of a configuration error.
    [delete_loadbalancer_service] raises the [ConfigError] of the missing
    dependency; [ensure_loadbalancer_service] raises the [ConfigError] of
    the first argument it rejects, and that of the missing dependency when
    the arguments are valid.  The [remove] hook changes nothing, and the
    leader's reconcile hooks, on a valid configuration, block the unit with
    the message of the missing dependency. *)
Theorem missing_lightkube_is_config_error :
  lightkube_installed (Σ := Σ) = false →
  (∀ app_name namespace (w : World Σ),
     delete_loadbalancer_service app_name namespace w = (inl missing_lightkube, w))
  ∧ (∀ a (w : World Σ),
       reconcile a w
       = (inl match validated_config a with
              | inl e => e
              | inr _ => missing_lightkube
              end, w))
  ∧ (∀ u st, _on_remove u st = st)
  ∧ (∀ u st a cfg, Unit.is_leader u = true → parses u a →
       validated_config a = inr cfg →
       _on_reconcile u st
       = {| world := world st;
            statuses := statuses st ++
              [maintenance;
               BlockedStatus
                 "missing runtime dependency 'lightkube' (repack the charm after updating uv.lock)"] |}).
Proof.
  intros Hi.
  assert (∀ a (w : World Σ),
            reconcile a w
            = (inl match validated_config a with
                   | inl e => e
                   | inr _ => missing_lightkube
                   end, w)) as Hrec.
  { intros a w. rewrite reconcile_unfold. unfold desired.
    destruct (validated_config a) as [e|cfg]; [done|]. simpl.
    unfold _build_service. by rewrite Hi. }
  assert (∀ app ns (w : World Σ),
            delete_loadbalancer_service app ns w = (inl missing_lightkube, w))
    as Hdel.
  { intros app ns w. unfold delete_loadbalancer_service. by rewrite Hi. }
  split_and!; [done..| |].
  - intros u [w s]. unfold _on_remove. destruct (negb _); [done|].
    by rewrite Hdel.
  - intros u st a cfg Hl Hp Hc. rewrite on_reconcile_leader by done.
    by rewrite (reconcile_body_parses u a), Hrec, Hc.
Qed.

Lemma run_ops_world ops (w : World Σ) h1 h2 :
  (run_ops ops w h1).1 = (run_ops ops w h2).1.
Proof.
  revert w h1 h2. induction ops as [|op ops IH]; intros w h1 h2; [done|].
  simpl. destruct (run_op op w) as [res w']. apply IH.
Qed.

Lemma hook_world u ev st :
  world (CharmK8SLoadbalancerCharm u ev st) = world st
  ∨ ∃ op, hook_calls (ev, u) op
      ∧ world (CharmK8SLoadbalancerCharm u ev st) = (run_op op (world st)).2.
Proof.
  destruct (Unit.is_leader u) eqn:Hl; cycle 1.
  { left. destruct ev; simpl; rewrite ?on_reconcile_non_leader by done; try done.
    unfold _on_remove. by rewrite Hl. }
  assert (world (_on_reconcile u st) = world st
          ∨ ∃ a, parses u a
              ∧ world (_on_reconcile u st) = (reconcile a (world st)).2) as Hrec.
  { rewrite on_reconcile_leader by done. simpl.
    destruct (reconcile_body_cases u (world st))
      as [(a & Hp & ->)|(Hnp & e & ->)]; [right; by exists a|by left]. }
  destruct ev; simpl; try (by left).
  1-3: destruct Hrec as [?|(a & Hp & Ha)]; [by left|right];
       exists (Reconcile a); by split.
  right. exists (Remove (Unit.app_name u) (Unit.model_name u)).
  split; [done|]. unfold _on_remove. by rewrite Hl.
Qed.

Lemma run_hooks_ops (hooks : list (HookEvent * Unit.t)) st :
  ∃ ops, (length ops ≤ length hooks)%nat
    ∧ Forall (λ op, ∃ h, h ∈ hooks ∧ hook_calls h op) ops
    ∧ ∀ history,
        world (run_hooks hooks st) = (run_ops ops (world st) history).1.
Proof.
  revert st. induction hooks as [|[ev u] hooks IH]; intros st.
  { exists []. by split_and!. }
  simpl run_hooks.
  destruct (IH (CharmK8SLoadbalancerCharm u ev st)) as (ops & Hlen & Hops & Hw).
  assert (Forall (λ op, ∃ h, h ∈ (ev, u) :: hooks ∧ hook_calls h op) ops) as Hops'.
  { eapply Forall_impl; [exact Hops|]. intros op (h & Hin & Hh).
    exists h. split; [by right|done]. }
  destruct (hook_world u ev st) as [Heq|(op & Hop & Heq)].
  - exists ops. split_and!; [simpl; lia|done|].
    intros history. by rewrite (Hw history), Heq.
  - exists (op :: ops). split_and!; [simpl; lia| |].
    + constructor; [|done]. exists (ev, u). split; [by left|done].
    + intros history. rewrite (Hw []), Heq. simpl.
      destruct (run_op op (world st)) as [res w']. apply run_ops_world.
Qed.

(** X18. What a run of hooks does to the cluster is what a run of calls of
    the two entry points does, with at most one call for each hook: a
    [Reconcile] with the parsed configuration for a leader's [install],
    [config_changed] or [upgrade_charm], a [Remove] of the application in
    the model for a leader's [remove].  The charm sends nothing of its own:
    the hooks only add requests to those sent before, at most two for each
    hook, each about the Service of the application its client is made
    for. *)
Theorem hooks_run_operations (hooks : list (HookEvent * Unit.t)) st :
  ∃ ops, (length ops ≤ length hooks)%nat
    ∧ Forall (λ op, ∃ h, h ∈ hooks ∧ hook_calls h op) ops
    ∧ (∀ history,
         world (run_hooks hooks st) = (run_ops ops (world st) history).1)
    ∧ ∃ new, calls (world (run_hooks hooks st)) = calls (world st) ++ new
        ∧ (length new ≤ 2 * length hooks)%nat ∧ Forall own_request new.
Proof.
  revert st. induction hooks as [|[ev u] hooks IH]; intros st.
  { exists []. split_and!; [done..|]. exists []. simpl.
    by rewrite app_nil_r. }
  simpl run_hooks.
  destruct (IH (CharmK8SLoadbalancerCharm u ev st))
    as (ops & Hlen & Hops & Hw & new & Hc & Hn & Hown).
  assert (Forall (λ op, ∃ h, h ∈ (ev, u) :: hooks ∧ hook_calls h op) ops) as Hops'.
  { eapply Forall_impl; [exact Hops|]. intros op (h & Hin & Hh).
    exists h. split; [by right|done]. }
  destruct (hook_world u ev st) as [Heq|(op & Hop & Heq)].
  - exists ops. split_and!; [simpl; lia|done| |].
    + intros history. by rewrite (Hw history), Heq.
    + exists new. rewrite Hc, Heq. split_and!; [done|simpl; lia|done].
  - exists (op :: ops). split_and!; [simpl; lia| | |].
    + constructor; [|done]. exists (ev, u). split; [by left|done].
    + intros history. rewrite (Hw []), Heq. simpl.
      destruct (run_op op (world st)) as [res w']. apply run_ops_world.
    + destruct (run_op_own op (world st)) as (new1 & Hc1 & Hl1 & Hown1).
      exists (new1 ++ new). rewrite Hc, Heq, Hc1. split_and!.
      * by rewrite app_assoc.
      * rewrite length_app. simpl. lia.
      * by apply Forall_app.
Qed.

End charm_properties.

Section charm_cluster_properties.
Context {ipa : IpAddress} {decoder : JsonDecoder}.
Implicit Types (u : Unit.t) (st : CharmState Cluster) (a : Args.t)
  (w : World Cluster).
#[local] Arguments parse_selector : simpl never.
#[local] Arguments parse_annotations : simpl never.
#[local] Arguments ensure_loadbalancer_service : simpl never.

Lemma hook_calls_key h op :
  hook_calls h op → op_key op = (Unit.model_name h.2, Unit.app_name h.2 +:+ "-lb").
Proof.
  intros [_ Hop]. destruct op as [a|app ns]; simpl.
  - destruct Hop as [_ [-> ->]%parses_names]. done.
  - by destruct Hop as (_ & -> & ->).
Qed.

Lemma hook_frame u ev st k :
  k ≠ (Unit.model_name u, Unit.app_name u +:+ "-lb") →
  objects (cluster (world (CharmK8SLoadbalancerCharm u ev st))) !! k
  = objects (cluster (world st)) !! k.
Proof.
  intros Hk. destruct (hook_world u ev st) as [->|(op & Hop & ->)]; [done|].
  apply run_op_frame. by rewrite (hook_calls_key _ _ Hop).
Qed.

Lemma hook_faults_nil u ev st :
  faults (cluster (world st)) = [] →
  faults (cluster (world (CharmK8SLoadbalancerCharm u ev st))) = [].
Proof.
  intros Hf. destruct (hook_world u ev st) as [->|(op & Hop & ->)]; [done|].
  by apply run_op_faults_nil.
Qed.

Lemma run_hooks_app (hooks1 hooks2 : list (HookEvent * Unit.t)) st :
  run_hooks (hooks1 ++ hooks2) st = run_hooks hooks2 (run_hooks hooks1 st).
Proof.
  revert st. induction hooks1 as [|[ev u] hooks1 IH]; intros st; [done|].
  simpl. apply IH.
Qed.

(** X19. On the reference cluster, under any schedule of failures: when
    [_on_reconcile] leaves the ready status, the unit is the leader, its
    configuration parses, [ensure_loadbalancer_service] has returned, and
    the cluster holds, under the name of the application followed by [-lb]
    in the namespace of the model, the Service object that the parsed
    configuration asks for. *)
Theorem active_status_means_service_present u st :
  last (statuses (_on_reconcile u st)) = Some ready →
  Unit.is_leader u = true
  ∧ ∃ a svc, parses u a ∧ desired (Σ := Cluster) a = inr svc
      ∧ reconcile a (world st) = (inr tt, world (_on_reconcile u st))
      ∧ objects (cluster (world (_on_reconcile u st)))
          !! (Unit.model_name u, Unit.app_name u +:+ "-lb")
        = Some {| obj := svc; manager := Unit.app_name u |}.
Proof.
  destruct (Unit.is_leader u) eqn:Hl; cycle 1.
  { rewrite on_reconcile_non_leader by done. simpl. by rewrite last_snoc. }
  rewrite on_reconcile_leader by done. simpl.
  rewrite last_app_cons, last_cons_cons, last_singleton.
  destruct (reconcile_body_cases u (world st))
    as [(a & Hp & ->)|(Hnp & e & ->)]; [|by destruct e].
  pose proof (reference_reconcile a (world st)) as Hr.
  destruct (reconcile a (world st)) as [[e|[]] w'] eqn:Hrec; [by destruct e|].
  intros _. split; [done|]. destruct Hr as (svc & Hd & Hobjs).
  exists a, svc. split_and!; [done..|]. simpl. rewrite Hobjs.
  rewrite (desired_key_of a svc Hd).
  destruct (parses_names u a Hp) as [-> ->]. by rewrite lookup_insert_eq.
Qed.

(** X20. On the reference cluster with no failure scheduled, a reconcile
    hook on the leader, with a configuration that parses to valid arguments,
    sets the maintenance status and then the ready status, and leaves the
    Service object of the configuration stored under the name of the
    application followed by [-lb].  Running the hook again sets the same two
    statuses and leaves the objects of the cluster as they are. *)
Theorem leader_reconcile_converges u st a svc :
  Unit.is_leader u = true → parses u a → desired (Σ := Cluster) a = inr svc →
  faults (cluster (world st)) = [] →
  let key := (Unit.model_name u, Unit.app_name u +:+ "-lb") in
  let first := _on_reconcile u st in
  let second := _on_reconcile u first in
  statuses first = statuses st ++ [maintenance; ready]
  ∧ objects (cluster (world first))
    = <[key := {| obj := svc; manager := Unit.app_name u |}]>
        (objects (cluster (world st)))
  ∧ statuses second = statuses first ++ [maintenance; ready]
  ∧ objects (cluster (world second)) = objects (cluster (world first)).
Proof.
  intros Hl Hp Hd Hf key first second. subst second first.
  pose proof (desired_key_of a svc Hd) as Hk.
  destruct (parses_names u a Hp) as [Hns Happ]. rewrite Hns, Happ in Hk.
  fold key in Hk.
  assert (∀ st0, faults (cluster (world st0)) = [] →
            _on_reconcile u st0
            = {| world :=
                   {| cluster :=
                        {| objects :=
                             <[key := {| obj := svc; manager := Unit.app_name u |}]>
                               (objects (cluster (world st0)));
                           faults := [] |};
                      calls := calls (world (_on_reconcile u st0)) |};
                 statuses := statuses st0 ++ [maintenance; ready] |}) as Hstep.
  { intros st0 Hf0. rewrite on_reconcile_leader by done.
    rewrite (reconcile_body_parses u a) by done.
    rewrite (reference_reconcile_fault_free a svc _ Hf0 Hd). simpl.
    by rewrite Hk, Happ. }
  rewrite (Hstep st Hf). simpl. rewrite Hstep by done. simpl.
  by rewrite insert_insert_eq.
Qed.

Lemma last_reconciled_some ns app history svc :
  last_reconciled (Σ := Cluster) ns app history = Some svc →
  ∃ ev a, ev ∈ history ∧ ev_op ev = Reconcile a
    ∧ Args.namespace a = ns ∧ Args.app_name a = app
    ∧ desired (Σ := Cluster) a = inr svc.
Proof.
  induction history as [|ev history IH]; [done|]. simpl.
  assert (last_reconciled (Σ := Cluster) ns app history = Some svc →
          ∃ ev' a, ev' ∈ ev :: history ∧ ev_op ev' = Reconcile a
            ∧ Args.namespace a = ns ∧ Args.app_name a = app
            ∧ desired (Σ := Cluster) a = inr svc) as IH'.
  { intros (ev' & a & Hin & H)%IH. exists ev', a. split; [by right|done]. }
  destruct (ev_op ev) as [a|app' ns'] eqn:Hop; [|done].
  destruct (ev_result ev); [done|].
  destruct (decide _) as [[Hns Happ]|_]; [|done].
  destruct (desired (Σ := Cluster) a) as [e|svc'] eqn:Hd; [done|].
  intros [= <-]. exists ev, a. split_and!; try done. by left.
Qed.

Lemma run_ops_history ops w history ev :
  ev ∈ (run_ops ops w history).2 → ev ∈ history ∨ ev_op ev ∈ ops.
Proof.
  revert w history. induction ops as [|op ops IH]; intros w history; [by left|].
  simpl. destruct (run_op op w) as [res w'].
  intros [[->|?]%elem_of_cons|?]%IH.
  - right. by left.
  - by left.
  - right. by right.
Qed.

(** X21. Run any hooks, on any units, from the empty reference cluster
    and under any schedule of failures.  Every Service object in the cluster
    is then named after the field manager that wrote it, followed by [-lb],
    and was asked for by a reconcile hook of the run: a hook on a leader of
    that application in that model, whose configuration parses to the
    arguments that the object is built from. *)
Theorem charm_objects_configured (schedule : list (option Exn))
    (hooks : list (HookEvent * Unit.t)) :
  let st := run_hooks hooks {| world := initial schedule; statuses := [] |} in
  ∀ namespace name stored,
    objects (cluster (world st)) !! (namespace, name) = Some stored →
    name = manager stored +:+ "-lb"
    ∧ ∃ ev u a, (ev, u) ∈ hooks ∧ Unit.is_leader u = true ∧ reconciles ev = true
        ∧ Unit.model_name u = namespace ∧ Unit.app_name u = manager stored
        ∧ parses u a ∧ desired (Σ := Cluster) a = inr (obj stored).
Proof.
  intros st ns name s Hs. subst st.
  destruct (run_hooks_ops hooks {| world := initial schedule; statuses := [] |})
    as (ops & _ & Hops & Hw).
  rewrite (Hw []) in Hs. simpl in Hs.
  assert (consistent (run_ops ops (initial schedule) []).1
            (run_ops ops (initial schedule) []).2) as Hc.
  { apply run_ops_consistent. intros ns' name' st' Hst'. simpl in Hst'.
    by rewrite lookup_empty in Hst'. }
  destruct (Hc _ _ _ Hs) as [Hname Hlast]. split; [done|].
  apply last_reconciled_some in Hlast as (ev & a & Hin & Hop & Hns & Happ & Hd).
  apply run_ops_history in Hin as [Hin|Hin]; [by apply elem_of_nil in Hin|].
  rewrite Hop in Hin. rewrite Forall_forall in Hops.
  destruct (Hops _ Hin) as ([ev' u] & Hh & Hl & Hrec & Hp). simpl in *.
  destruct (parses_names u a Hp) as [Hns' Happ'].
  exists ev', u, a. split_and!; try done; congruence.
Qed.

(** X22. On the reference cluster with no failure scheduled: after any
    hooks of one application in one model, the [remove] hook on the leader
    leaves the cluster as it was before those hooks, without the Service of
    the application; it sets no status. *)
Theorem remove_hook_cleans_up (hooks : list (HookEvent * Unit.t)) u st :
  faults (cluster (world st)) = [] →
  Forall (λ h, Unit.app_name h.2 = Unit.app_name u
               ∧ Unit.model_name h.2 = Unit.model_name u) hooks →
  Unit.is_leader u = true →
  let key := (Unit.model_name u, Unit.app_name u +:+ "-lb") in
  let after := run_hooks (hooks ++ [(remove, u)]) st in
  objects (cluster (world after)) = delete key (objects (cluster (world st)))
  ∧ statuses after = statuses (run_hooks hooks st).
Proof.
  intros Hf Hall Hl key after. subst after. rewrite run_hooks_app. simpl.
  assert (faults (cluster (world (run_hooks hooks st))) = []
          ∧ ∀ k, k ≠ key →
              objects (cluster (world (run_hooks hooks st))) !! k
              = objects (cluster (world st)) !! k) as [Hf' Hframe].
  { clear Hl. revert st Hf.
    induction Hall as [|[ev u'] hooks [Happ Hns] Hall IH]; intros st Hf; [done|].
    simpl in Happ, Hns. simpl run_hooks.
    destruct (IH (CharmK8SLoadbalancerCharm u' ev st)) as [Hf' Hframe].
    { by apply hook_faults_nil. }
    split; [done|]. intros k Hk. rewrite Hframe by done.
    apply hook_frame. by rewrite Hns, Happ. }
  unfold _on_remove. rewrite Hl. simpl.
  rewrite reference_delete_fault_free by done. simpl. split; [|done].
  apply map_eq. intros k. destruct (decide (k = key)) as [->|Hk].
  - by rewrite !lookup_delete_eq.
  - rewrite !lookup_delete_ne by done. by apply Hframe.
Qed.

End charm_cluster_properties.

(** * The further properties on concrete inputs *)

Section property_witnesses.

Lemma parse_fixed_ip_padding_witness :
  (blank " 10.0.0.1 " = false ∧ ip_address (strip " 10.0.0.1 ") = Some "10.0.0.1"
   ∧ parse_fixed_ip (Some " 10.0.0.1 ") = inr (Some "10.0.0.1"))
  ∧ (blank " 10.0.0.256 " = false ∧ ip_address (strip " 10.0.0.256 ") = None
     ∧ parse_fixed_ip (Some " 10.0.0.256 ")
       = inl (ConfigError "fixed-ip must be a valid IPv4 or IPv6 address")).
Proof.
  split.
  - split; [reflexivity|]. split; [reflexivity|].
    exact (proj1 (proj2 (proj2 (proj2 (parse_fixed_ip_padding (ipa := reference_ipv4)))))
             " 10.0.0.1 " "10.0.0.1" eq_refl eq_refl).
  - split; [reflexivity|]. split; [reflexivity|].
    exact (proj1 (proj2 (proj2 (proj2 (proj2
             (parse_fixed_ip_padding (ipa := reference_ipv4))))))
             " 10.0.0.256 " eq_refl eq_refl).
Defined.

Lemma parse_selector_json_object_witness :
  startswith "{" (strip (RefJson.q " {'app': 'myapp'} ")) = true
  ∧ json_loads (strip (RefJson.q " {'app': 'myapp'} "))
    = inr (JDict (JStr <$> ({[ "app" := "myapp" ]} : gmap string string)))
  ∧ parse_selector (Some (RefJson.q " {'app': 'myapp'} "))
    = inr {[ "app" := "myapp" ]}.
Proof.
  assert (startswith "{" (strip (RefJson.q " {'app': 'myapp'} ")) = true) as Hj
    by reflexivity.
  assert (json_loads (strip (RefJson.q " {'app': 'myapp'} "))
          = inr (JDict (JStr <$> ({[ "app" := "myapp" ]} : gmap string string))))
    as Hl by (by vm_compute).
  split; [exact Hj|]. split; [exact Hl|].
  apply (proj1 (parse_selector_json_object (decoder := reference_json) _ Hj)).
  split; [exact Hl|]. apply map_non_empty_singleton.
Defined.

Lemma parse_selector_errors_witness :
  parse_selector (Some "app=myapp,=x")
  = inl selector_pair_error
  ∧ (selector_pair_error = ConfigError "selector must not be empty"
     ∨ selector_pair_error = selector_format_error
     ∨ selector_pair_error = selector_pair_error).
Proof.
  assert (parse_selector (Some "app=myapp,=x")
          = inl selector_pair_error) as H by reflexivity.
  split; [exact H|].
  exact (parse_selector_errors (decoder := reference_json) _ _ H).
Defined.

Lemma valid_annotation_key_shape_witness :
  _is_valid_annotation_key "service.beta.kubernetes.io/aws-load-balancer-type" = true
  ∧ (count_char "/" "service.beta.kubernetes.io/aws-load-balancer-type" ≤ 1)%nat
  ∧ contains "=" "service.beta.kubernetes.io/aws-load-balancer-type" = false.
Proof.
  assert (_is_valid_annotation_key
            "service.beta.kubernetes.io/aws-load-balancer-type" = true) as H
    by reflexivity.
  split; [exact H|].
  destruct (valid_annotation_key_shape _ H) as (_ & Hc & _ & _ & _ & He & _).
  split; [exact Hc|exact He].
Defined.

Lemma parse_annotations_errors_witness :
  parse_annotations (Some "a=b, not a key = c")
  = inl (ConfigError "invalid annotation key: 'not a key'")
  ∧ ∃ text, Some "a=b, not a key = c" = Some text
      ∧ ((ConfigError "invalid annotation key: 'not a key'" = annotation_format_error
          ∧ ∃ seg, seg ∈ split "," text ∧ strip seg ≠ EmptyString
              ∧ contains "=" (strip seg) = false)
         ∨ ∃ seg key value, seg ∈ split "," text
             ∧ strip seg = key +:+ String "=" value ∧ contains "=" key = false
             ∧ _is_valid_annotation_key (strip key) = false
             ∧ ConfigError "invalid annotation key: 'not a key'"
               = ConfigError ("invalid annotation key: " +:+ repr (strip key))).
Proof.
  assert (parse_annotations (Some "a=b, not a key = c")
          = inl (ConfigError "invalid annotation key: 'not a key'")) as H
    by reflexivity.
  split; [exact H|]. exact (parse_annotations_errors _ _ H).
Defined.

Lemma parse_annotations_keys_valid_witness :
  parse_annotations (Some "example.com/a = b c ,x=")
  = inr (<["x" := EmptyString]> {[ "example.com/a" := "b c" ]})
  ∧ map_Forall (λ k v, _is_valid_annotation_key k = true ∧ contains "," v = false)
      (<["x" := EmptyString]> {[ "example.com/a" := "b c" ]} : gmap string string).
Proof.
  assert (parse_annotations (Some "example.com/a = b c ,x=")
          = inr (<["x" := EmptyString]> {[ "example.com/a" := "b c" ]})) as H
    by reflexivity.
  split; [exact H|]. exact (parse_annotations_keys_valid _ _ H).
Defined.

Lemma parse_annotations_csv_form_witness :
  let segs := [Pair " " "example.com/a" EmptyString " " "b c" EmptyString;
               Blank " ";
               Pair EmptyString "x" " " EmptyString EmptyString " ";
               Pair EmptyString "example.com/a" EmptyString EmptyString "d"
                 EmptyString;
               Blank EmptyString] in
  Forall (λ seg, wf_annotation seg = true) segs
  ∧ csv segs = " example.com/a= b c, ,x = ,example.com/a=d,"
  ∧ parse_annotations (Some (csv segs))
    = inr (list_to_map (reverse (omap pair_of segs)))
  ∧ (list_to_map (reverse (omap pair_of segs)) : gmap string string)
    = <["x" := EmptyString]> {[ "example.com/a" := "d" ]}.
Proof.
  intros segs.
  assert (Forall (λ seg, wf_annotation seg = true) segs) as Hwf
    by (repeat constructor).
  split; [exact Hwf|]. split; [reflexivity|].
  split; [exact (parse_annotations_csv_form segs Hwf)|]. by vm_compute.
Defined.

Lemma build_service_injective_witness :
  let other := ServiceConfig.mk "myapp-lb" "ns1" {[ "app" := "myapp" ]} 8080 80 ∅
                 (Some "10.0.0.1") in
  validated sample_config ∧ validated other
  ∧ _build_service (Σ := Cluster) sample_config = inr sample_service
  ∧ (∀ svc, _build_service (Σ := Cluster) other = inr svc → svc ≠ sample_service).
Proof.
  intros other.
  assert (validated sample_config) as H1 by discriminate.
  assert (validated other) as H2 by discriminate.
  assert (_build_service (Σ := Cluster) sample_config = inr sample_service) as H3
    by reflexivity.
  split; [exact H1|]. split; [exact H2|]. split; [exact H3|].
  intros svc Hsvc Heq.
  pose proof (proj1 (build_service_injective (Σ := Cluster) other sample_config
                       svc sample_service H2 H1 Hsvc H3) Heq) as Hcfg.
  discriminate Hcfg.
Defined.

Lemma ensure_optional_arguments_witness :
  blank "  " = true
  ∧ ensure_loadbalancer_service "myapp" "ns1" {[ "app" := "myapp" ]} 8080 80
      (Some ∅) (Some "  ") (initial [])
    = ensure_loadbalancer_service "myapp" "ns1" {[ "app" := "myapp" ]} 8080 80
        (Some ∅) None (initial []).
Proof.
  split; [reflexivity|].
  exact (proj1 (proj2 (ensure_optional_arguments (Σ := Cluster) "myapp" "ns1"
                         {[ "app" := "myapp" ]} 8080 80 (Some ∅) None "  "
                         (initial []) eq_refl))).
Defined.

Lemma reconcile_converges_witness :
  faults (cluster (initial [])) = []
  ∧ desired (Σ := Cluster) sample_args = inr sample_service
  ∧ (reconcile sample_args (reconcile sample_args (initial [])).2).1 = inr tt
  ∧ objects (cluster (reconcile sample_args (reconcile sample_args (initial [])).2).2)
    = objects (cluster (reconcile sample_args (initial [])).2).
Proof.
  assert (faults (cluster (initial [])) = []) as Hf by reflexivity.
  assert (desired (Σ := Cluster) sample_args = inr sample_service) as Hd
    by reflexivity.
  split; [exact Hf|]. split; [exact Hd|].
  destruct (reconcile_converges sample_args sample_service (initial []) Hf Hd)
    as (_ & _ & _ & H4 & H5 & _).
  split; [exact H4|exact H5].
Defined.

Lemma operations_touch_own_object_witness :
  ("ns1", "other-lb") ≠ op_key (Reconcile sample_args)
  ∧ objects (cluster (run_op (Reconcile sample_args) (initial [])).2)
      !! ("ns1", "other-lb")
    = objects (cluster (initial [])) !! ("ns1", "other-lb").
Proof.
  assert (("ns1", "other-lb") ≠ op_key (Reconcile sample_args)) as H
    by discriminate.
  split; [exact H|].
  exact (proj1 (operations_touch_own_object (Reconcile sample_args) (initial []))
           _ H).
Defined.

Lemma remove_undoes_reconcile_witness :
  faults (cluster (initial [])) = []
  ∧ desired (Σ := Cluster) sample_args = inr sample_service
  ∧ objects (cluster (delete_loadbalancer_service "myapp" "ns1"
                        (reconcile sample_args (initial [])).2).2)
    = delete ("ns1", "myapp-lb") (objects (cluster (initial []))).
Proof.
  assert (faults (cluster (initial [])) = []) as Hf by reflexivity.
  assert (desired (Σ := Cluster) sample_args = inr sample_service) as Hd
    by reflexivity.
  split; [exact Hf|]. split; [exact Hd|].
  exact (proj1 (proj2 (remove_undoes_reconcile sample_args sample_service
                         (initial []) Hf Hd))).
Defined.

Lemma non_leader_changes_nothing_witness :
  let hooks := [(install, sample_follower); (config_changed, sample_follower);
                (remove, sample_follower)] in
  Forall (λ h, Unit.is_leader h.2 = false) hooks
  ∧ world (run_hooks hooks fresh) = initial []
  ∧ statuses (run_hooks hooks fresh) = [waiting; waiting].
Proof.
  intros hooks.
  assert (Forall (λ h, Unit.is_leader h.2 = false) hooks) as H
    by (repeat constructor).
  split; [exact H|].
  exact (non_leader_changes_nothing (Σ := Cluster) (decoder := reference_json)
           hooks fresh H).
Defined.

Lemma reconcile_reports_outcome_witness :
  Unit.is_leader sample_unit = true
  ∧ ∃ final,
      statuses (_on_reconcile sample_unit fresh)
      = [maintenance; final]
      ∧ (final = ready ↔
         ∃ a, parses sample_unit a
           ∧ reconcile a (initial [])
             = (inr tt, world (_on_reconcile sample_unit fresh))).
Proof.
  split; [reflexivity|].
  destruct (proj2 (reconcile_reports_outcome (Σ := Cluster)
                     (decoder := reference_json) sample_unit fresh) eq_refl)
    as (final & Hs & Hr & _).
  exists final. split; [exact Hs|exact Hr].
Defined.

Lemma leader_invalid_config_blocks_witness :
  Unit.is_leader sample_unset = true
  ∧ Config.selector (Unit.config sample_unset) = None
  ∧ _on_reconcile sample_unset fresh
    = {| world := initial [];
         statuses := [maintenance;
                      BlockedStatus "failed to reconcile service: 'selector'"] |}.
Proof.
  split; [reflexivity|]. split; [reflexivity|].
  exact (proj1 (leader_invalid_config_blocks (Σ := Cluster)
                  (decoder := reference_json) sample_unset fresh eq_refl) eq_refl).
Defined.

Lemma missing_lightkube_is_config_error_witness :
  @lightkube_installed unit no_lightkube = false
  ∧ delete_loadbalancer_service (Σ := unit) (H := no_lightkube) "myapp" "ns1"
      {| cluster := tt; calls := [] |}
    = (inl missing_lightkube, {| cluster := tt; calls := [] |})
  ∧ reconcile (Σ := unit) (H := no_lightkube) sample_args {| cluster := tt; calls := [] |}
    = (inl missing_lightkube, {| cluster := tt; calls := [] |}).
Proof.
  split; [reflexivity|].
  destruct (missing_lightkube_is_config_error (Σ := unit) (lk := no_lightkube)
              (ipa := reference_ipv4) (decoder := reference_json) eq_refl)
    as (Hd & Hr & _).
  split; [exact (Hd "myapp" "ns1" _)|exact (Hr sample_args _)].
Defined.

Lemma active_status_means_service_present_witness :
  last (statuses (_on_reconcile sample_unit fresh))
  = Some ready
  ∧ ∃ a svc, parses sample_unit a
      ∧ desired (Σ := Cluster) a = inr svc
      ∧ objects (cluster (world (_on_reconcile
                                   sample_unit fresh)))
          !! ("ns1", "myapp-lb")
        = Some {| obj := svc; manager := "myapp" |}.
Proof.
  assert (last (statuses (_on_reconcile sample_unit fresh))
          = Some ready) as H by reflexivity.
  split; [exact H|].
  destruct (active_status_means_service_present (decoder := reference_json)
              sample_unit fresh H) as (_ & a & svc & Hp & Hd & _ & Ho).
  exists a, svc. split; [exact Hp|]. split; [exact Hd|exact Ho].
Defined.

Lemma sample_unit_parses : parses sample_unit sample_hook_args.
Proof.
  exists "app=myapp", {[ "app" := "myapp" ]}, 8080, 80, ∅.
  repeat split; reflexivity.
Defined.

Lemma leader_reconcile_converges_witness :
  Unit.is_leader sample_unit = true
  ∧ parses sample_unit sample_hook_args
  ∧ desired (Σ := Cluster) sample_hook_args = inr sample_service
  ∧ faults (cluster (world fresh)) = []
  ∧ statuses (_on_reconcile sample_unit fresh)
    = [maintenance; ready]
  ∧ objects (cluster (world (_on_reconcile sample_unit fresh)))
    = {[ ("ns1", "myapp-lb") := {| obj := sample_service; manager := "myapp" |} ]}.
Proof.
  assert (desired (Σ := Cluster) sample_hook_args = inr sample_service) as Hd
    by reflexivity.
  split; [reflexivity|]. split; [exact sample_unit_parses|]. split; [exact Hd|].
  split; [reflexivity|].
  destruct (leader_reconcile_converges (decoder := reference_json) sample_unit fresh
              sample_hook_args sample_service eq_refl sample_unit_parses Hd eq_refl)
    as (H1 & H2 & _).
  split; [exact H1|exact H2].
Defined.

Lemma charm_objects_configured_witness :
  let hooks := [(install, sample_unit); (config_changed, sample_follower)] in
  let stored := {| obj := sample_service; manager := "myapp" |} in
  objects (cluster (world (run_hooks hooks fresh)))
    !! ("ns1", "myapp-lb") = Some stored
  ∧ "myapp-lb" = manager stored +:+ "-lb"
  ∧ ∃ ev u a, (ev, u) ∈ hooks ∧ Unit.is_leader u = true ∧ reconciles ev = true
      ∧ Unit.model_name u = "ns1" ∧ Unit.app_name u = manager stored
      ∧ parses u a
      ∧ desired (Σ := Cluster) a = inr (obj stored).
Proof.
  intros hooks stored.
  assert (objects (cluster (world (run_hooks hooks fresh)))
            !! ("ns1", "myapp-lb") = Some stored) as H by reflexivity.
  split; [exact H|].
  exact (charm_objects_configured (decoder := reference_json) [] hooks
           "ns1" "myapp-lb" stored H).
Defined.

Lemma remove_hook_cleans_up_witness :
  let hooks := [(install, sample_unit); (config_changed, sample_follower);
                (upgrade_charm, sample_unit)] in
  faults (cluster (world fresh)) = []
  ∧ Forall (λ h, Unit.app_name h.2 = Unit.app_name sample_unit
                 ∧ Unit.model_name h.2 = Unit.model_name sample_unit) hooks
  ∧ Unit.is_leader sample_unit = true
  ∧ objects (cluster (world (run_hooks
                               (hooks ++ [(remove, sample_unit)]) fresh)))
    = delete ("ns1", "myapp-lb") ∅.
Proof.
  intros hooks.
  assert (Forall (λ h, Unit.app_name h.2 = Unit.app_name sample_unit
                       ∧ Unit.model_name h.2 = Unit.model_name sample_unit) hooks)
    as H by (repeat constructor).
  split; [reflexivity|]. split; [exact H|]. split; [reflexivity|].
  exact (proj1 (remove_hook_cleans_up (decoder := reference_json) hooks sample_unit
                  fresh eq_refl H eq_refl)).
Defined.

End property_witnesses.
